(** * The Swift demangler's node factory and parser primitives

    A shallow embedding of [include/swift/Basic/Demangler.h]: the
    bump-pointer allocator [NodeFactory] and the cursor, node-stack and
    cache primitives of [Demangler], with the properties the design
    document states about them.

    Conventions.
    - [size_t], [uintptr_t] and [char *] values are 64-bit words, modelled
      as [N] with the wrap-around written out ([wrap]).  Pointer arithmetic
      is the flat, wrapping arithmetic of the target machine.
    - The process heap is explicit ([Heap]): its bytes and the blocks
      currently handed out by [malloc].  [malloc] is not deterministic, so
      the address it returns is an argument ([newSlab]) of every operation
      that may call it; the theorems state what they need about it
      ([malloc_ok]).
    - A [NodePointer] is a nullable pointer: [option Node], [None] being
      [nullptr].  [Node] and [Node::Kind] are declared in another header
      and stay abstract. *)

From Stdlib Require Import NArith ZArith List Lia Bool String Ascii.
Import ListNotations.
Local Open Scope N_scope.

(** ** Machine words *)

(** Reduction of a mathematical result to a 64-bit word. *)
Definition wrap (x : N) : N := x mod 2 ^ 64.

(** [~x] on a 64-bit word. *)
Definition not64 (x : N) : N := N.lnot x 64.

(** What the allocator needs to know of a C++ object type [T]. *)
Record CType := mkCType { sizeof : N; alignof : N }.

(** [sizeof(T) >= 1] and [alignof(T)] is a power of two that passes
    the [static_assert] of [Allocate] (at most the alignment of a
    pointer). *)
Definition valid_type (T : CType) : Prop :=
  0 < sizeof T /\ exists k, k <= 3 /\ alignof T = 2 ^ k.

(** ** The process heap *)

Record Heap := mkHeap {
  bytes : N -> N;            (* contents, one byte per address *)
  blocks : list (N * N)      (* live malloc blocks: (address, size) *)
}.

(** Store of a pointer (8 bytes, little endian) at address [p]. *)
Definition store_ptr (m : N -> N) (p v : N) : N -> N :=
  fun a => if (p <=? a) && (a <? p + 8)
           then (v / 2 ^ (8 * (a - p))) mod 256
           else m a.

(** [memcpy(dst, src, n)]. *)
Definition memcpy (m : N -> N) (dst src n : N) : N -> N :=
  fun a => if (dst <=? a) && (a <? dst + n)
           then m (src + (a - dst))
           else m a.

(** Two address ranges [(base, size)] do not overlap. *)
Definition apart (r1 r2 : N * N) : Prop :=
  fst r1 + snd r1 <= fst r2 \/ fst r2 + snd r2 <= fst r1.

(** ** NodeFactory *)

Module NodeFactory.

Record t := mk {
  CurPtr : N;        (* position in the current slab *)
  End : N;           (* the end of the current slab *)
  CurrentSlab : N;   (* head of the single-linked slab list *)
  SlabSize : N       (* size of the previously allocated slab *)
}.

(** [sizeof(Slab)]: a slab header is one pointer. *)
Definition sizeof_Slab : N := 8.

(** A freshly constructed factory.  [sizeof(Node)] comes from the
    header that declares [Node]. *)
Definition create (sizeof_Node : N) : t :=
  {| CurPtr := 0; End := 0; CurrentSlab := 0;
     SlabSize := wrap (100 * sizeof_Node) |}.

(** [(Ptr + Alignment - 1) & ~(Alignment - 1)] on [uintptr_t].  The
    source asserts [Alignment > 0], so the truncated subtraction of [N]
    is the machine's. *)
Definition align (Ptr Alignment : N) : N :=
  N.land (wrap (Ptr + Alignment - 1)) (not64 (Alignment - 1)).

(** The test [CurPtr + ObjectSize > End] of [Allocate], taken after
    [CurPtr] has been aligned: does the request need a new slab? *)
Definition needs_slab (T : CType) (NumObjects : N) (F : t) : bool :=
  End F <? wrap (align (CurPtr F) (alignof T)
                 + wrap (NumObjects * sizeof T)).

(** [Allocate<T>(NumObjects)]; [newSlab] is what [malloc] returns if it
    is called.  The result is the allocated address with the new
    factory and heap. *)
Definition Allocate (T : CType) (NumObjects newSlab : N)
           (F : t) (H : Heap) : N * t * Heap :=
  let ObjectSize := wrap (NumObjects * sizeof T) in
  let CurPtr1 := align (CurPtr F) (alignof T) in
  if End F <? wrap (CurPtr1 + ObjectSize) then
    let SlabSize' := N.max (wrap (SlabSize F * 2)) ObjectSize in
    let AllocSize := wrap (sizeof_Slab + SlabSize') in
    let H' := {| bytes := store_ptr (bytes H) newSlab (CurrentSlab F);
                 blocks := (newSlab, AllocSize) :: blocks H |} in
    let CurPtr2 := wrap (newSlab + sizeof_Slab) in
    (CurPtr2,
     {| CurPtr := wrap (CurPtr2 + ObjectSize);
        End := wrap (CurPtr2 + SlabSize');
        CurrentSlab := newSlab;
        SlabSize := SlabSize' |},
     H')
  else
    (CurPtr1,
     {| CurPtr := wrap (CurPtr1 + ObjectSize);
        End := End F;
        CurrentSlab := CurrentSlab F;
        SlabSize := SlabSize F |},
     H).

(** The test of [Reallocate]: the array ends at the frontier and the
    slab has room for the additional elements. *)
Definition grows_in_place (T : CType) (Objects Capacity MinGrowth : N)
           (F : t) : bool :=
  (wrap (Objects + wrap (Capacity * sizeof T)) =? CurPtr F)
  && (wrap (CurPtr F + wrap (MinGrowth * sizeof T)) <=? End F).

(** The growth chosen when a new allocation is needed. *)
Definition Growth (Capacity MinGrowth : N) : N :=
  let G := if 4 <=? MinGrowth then MinGrowth else 4 in
  if G <? wrap (Capacity * 2) then wrap (Capacity * 2) else G.

(** [Reallocate<T>(Objects, Capacity, MinGrowth)]; the two reference
    parameters are returned as the first two components. *)
Definition Reallocate (T : CType) (Objects Capacity MinGrowth newSlab : N)
           (F : t) (H : Heap) : N * N * t * Heap :=
  let OldAllocSize := wrap (Capacity * sizeof T) in
  let AdditionalAlloc := wrap (MinGrowth * sizeof T) in
  if (wrap (Objects + OldAllocSize) =? CurPtr F)
     && (wrap (CurPtr F + AdditionalAlloc) <=? End F) then
    (Objects, wrap (Capacity + MinGrowth),
     {| CurPtr := wrap (CurPtr F + AdditionalAlloc);
        End := End F;
        CurrentSlab := CurrentSlab F;
        SlabSize := SlabSize F |},
     H)
  else
    let G := Growth Capacity MinGrowth in
    let '(NewObjects, F1, H1) :=
      Allocate T (wrap (Capacity + G)) newSlab F H in
    (NewObjects, wrap (Capacity + G), F1,
     {| bytes := memcpy (bytes H1) NewObjects Objects OldAllocSize;
        blocks := blocks H1 |}).

(** Modelled from the spec: [clear()] is only declared in this header.
    The spec's reset moves the frontier back to the start of the most
    recently allocated slab and frees all slabs after that one in the
    chain, preserving the grown [SlabSize]. *)
Definition clear (F : t) (H : Heap) : t * Heap :=
  if CurrentSlab F =? 0 then (F, H)
  else
    ({| CurPtr := wrap (CurrentSlab F + sizeof_Slab);
        End := End F;
        CurrentSlab := CurrentSlab F;
        SlabSize := SlabSize F |},
     {| bytes := bytes H; blocks := firstn 1 (blocks H) |}).

(** *** Sequences of calls *)

(** One request of a sequence of [Allocate] calls: the type, the
    number of objects and the answer [malloc] would give. *)
Record Request := mkRequest {
  req_type : CType; req_count : N; req_slab : N
}.

(** Runs the requests in order; returns the regions [(address, size)]
    handed out, oldest first. *)
Fixpoint AllocateAll (reqs : list Request) (F : t) (H : Heap)
  : list (N * N) * t * Heap :=
  match reqs with
  | [] => ([], F, H)
  | r :: rest =>
      let '(p, F1, H1) :=
        Allocate (req_type r) (req_count r) (req_slab r) F H in
      let '(regions, F2, H2) := AllocateAll rest F1 H1 in
      ((p, wrap (req_count r * sizeof (req_type r))) :: regions, F2, H2)
  end.

(** The frontier reached from [p] if every request is served by
    bumping, computed without wrap-around: the total aligned size of
    the sequence is [frontier_after p reqs - p]. *)
Fixpoint frontier_after (p : N) (reqs : list Request) : N :=
  match reqs with
  | [] => p
  | r :: rest =>
      let a := alignof (req_type r) in
      frontier_after
        ((p + a - 1) / a * a + req_count r * sizeof (req_type r)) rest
  end.

(** The operations of the factory. *)
Inductive Op :=
| OpAllocate (T : CType) (NumObjects newSlab : N)
| OpReallocate (T : CType) (Objects Capacity MinGrowth newSlab : N)
| OpClear.

Definition step (o : Op) (s : t * Heap) : t * Heap :=
  match o with
  | OpAllocate T n newSlab =>
      let '(_, F', H') := Allocate T n newSlab (fst s) (snd s) in (F', H')
  | OpReallocate T Objects Capacity MinGrowth newSlab =>
      let '(_, _, F', H') :=
        Reallocate T Objects Capacity MinGrowth newSlab (fst s) (snd s) in
      (F', H')
  | OpClear => clear (fst s) (snd s)
  end.

Definition run (ops : list Op) (s : t * Heap) : t * Heap :=
  fold_left (fun s o => step o s) ops s.

(** *** Well-formedness of the environment *)

(** The block [malloc] is asked for when [F] needs a slab for an object
    of [ObjectSize] bytes lies inside the address space.  In particular
    neither [SlabSize * 2] nor [sizeof(Slab) + SlabSize] overflowed. *)
Definition slab_in_range (F : t) (ObjectSize newSlab : N) : Prop :=
  newSlab + sizeof_Slab + N.max (SlabSize F * 2) ObjectSize < 2 ^ 64.

(** [malloc] succeeded: the block is in range, not null, aligned for
    any object and disjoint from every live block. *)
Definition malloc_ok (F : t) (H : Heap) (ObjectSize newSlab : N) : Prop :=
  slab_in_range F ObjectSize newSlab
  /\ 0 < newSlab
  /\ newSlab mod 16 = 0
  /\ Forall (apart (newSlab,
                    sizeof_Slab + N.max (SlabSize F * 2) ObjectSize))
            (blocks H).

(** The size in bytes a call asks for, when it asks for a slab. *)
Definition op_request (o : Op) (F : t) : option (N * N) :=
  match o with
  | OpAllocate T n newSlab =>
      if needs_slab T n F
      then Some (wrap (n * sizeof T), newSlab) else None
  | OpReallocate T Objects Capacity MinGrowth newSlab =>
      let n := wrap (Capacity + Growth Capacity MinGrowth) in
      if grows_in_place T Objects Capacity MinGrowth F then None
      else if needs_slab T n F
           then Some (wrap (n * sizeof T), newSlab) else None
  | OpClear => None
  end.

(** The slab a call asks for, if any, is in range. *)
Definition request_in_range (o : Op) (F : t) : Prop :=
  match op_request o F with
  | Some (sz, newSlab) => slab_in_range F sz newSlab
  | None => True
  end.

(** Every slab a run asks for is in range. *)
Fixpoint run_in_range (ops : list Op) (s : t * Heap) : Prop :=
  match ops with
  | [] => True
  | o :: rest => request_in_range o (fst s) /\ run_in_range rest (step o s)
  end.

(** Live blocks are inside the address space and pairwise disjoint. *)
Fixpoint blocks_ok (bs : list (N * N)) : Prop :=
  match bs with
  | [] => True
  | b :: rest =>
      0 < fst b /\ fst b + snd b < 2 ^ 64
      /\ Forall (apart b) rest /\ blocks_ok rest
  end.

(** The representation invariant of a factory and its heap: either no
    slab was allocated yet, or the head of the block list is the
    current slab and the frontier is inside it. *)
Definition wf (F : t) (H : Heap) : Prop :=
  blocks_ok (blocks H)
  /\ ((CurrentSlab F = 0 /\ CurPtr F = 0 /\ End F = 0 /\ blocks H = [])
      \/ (exists older,
            blocks H = (CurrentSlab F, sizeof_Slab + SlabSize F) :: older
            /\ CurrentSlab F + sizeof_Slab <= CurPtr F
            /\ CurPtr F <= End F
            /\ End F = CurrentSlab F + sizeof_Slab + SlabSize F)).

(** The region [(p, n)] lies in memory the factory has handed out:
    below the frontier of the current slab, or in the payload of an
    older slab. *)
Definition handed_out (F : t) (H : Heap) (r : N * N) : Prop :=
  (CurrentSlab F + sizeof_Slab <= fst r /\ fst r + snd r <= CurPtr F)
  \/ (exists b, In b (tl (blocks H))
                /\ fst b + sizeof_Slab <= fst r
                /\ fst r + snd r <= fst b + snd b).

(** The request does not fit behind the aligned frontier of the current
    slab, in unbounded arithmetic. *)
Definition does_not_fit (T : CType) (NumObjects : N) (F : t) : Prop :=
  End F < (CurPtr F + alignof T - 1) / alignof T * alignof T
          + NumObjects * sizeof T.

(** What a call of [Allocate] needs: a valid type, no overflow in the
    size and in the bump, and a good answer of [malloc] if a slab is
    needed. *)
Definition Allocate_pre (T : CType) (NumObjects newSlab : N)
           (F : t) (H : Heap) : Prop :=
  valid_type T
  /\ CurPtr F + alignof T + NumObjects * sizeof T <= 2 ^ 64
  /\ (needs_slab T NumObjects F = true ->
      malloc_ok F H (NumObjects * sizeof T) newSlab).

Fixpoint AllocateAll_pre (reqs : list Request) (F : t) (H : Heap) : Prop :=
  match reqs with
  | [] => True
  | r :: rest =>
      Allocate_pre (req_type r) (req_count r) (req_slab r) F H
      /\ let '(_, F1, H1) :=
           Allocate (req_type r) (req_count r) (req_slab r) F H in
         AllocateAll_pre rest F1 H1
  end.

(** What a call of [Reallocate] that cannot grow in place needs: the old
    array is null and empty or was handed out by this factory, and the
    new allocation of [Capacity + Growth] elements can be made. *)
Definition Reallocate_pre (T : CType)
           (Objects Capacity MinGrowth newSlab : N)
           (F : t) (H : Heap) : Prop :=
  ((Objects = 0 /\ Capacity = 0)
   \/ handed_out F H (Objects, Capacity * sizeof T))
  /\ Allocate_pre T (Capacity + N.max (N.max MinGrowth 4) (Capacity * 2))
                  newSlab F H.

(** The regions of a list are laid out in list order: each ends before
    every later one starts. *)
Definition ascending (regions : list (N * N)) : Prop :=
  ForallOrdPairs (fun r1 r2 => fst r1 + snd r1 <= fst r2) regions.

(** *** The slab list in memory *)

(** Load of [n] bytes from [p], little endian. *)
Fixpoint load_le (m : N -> N) (p : N) (n : nat) : N :=
  match n with
  | O => 0
  | S n' => m p + 256 * load_le m (p + 1) n'
  end.

(** Load of a pointer: what reading [slab->Previous] at [p] gives. *)
Definition load_ptr (m : N -> N) (p : N) : N := load_le m p 8.

(** The [Previous] links, followed from [slab], visit the live blocks
    in order and end in null; each block has room for its header. *)
Fixpoint slab_chain (m : N -> N) (bs : list (N * N)) (slab : N) : Prop :=
  match bs with
  | [] => slab = 0
  | b :: rest =>
      slab = fst b /\ sizeof_Slab <= snd b
      /\ slab_chain m rest (load_ptr m slab)
  end.

(** What any call of [Reallocate] needs: no wrap-around in the branch
    that grows in place, and [Reallocate_pre] in the other. *)
Definition Reallocate_ok (T : CType)
           (Objects Capacity MinGrowth newSlab : N)
           (F : t) (H : Heap) : Prop :=
  if grows_in_place T Objects Capacity MinGrowth F
  then 0 < sizeof T /\ CurPtr F + MinGrowth * sizeof T < 2 ^ 64
  else Reallocate_pre T Objects Capacity MinGrowth newSlab F H.

(** The region is the null region or was handed out. *)
Definition null_or_handed_out (F : t) (H : Heap) (r : N * N) : Prop :=
  r = (0, 0) \/ handed_out F H r.

End NodeFactory.

(** ** StringRef *)

(** The operations of [llvm::StringRef] the demangler uses, on strings
    as values. *)
Module StringRef.

Definition size (s : string) : N := N.of_nat (String.length s).

Fixpoint drop (n : nat) (s : string) : string :=
  match n, s with
  | O, _ => s
  | S n', String _ s' => drop n' s'
  | S _, EmptyString => EmptyString
  end.

(** [substr(Start)]: the start is clamped to the size. *)
Definition substr (s : string) (Start : N) : string :=
  drop (N.to_nat (N.min Start (size s))) s.

Definition startswith (s Prefix : string) : bool := String.prefix Prefix s.

(** [operator[]]; the source only indexes below the size. *)
Definition get (s : string) (i : N) : ascii :=
  match String.get (N.to_nat i) s with
  | Some c => c
  | None => Ascii.zero
  end.

End StringRef.

(** ** Demangler *)

Module Demangler.

Section Nodes.

(** [Node::Kind] and [Node] come from the header that declares the tree;
    the demangler primitives only compare kinds. *)
Context {Kind Node : Type}.
Variable Kind_eq_dec : forall a b : Kind, {a = b} + {a <> b}.
Variable getKind : Node -> Kind.

Definition NodePointer : Type := option Node.

Record NodeWithPos := mkNodeWithPos {
  NWP_Node : NodePointer;
  NWP_Pos : N
}.

Definition MaxNumWords : Z := 26.

Record state := mkState {
  Factory : NodeFactory.t;             (* the base class *)
  Text : string;
  Pos : N;
  NodeStack : list NodeWithPos;        (* back of the vector = last *)
  Substitutions : list NodePointer;
  PendingSubstitutions : list N;
  Words : list string;                 (* StringRef Words[MaxNumWords] *)
  NumWords : Z
}.

(** A default-constructed demangler. *)
Definition fresh (sizeof_Node : N) : state :=
  {| Factory := NodeFactory.create sizeof_Node;
     Text := EmptyString; Pos := 0; NodeStack := [];
     Substitutions := []; PendingSubstitutions := [];
     Words := repeat EmptyString (Z.to_nat MaxNumWords);
     NumWords := 0%Z |}.

Definition set_Pos (d : state) (p : N) : state :=
  {| Factory := Factory d; Text := Text d; Pos := p;
     NodeStack := NodeStack d; Substitutions := Substitutions d;
     PendingSubstitutions := PendingSubstitutions d;
     Words := Words d; NumWords := NumWords d |}.

Definition set_NodeStack (d : state) (s : list NodeWithPos) : state :=
  {| Factory := Factory d; Text := Text d; Pos := Pos d;
     NodeStack := s; Substitutions := Substitutions d;
     PendingSubstitutions := PendingSubstitutions d;
     Words := Words d; NumWords := NumWords d |}.

Definition set_Substitutions (d : state) (s : list NodePointer) : state :=
  {| Factory := Factory d; Text := Text d; Pos := Pos d;
     NodeStack := NodeStack d; Substitutions := s;
     PendingSubstitutions := PendingSubstitutions d;
     Words := Words d; NumWords := NumWords d |}.

(** *** Cursor primitives *)

Definition nextIf (str : string) (d : state) : bool * state :=
  if negb (StringRef.startswith (StringRef.substr (Text d) (Pos d)) str)
  then (false, d)
  else (true, set_Pos d (wrap (Pos d + StringRef.size str))).

Definition peekChar (d : state) : ascii :=
  if StringRef.size (Text d) <=? Pos d then Ascii.zero
  else StringRef.get (Text d) (Pos d).

Definition nextChar (d : state) : ascii * state :=
  if StringRef.size (Text d) <=? Pos d then (Ascii.zero, d)
  else (StringRef.get (Text d) (Pos d), set_Pos d (wrap (Pos d + 1))).

Definition nextIf_char (c : ascii) (d : state) : bool * state :=
  if negb (Ascii.eqb (peekChar d) c) then (false, d)
  else (true, set_Pos d (wrap (Pos d + 1))).

(** [n] calls of [nextChar] in a row. *)
Fixpoint nextChars (n : nat) (d : state) : state :=
  match n with
  | O => d
  | S n' => nextChars n' (snd (nextChar d))
  end.

(** [Pos--]; the source asserts [Pos > 0]. *)
Definition pushBack (d : state) : state :=
  set_Pos d (wrap (Pos d + (2 ^ 64 - 1))).

(** *** Node stack primitives *)

Definition pushNode (Nd : NodePointer) (d : state) : state :=
  set_NodeStack d (NodeStack d ++ [mkNodeWithPos Nd (Pos d)]).

Definition popNode (d : state) : NodePointer * state :=
  match NodeStack d with
  | [] => (None, d)
  | e :: s =>
      (NWP_Node (last s e), set_NodeStack d (removelast (e :: s)))
  end.

(** [popNode(Node::Kind)].  The kind is read through the pointer on top
    of the stack; [None] stands for the undefined behaviour of reading
    it through a null pointer. *)
Definition popNode_kind (kind : Kind) (d : state)
  : option (NodePointer * state) :=
  match NodeStack d with
  | [] => Some (None, d)
  | e :: s =>
      match NWP_Node (last s e) with
      | None => None
      | Some nd =>
          if Kind_eq_dec (getKind nd) kind then Some (popNode d)
          else Some (None, d)
      end
  end.

(** [popNode(Pred)]. *)
Definition popNode_pred (pred : Kind -> bool) (d : state)
  : option (NodePointer * state) :=
  match NodeStack d with
  | [] => Some (None, d)
  | e :: s =>
      match NWP_Node (last s e) with
      | None => None
      | Some nd =>
          if negb (pred (getKind nd)) then Some (None, d)
          else Some (popNode d)
      end
  end.

(** *** Substitutions *)

Definition addSubstitution (Nd : NodePointer) (d : state) : state :=
  match Nd with
  | Some _ => set_Substitutions d (Substitutions d ++ [Nd])
  | None => d
  end.

(** The primitives the header defines, as the operations of a session. *)
Inductive Primitive :=
| OpNextIf (str : string)
| OpNextIfChar (c : ascii)
| OpPeekChar
| OpNextChar
| OpPushBack
| OpPushNode (Nd : NodePointer)
| OpPopNode
| OpPopNodeKind (kind : Kind)
| OpPopNodePred (pred : Kind -> bool)
| OpAddSubstitution (Nd : NodePointer).

(** One operation; [None] when it has undefined behaviour. *)
Definition exec (o : Primitive) (d : state) : option state :=
  match o with
  | OpNextIf str => Some (snd (nextIf str d))
  | OpNextIfChar c => Some (snd (nextIf_char c d))
  | OpPeekChar => Some d
  | OpNextChar => Some (snd (nextChar d))
  | OpPushBack => Some (pushBack d)
  | OpPushNode Nd => Some (pushNode Nd d)
  | OpPopNode => Some (snd (popNode d))
  | OpPopNodeKind kind => option_map snd (popNode_kind kind d)
  | OpPopNodePred pred => option_map snd (popNode_pred pred d)
  | OpAddSubstitution Nd => Some (addSubstitution Nd d)
  end.

Fixpoint exec_all (ops : list Primitive) (d : state) : option state :=
  match ops with
  | [] => Some d
  | o :: rest =>
      match exec o d with
      | Some d' => exec_all rest d'
      | None => None
      end
  end.

(** No entry of the substitution list is null. *)
Definition Substitutions_ok (d : state) : Prop :=
  Forall (fun Nd => Nd <> None) (Substitutions d).

(** The text at the cursor starts with [str]. *)
Definition input_starts_with (d : state) (str : string) : Prop :=
  exists rest, StringRef.substr (Text d) (Pos d) = (str ++ rest)%string.

(** *** Word list *)

(** [v[i] = x] on an array held as a list. *)
Fixpoint array_set {A : Type} (v : list A) (i : nat) (x : A) : list A :=
  match v, i with
  | [], _ => []
  | _ :: v', O => x :: v'
  | y :: v', S i' => y :: array_set v' i' x
  end.

Definition Words_ok (d : state) : Prop :=
  (0 <= NumWords d <= MaxNumWords)%Z
  /\ List.length (Words d) = Z.to_nat MaxNumWords.

(** Modelled from the spec: recording a word is part of the identifier
    production, whose body is not in this header.  The spec's word list
    is append-only with capacity 26, and a 27th recorded word attempt
    must fail cleanly ([None]). *)
Definition recordWord (w : string) (d : state) : option state :=
  if (NumWords d <? MaxNumWords)%Z then
    Some {| Factory := Factory d; Text := Text d; Pos := Pos d;
            NodeStack := NodeStack d; Substitutions := Substitutions d;
            PendingSubstitutions := PendingSubstitutions d;
            Words := array_set (Words d) (Z.to_nat (NumWords d)) w;
            NumWords := (NumWords d + 1)%Z |}
  else None.

(** Modelled from the spec: resolving a word index is part of the
    identifier production.  The spec's index validity is
    [0 <= i < count]; addressing beyond the count or beyond the capacity
    is a parse failure ([None]). *)
Definition lookupWord (i : Z) (d : state) : option string :=
  if ((0 <=? i) && (i <? NumWords d) && (i <? MaxNumWords))%Z
  then nth_error (Words d) (Z.to_nat i)
  else None.

(** Modelled from the spec: a compression code is a letter, resolved by
    the letter's ordinal position. *)
Definition resolveWordCode (c : ascii) (d : state) : option string :=
  lookupWord (Z.of_N (N_of_ascii c) - Z.of_N (N_of_ascii "A"%char))%Z d.

Fixpoint recordWords (ws : list string) (d : state) : option state :=
  match ws with
  | [] => Some d
  | w :: rest =>
      match recordWord w d with
      | Some d' => recordWords rest d'
      | None => None
      end
  end.

(** *** Further primitives *)

(** [pop_back_val]: the back of a vector of node pointers, removed; null
    and the vector as it is when it is empty. *)
Definition pop_back_val (NodeVector : list NodePointer)
  : NodePointer * list NodePointer :=
  match NodeVector with
  | [] => (None, NodeVector)
  | e :: s => (last s e, removelast (e :: s))
  end.

(** The characters [n] calls of [nextChar] return, with the demangler
    after them. *)
Fixpoint readChars (n : nat) (d : state) : list ascii * state :=
  match n with
  | O => ([], d)
  | S n' =>
      let r := nextChar d in
      let r' := readChars n' (snd r) in
      (fst r :: fst r', snd r')
  end.

(** The pointers a run of primitives hands to [addSubstitution] that
    are not null, in order. *)
Fixpoint added_substitutions (ops : list Primitive) : list NodePointer :=
  match ops with
  | [] => []
  | OpAddSubstitution (Some nd) :: rest =>
      Some nd :: added_substitutions rest
  | _ :: rest => added_substitutions rest
  end.

(** *** Entry points *)

(** [demangleOperator] is only declared in the header: the grammar's
    dispatcher is a parameter. *)
Variable demangleOperator : state -> NodePointer * state.

(** Modelled from the spec: [init] is only declared in the header.  An
    entry point initializes the cursor and the caches. *)
Definition init (MangledName : string) (d : state) : state :=
  {| Factory := Factory d; Text := MangledName; Pos := 0;
     NodeStack := []; Substitutions := []; PendingSubstitutions := [];
     Words := Words d; NumWords := 0%Z |}.

(** Modelled from the spec: [parseAndPushNodes] is only declared in the
    header.  The top-level loop dispatches on the next token until the
    input is exhausted and pushes each node produced; a null from the
    production ends it as a failure.  The result is [None] when [fuel]
    rounds were not enough, and else whether every production
    succeeded. *)
Fixpoint parseAndPushNodes (fuel : nat) (d : state) : option (bool * state) :=
  match fuel with
  | O => None
  | S fuel' =>
      if StringRef.size (Text d) <=? Pos d then Some (true, d)
      else
        match demangleOperator d with
        | (None, d1) => Some (false, d1)
        | (Some nd, d1) => parseAndPushNodes fuel' (pushNode (Some nd) d1)
        end
  end.

(** The same loop as a relation between the state before, the outcome
    and the state after. *)
Inductive parses : state -> bool -> state -> Prop :=
| parses_done d :
    StringRef.size (Text d) <= Pos d -> parses d true d
| parses_null d d1 :
    Pos d < StringRef.size (Text d) ->
    demangleOperator d = (None, d1) -> parses d false d1
| parses_push d nd d1 ok d2 :
    Pos d < StringRef.size (Text d) ->
    demangleOperator d = (Some nd, d1) ->
    parses (pushNode (Some nd) d1) ok d2 -> parses d ok d2.

(** Modelled from the spec: after the loop, success requires exactly one
    node remaining on the stack; any other depth, or a null from the
    production, is a failure. *)
Definition topLevelResult (r : bool * state) : NodePointer * state :=
  if fst r then
    match NodeStack (snd r) with
    | [e] => (NWP_Node e, snd r)
    | _ => (None, snd r)
    end
  else (None, snd r).

(** The mangling prefix named in the header's documentation of
    [demangleSymbol]. *)
Definition MANGLING_PREFIX : string := "_T0".

(** Modelled from the spec: the body of [demangleSymbol] is not in this
    header.  The text carries the prefix; the rest is the top-level
    loop. *)
Definition demangleSymbol (fuel : nat) (MangledName : string) (d : state)
  : option (NodePointer * state) :=
  let d0 := init MangledName d in
  if fst (nextIf MANGLING_PREFIX d0)
  then option_map topLevelResult
                  (parseAndPushNodes fuel (snd (nextIf MANGLING_PREFIX d0)))
  else Some (None, snd (nextIf MANGLING_PREFIX d0)).

(** Modelled from the spec: the body of [demangleType] is not in this
    header.  The text has no prefix. *)
Definition demangleType (fuel : nat) (MangledName : string) (d : state)
  : option (NodePointer * state) :=
  option_map topLevelResult (parseAndPushNodes fuel (init MangledName d)).

End Nodes.

End Demangler.

(** ** Sample data for the examples *)

(** A node as the examples use it: its kind as a number. *)
Record SampleNode := mkSampleNode { sample_kind : N; sample_text : string }.

(** A dispatcher for the examples: the letter [i] produces a node, any
    other character is not an operator. *)
Definition sample_operator (d : Demangler.state (Node := SampleNode))
  : Demangler.NodePointer * Demangler.state :=
  let r := Demangler.nextChar d in
  if Ascii.eqb (fst r) "i"%char
  then (Some (mkSampleNode 1 "i"), snd r)
  else (None, snd r).

Definition sample_factory : NodeFactory.t := NodeFactory.create 40.

Definition sample_heap : Heap := {| bytes := fun _ => 0; blocks := [] |}.

Definition sample_demangler : Demangler.state (Node := SampleNode) :=
  Demangler.fresh 40.

(** The demangler at the start of the text [_T0i]. *)
Definition sample_session : Demangler.state (Node := SampleNode) :=
  Demangler.init "_T0i" sample_demangler.

(** The same with one node on the stack. *)
Definition sample_stacked : Demangler.state (Node := SampleNode) :=
  Demangler.pushNode (Some (mkSampleNode 1 "i")) sample_session.

(** [NodePointer] and [char] as object types. *)
Definition T_ptr : CType := mkCType 8 8.
Definition T_char : CType := mkCType 1 1.

(** A factory in the middle of its first slab, of 8000 bytes at 4096. *)
Definition sample_slab : NodeFactory.t :=
  {| NodeFactory.CurPtr := 4104; NodeFactory.End := 12104;
     NodeFactory.CurrentSlab := 4096; NodeFactory.SlabSize := 8000 |}.

Definition sample_slab_heap : Heap :=
  {| bytes := fun a => a mod 256; blocks := [(4096, 8008)] |}.

(** The same factory after an array of three pointers was allocated
    at 4104. *)
Definition sample_after_array : NodeFactory.t :=
  {| NodeFactory.CurPtr := 4128; NodeFactory.End := 12104;
     NodeFactory.CurrentSlab := 4096; NodeFactory.SlabSize := 8000 |}.

(** Three pointers, five characters, two pointers. *)
Definition sample_requests : list NodeFactory.Request :=
  [NodeFactory.mkRequest T_ptr 3 0; NodeFactory.mkRequest T_char 5 0;
   NodeFactory.mkRequest T_ptr 2 0].

(** * Properties of the node factory *)

Import NodeFactory.

(** Closed facts are settled by evaluation. *)
Ltac by_computation :=
  vm_compute; repeat split; try reflexivity; try discriminate.

Section MachineWordFacts.

Lemma wrap_small (x : N) : x < 2 ^ 64 -> wrap x = x.
Proof. apply N.mod_small. Qed.

Lemma wrap_lt (x : N) : wrap x < 2 ^ 64.
Proof. apply N.mod_lt. discriminate. Qed.

Lemma wrap_le (x : N) : wrap x <= x.
Proof. apply N.Div0.mod_le. Qed.

(** Rounding down to a multiple of [2 ^ k] by masking. *)
Lemma mask_low_bits (x k : N) :
  x < 2 ^ 64 -> N.land x (not64 (2 ^ k - 1)) = x / 2 ^ k * 2 ^ k.
Proof.
  intros Hx. unfold not64.
  replace (2 ^ k - 1) with (N.ones k)
    by (rewrite N.ones_equiv, N.sub_1_r; reflexivity).
  rewrite <- N.ldiff_land_low.
  - rewrite N.ldiff_ones_r, N.shiftr_div_pow2, N.shiftl_mul_pow2.
    reflexivity.
  - destruct (N.eq_dec x 0) as [->|Hnz]; [reflexivity|].
    apply N.log2_lt_pow2; lia.
Qed.

(** [align] rounds up to the next multiple of the alignment. *)
Lemma align_round_up (p a : N) :
  (exists k, k <= 3 /\ a = 2 ^ k) -> p + a <= 2 ^ 64 ->
  align p a = (p + a - 1) / a * a.
Proof.
  intros (k & _ & ->) Hp. unfold align.
  assert (0 < 2 ^ k) by (apply N.neq_0_lt_0, N.pow_nonzero; discriminate).
  rewrite wrap_small by lia.
  apply mask_low_bits. lia.
Qed.

Lemma round_up_bounds (p a : N) :
  0 < a -> p <= (p + a - 1) / a * a /\ (p + a - 1) / a * a <= p + a - 1.
Proof.
  intros Ha.
  pose proof (N.div_mod (p + a - 1) a ltac:(lia)) as E.
  pose proof (N.mod_lt (p + a - 1) a ltac:(lia)) as L.
  rewrite (N.mul_comm a) in E.
  set (q := (p + a - 1) / a * a) in *.
  set (r := (p + a - 1) mod a) in *. lia.
Qed.

Lemma align_bounds (p a : N) :
  (exists k, k <= 3 /\ a = 2 ^ k) -> p + a <= 2 ^ 64 ->
  p <= align p a /\ align p a < p + a.
Proof.
  intros Ha Hp. rewrite align_round_up by assumption.
  destruct Ha as (k & _ & ->).
  assert (0 < 2 ^ k) by (apply N.neq_0_lt_0, N.pow_nonzero; discriminate).
  pose proof (round_up_bounds p (2 ^ k) ltac:(assumption)). lia.
Qed.

End MachineWordFacts.

Section SlabGrowth.

(** In the branch of [Allocate] that takes a new slab, a request in range
    makes every word operation exact. *)
Lemma slab_in_range_exact (F : t) (osz newSlab : N) :
  slab_in_range F osz newSlab ->
  wrap (SlabSize F * 2) = SlabSize F * 2
  /\ wrap (newSlab + sizeof_Slab) = newSlab + sizeof_Slab
  /\ wrap (sizeof_Slab + N.max (SlabSize F * 2) osz)
     = sizeof_Slab + N.max (SlabSize F * 2) osz
  /\ wrap (newSlab + sizeof_Slab + N.max (SlabSize F * 2) osz)
     = newSlab + sizeof_Slab + N.max (SlabSize F * 2) osz
  /\ (osz <= N.max (SlabSize F * 2) osz
      -> wrap (newSlab + sizeof_Slab + osz) = newSlab + sizeof_Slab + osz).
Proof.
  unfold slab_in_range, sizeof_Slab. intros R.
  repeat split; intros; apply wrap_small; lia.
Qed.

Lemma Allocate_SlabSize (T : CType) (n newSlab : N) (F : t) (H : Heap) :
  (needs_slab T n F = true -> slab_in_range F (wrap (n * sizeof T)) newSlab) ->
  SlabSize (snd (fst (Allocate T n newSlab F H)))
  = if needs_slab T n F
    then N.max (2 * SlabSize F) (wrap (n * sizeof T))
    else SlabSize F.
Proof.
  unfold Allocate, needs_slab. intros R.
  destruct (End F <? _) eqn:E; cbn [fst snd SlabSize]; [|reflexivity].
  destruct (slab_in_range_exact _ _ _ (R eq_refl)) as (-> & _).
  f_equal. lia.
Qed.

Lemma Allocate_frontier (T : CType) (n newSlab : N) (F : t) (H : Heap) :
  (needs_slab T n F = true -> slab_in_range F (wrap (n * sizeof T)) newSlab) ->
  CurPtr (snd (fst (Allocate T n newSlab F H)))
  <= End (snd (fst (Allocate T n newSlab F H))).
Proof.
  unfold Allocate, needs_slab. intros R.
  destruct (End F <? _) eqn:E; cbn [fst snd CurPtr End].
  - specialize (R eq_refl).
    destruct (slab_in_range_exact _ _ _ R) as (-> & -> & _ & E4 & E5).
    rewrite E4, E5 by lia. lia.
  - apply N.ltb_ge in E. exact E.
Qed.

Lemma Reallocate_unfold (T : CType) (Objects Capacity MinGrowth newSlab : N)
      (F : t) (H : Heap) :
  Reallocate T Objects Capacity MinGrowth newSlab F H
  = if grows_in_place T Objects Capacity MinGrowth F
    then (Objects, wrap (Capacity + MinGrowth),
          {| CurPtr := wrap (CurPtr F + wrap (MinGrowth * sizeof T));
             End := End F; CurrentSlab := CurrentSlab F;
             SlabSize := SlabSize F |}, H)
    else
      let n := wrap (Capacity + Growth Capacity MinGrowth) in
      let A := Allocate T n newSlab F H in
      (fst (fst A), n, snd (fst A),
       {| bytes := memcpy (bytes (snd A)) (fst (fst A)) Objects
                          (wrap (Capacity * sizeof T));
          blocks := blocks (snd A) |}).
Proof.
  unfold Reallocate, grows_in_place.
  destruct (_ && _); [reflexivity|].
  cbv zeta. destruct (Allocate _ _ _ _ _) as [[p F1] H1]. reflexivity.
Qed.

Lemma step_SlabSize (o : Op) (s : t * Heap) :
  request_in_range o (fst s) ->
  SlabSize (fst s) <= SlabSize (fst (step o s)).
Proof.
  destruct s as [F H]. destruct o as [T n p|T Ob Ca Mg p|];
    unfold request_in_range, op_request; cbn [fst snd step]; intros R.
  - pose proof (Allocate_SlabSize T n p F H) as S.
    destruct (Allocate T n p F H) as [[q F'] H'] eqn:EA. cbn [fst snd] in *.
    destruct (needs_slab T n F);
      rewrite S by (intros E; first [exact R | discriminate E]); lia.
  - rewrite Reallocate_unfold.
    destruct (grows_in_place T Ob Ca Mg F); cbn [fst snd SlabSize]; [lia|].
    cbv zeta. cbn [fst snd].
    set (n := wrap (Ca + Growth Ca Mg)) in *.
    pose proof (Allocate_SlabSize T n p F H) as S.
    destruct (needs_slab T n F);
      rewrite S by (intros E; first [exact R | discriminate E]); lia.
  - unfold clear. destruct (CurrentSlab F =? 0); cbn [fst SlabSize]; lia.
Qed.

Lemma run_SlabSize (ops : list Op) :
  forall s, run_in_range ops s ->
            SlabSize (fst s) <= SlabSize (fst (run ops s)).
Proof.
  induction ops as [|o ops IH]; intros s R; cbn [run fold_left].
  - lia.
  - destruct R as [R1 R2].
    apply N.le_trans with (SlabSize (fst (step o s))).
    + apply step_SlabSize, R1.
    + apply IH, R2.
Qed.

End SlabGrowth.

Section AllocateFacts.

(** A multiple of the alignment below [2 ^ 64] leaves room for the
    alignment itself. *)
Lemma round_up_no_overflow (p a : N) :
  (exists k, k <= 3 /\ a = 2 ^ k) ->
  (p + a - 1) / a * a < 2 ^ 64 -> p + a <= 2 ^ 64.
Proof.
  intros (k & Hk & ->) Hq.
  assert (P : 0 < 2 ^ k) by (apply N.neq_0_lt_0, N.pow_nonzero; discriminate).
  assert (E : 2 ^ 64 = 2 ^ (64 - k) * 2 ^ k)
    by (rewrite <- N.pow_add_r; f_equal; lia).
  pose proof (N.div_mod (p + 2 ^ k - 1) (2 ^ k) ltac:(lia)) as D.
  pose proof (N.mod_lt (p + 2 ^ k - 1) (2 ^ k) ltac:(lia)) as L.
  rewrite (N.mul_comm (2 ^ k)) in D.
  set (q := (p + 2 ^ k - 1) / 2 ^ k) in *.
  set (r := (p + 2 ^ k - 1) mod 2 ^ k) in *.
  rewrite E in Hq |- *.
  apply N.mul_lt_mono_pos_r in Hq; [|exact P].
  assert (q * 2 ^ k + 2 ^ k <= 2 ^ (64 - k) * 2 ^ k) by nia.
  lia.
Qed.

Lemma valid_type_alignof (T : CType) :
  valid_type T -> 1 <= alignof T /\ alignof T <= 8.
Proof.
  intros (_ & k & Hk & ->). split.
  - assert (2 ^ k <> 0) by (apply N.pow_nonzero; discriminate). lia.
  - change 8 with (2 ^ 3). apply N.pow_le_mono_r; [discriminate|exact Hk].
Qed.

(** Under its precondition [Allocate] computes with exact arithmetic. *)
Lemma Allocate_exact (T : CType) (n newSlab : N) (F : t) (H : Heap) :
  Allocate_pre T n newSlab F H ->
  let p := align (CurPtr F) (alignof T) in
  let osz := n * sizeof T in
  let cap := N.max (SlabSize F * 2) osz in
  CurPtr F <= p /\ p < CurPtr F + alignof T
  /\ Allocate T n newSlab F H
     = (if needs_slab T n F then
         (newSlab + sizeof_Slab,
          {| CurPtr := newSlab + sizeof_Slab + osz;
             End := newSlab + sizeof_Slab + cap;
             CurrentSlab := newSlab;
             SlabSize := cap |},
          {| bytes := store_ptr (bytes H) newSlab (CurrentSlab F);
             blocks := (newSlab, sizeof_Slab + cap) :: blocks H |})
       else
         (p,
          {| CurPtr := p + osz; End := End F;
             CurrentSlab := CurrentSlab F; SlabSize := SlabSize F |},
          H))
  /\ (needs_slab T n F = false -> p + osz <= End F).
Proof.
  intros (VT & NO & M) p osz cap.
  pose proof (valid_type_alignof T VT) as [A1 A8].
  destruct VT as [S0 VA].
  destruct (align_bounds (CurPtr F) (alignof T) VA ltac:(lia)) as [B1 B2].
  fold p in B1, B2.
  assert (W : wrap (n * sizeof T) = osz) by (apply wrap_small; subst osz; lia).
  assert (W2 : wrap (p + osz) = p + osz) by (apply wrap_small; subst osz; lia).
  split; [exact B1|]. split; [exact B2|].
  assert (NS : needs_slab T n F = (End F <? p + osz))
    by (unfold needs_slab; fold p; rewrite W, W2; reflexivity).
  rewrite NS in *. unfold Allocate. fold p. rewrite W, W2.
  destruct (End F <? p + osz) eqn:E.
  - specialize (M eq_refl). destruct M as (R & _).
    destruct (slab_in_range_exact _ _ _ R) as (E1 & E2 & E3 & E4 & E5).
    split; [|discriminate].
    subst osz cap. rewrite E1, E2, E3.
    rewrite E4, E5 by lia. reflexivity.
  - split; [reflexivity|]. intros _. apply N.ltb_ge in E. exact E.
Qed.

(** Under the precondition the test of [Allocate] decides whether the
    request fits. *)
Lemma needs_slab_exact (T : CType) (n newSlab : N) (F : t) (H : Heap) :
  Allocate_pre T n newSlab F H ->
  needs_slab T n F = true <-> does_not_fit T n F.
Proof.
  intros (VT & NO & _). unfold needs_slab, does_not_fit.
  pose proof (valid_type_alignof T VT) as [A1 A8].
  destruct VT as [S0 VA].
  destruct (align_bounds (CurPtr F) (alignof T) VA ltac:(lia)) as [B1 B2].
  rewrite <- (align_round_up _ _ VA) by lia.
  rewrite (wrap_small (n * sizeof T)) by lia.
  rewrite wrap_small by lia. apply N.ltb_lt.
Qed.

End AllocateFacts.

Section Invariant.

Lemma wf_frontier (F : t) (H : Heap) :
  wf F H -> CurPtr F <= End F /\ End F < 2 ^ 64.
Proof.
  intros (B & [(_ & -> & -> & _)|(older & E & L1 & L2 & L3)]).
  - split; [lia|reflexivity].
  - rewrite E in B. cbn [blocks_ok fst snd] in B. lia.
Qed.

Lemma wf_create (sizeof_Node : N) (m : N -> N) :
  wf (create sizeof_Node) {| bytes := m; blocks := [] |}.
Proof. split; [exact I|]. left. repeat split. Qed.

(** [Allocate] keeps the representation invariant. *)
Lemma Allocate_wf (T : CType) (n newSlab : N) (F : t) (H : Heap) :
  wf F H -> Allocate_pre T n newSlab F H ->
  wf (snd (fst (Allocate T n newSlab F H))) (snd (Allocate T n newSlab F H)).
Proof.
  intros W P.
  destruct (Allocate_exact _ _ _ _ _ P) as (B1 & B2 & EQ & FIT).
  cbv zeta in *. rewrite EQ. clear EQ.
  destruct (needs_slab T n F) eqn:NS; cbn [fst snd].
  - destruct P as (_ & _ & M). destruct (M NS) as (R & NZ & _ & AP).
    unfold slab_in_range in R. destruct W as (B & _).
    split.
    + cbn [blocks blocks_ok fst snd]. repeat split; try assumption.
      unfold sizeof_Slab in *. lia.
    + right. exists (blocks H). cbn [CurPtr End CurrentSlab SlabSize blocks].
      repeat split; unfold sizeof_Slab; lia.
  - specialize (FIT eq_refl).
    destruct W as (B & [(C0 & P0 & E0 & BL)|(older & E & L1 & L2 & L3)]).
    + split; [exact B|]. left. cbn [CurPtr End CurrentSlab SlabSize].
      repeat split; try assumption. lia.
    + split; [exact B|]. right. exists older.
      cbn [CurPtr End CurrentSlab SlabSize]. repeat split; try assumption; lia.
Qed.

(** Memory that was handed out lies in the payload of a live block. *)
Lemma handed_out_in_block (F : t) (H : Heap) (r : N * N) :
  wf F H -> handed_out F H r ->
  exists b, In b (blocks H)
            /\ fst b + sizeof_Slab <= fst r
            /\ fst r + snd r <= fst b + snd b.
Proof.
  intros (B & W) [(L1 & L2)|(b & I & L1 & L2)].
  - destruct W as [(C0 & P0 & _)|(older & E & K1 & K2 & K3)].
    + unfold sizeof_Slab in *. lia.
    + exists (CurrentSlab F, sizeof_Slab + SlabSize F). rewrite E.
      cbn [fst snd]. repeat split; [left; reflexivity|assumption|lia].
  - exists b. repeat split; try assumption.
    destruct (blocks H); [destruct I|right; exact I].
Qed.

(** Memory that was handed out stays handed out. *)
Lemma Allocate_keeps_handed_out (T : CType) (n newSlab : N) (F : t)
      (H : Heap) (r : N * N) :
  wf F H -> Allocate_pre T n newSlab F H -> handed_out F H r ->
  handed_out (snd (fst (Allocate T n newSlab F H)))
             (snd (Allocate T n newSlab F H)) r.
Proof.
  intros W P HO.
  destruct (Allocate_exact _ _ _ _ _ P) as (B1 & B2 & EQ & FIT).
  cbv zeta in *. rewrite EQ. clear EQ.
  destruct (needs_slab T n F) eqn:NS; cbn [fst snd].
  - right. cbn [blocks tl].
    destruct (handed_out_in_block F H r W HO) as (b & I & L).
    exists b. split; assumption.
  - destruct HO as [(L1 & L2)|HO]; [left|right; exact HO].
    cbn [CurPtr CurrentSlab]. split; [assumption|lia].
Qed.

(** The region [Allocate] returns is handed out afterwards (an empty
    region asked from a factory without slab is the null region). *)
Lemma Allocate_result_handed_out (T : CType) (n newSlab : N) (F : t)
      (H : Heap) :
  wf F H -> Allocate_pre T n newSlab F H ->
  n * sizeof T = 0
  \/ handed_out (snd (fst (Allocate T n newSlab F H)))
                (snd (Allocate T n newSlab F H))
                (fst (fst (Allocate T n newSlab F H)), n * sizeof T).
Proof.
  intros W P.
  destruct (Allocate_exact _ _ _ _ _ P) as (B1 & B2 & EQ & FIT).
  cbv zeta in *. rewrite EQ. clear EQ.
  destruct (needs_slab T n F) eqn:NS; cbn [fst snd].
  - right. left. cbn [fst snd CurPtr CurrentSlab]. lia.
  - specialize (FIT eq_refl).
    destruct W as (B & [(C0 & P0 & E0 & BL)|(older & E & L1 & L2 & L3)]).
    + left. lia.
    + right. left. cbn [fst snd CurPtr CurrentSlab]. lia.
Qed.

(** [Allocate] writes only the header of a slab it takes, which is apart
    from everything handed out before. *)
Lemma Allocate_bytes_handed_out (T : CType) (n newSlab : N) (F : t)
      (H : Heap) (r : N * N) (a : N) :
  wf F H -> Allocate_pre T n newSlab F H -> handed_out F H r ->
  fst r <= a < fst r + snd r ->
  bytes (snd (Allocate T n newSlab F H)) a = bytes H a.
Proof.
  intros W P HO A.
  destruct (Allocate_exact _ _ _ _ _ P) as (B1 & B2 & EQ & FIT).
  cbv zeta in *. rewrite EQ. clear EQ.
  destruct (needs_slab T n F) eqn:NS; cbn [fst snd]; [|reflexivity].
  cbn [bytes]. unfold store_ptr.
  destruct (handed_out_in_block F H r W HO) as (b & I & L1 & L2).
  destruct P as (_ & _ & M). destruct (M NS) as (_ & _ & _ & AP).
  rewrite Forall_forall in AP. specialize (AP b I).
  unfold apart, sizeof_Slab in *. cbn [fst snd] in AP.
  destruct ((newSlab <=? a) && (a <? newSlab + 8)) eqn:E; [|reflexivity].
  apply andb_true_iff in E as [E1 E2].
  apply N.leb_le in E1. apply N.ltb_lt in E2. lia.
Qed.

(** The two assertions of [Allocate] on a new slab hold: the payload
    of the slab is aligned for [T], and [End] is the end of the block. *)
Lemma Allocate_assertions (T : CType) (n newSlab : N) (F : t) (H : Heap) :
  Allocate_pre T n newSlab F H -> needs_slab T n F = true ->
  let A := Allocate T n newSlab F H in
  align (fst (fst A)) (alignof T) = fst (fst A)
  /\ exists AllocSize, hd (0, 0) (blocks (snd A)) = (newSlab, AllocSize)
                       /\ End (snd (fst A)) = newSlab + AllocSize.
Proof.
  intros P NS A.
  destruct (Allocate_exact _ _ _ _ _ P) as (_ & _ & EQ & _).
  cbv zeta in EQ. rewrite NS in EQ. subst A. rewrite EQ. cbn [fst snd].
  destruct P as ((_ & k & Hk & EA) & _ & M).
  destruct (M NS) as (R & _ & AL & _).
  unfold slab_in_range, sizeof_Slab in *. split.
  - pose proof (N.div_mod newSlab 16 ltac:(discriminate)) as DM.
    rewrite AL in DM.
    assert (P2 : 0 < 2 ^ k)
      by (apply N.neq_0_lt_0, N.pow_nonzero; discriminate).
    assert (P8 : 2 ^ k <= 8)
      by (change 8 with (2 ^ 3); apply N.pow_le_mono_r;
          [discriminate|exact Hk]).
    rewrite align_round_up;
      [|exists k; split; assumption|rewrite EA; lia].
    rewrite EA.
    assert (D : exists q, newSlab + 8 = q * 2 ^ k).
    { exists ((newSlab / 16 * 2 + 1) * 2 ^ (3 - k)).
      rewrite <- N.mul_assoc, <- N.pow_add_r.
      replace (3 - k + k) with 3 by lia. change (2 ^ 3) with 8. lia. }
    destruct D as (q & ->).
    replace (q * 2 ^ k + 2 ^ k - 1) with (2 ^ k - 1 + q * 2 ^ k) by lia.
    rewrite N.div_add by lia.
    rewrite N.div_small by lia. reflexivity.
  - eexists. split; [reflexivity|]. cbn [End]. lia.
Qed.

End Invariant.

Section Sequences.

(** A request that fits behind the aligned frontier is served by
    bumping the frontier; the heap is not touched. *)
Lemma Allocate_bump (T : CType) (n newSlab : N) (F : t) (H : Heap) :
  valid_type T -> End F < 2 ^ 64 ->
  (CurPtr F + alignof T - 1) / alignof T * alignof T + n * sizeof T <= End F ->
  Allocate T n newSlab F H
  = ((CurPtr F + alignof T - 1) / alignof T * alignof T,
     {| CurPtr := (CurPtr F + alignof T - 1) / alignof T * alignof T
                  + n * sizeof T;
        End := End F; CurrentSlab := CurrentSlab F;
        SlabSize := SlabSize F |},
     H)
  /\ wrap (n * sizeof T) = n * sizeof T.
Proof.
  intros VT EL Fit.
  assert (NO : CurPtr F + alignof T <= 2 ^ 64)
    by (apply round_up_no_overflow; [apply VT|lia]).
  rewrite <- (align_round_up _ _ (proj2 VT) NO) in *.
  assert (W : wrap (n * sizeof T) = n * sizeof T) by (apply wrap_small; lia).
  split; [|exact W].
  unfold Allocate. rewrite W, wrap_small by lia.
  destruct (End F <? _) eqn:E; [apply N.ltb_lt in E; lia|reflexivity].
Qed.

Lemma frontier_after_le (reqs : list Request) :
  Forall (fun r => valid_type (req_type r)) reqs ->
  forall p, p <= frontier_after p reqs.
Proof.
  induction 1 as [|r rest V _ IH]; intros p; cbn [frontier_after]; [lia|].
  pose proof (valid_type_alignof _ V) as [A1 _].
  pose proof (round_up_bounds p (alignof (req_type r)) ltac:(lia)) as [L _].
  eapply N.le_trans; [|apply IH]. lia.
Qed.

(** A sequence whose total aligned size fits in the current slab is laid
    out in increasing address order without touching the heap. *)
Lemma AllocateAll_fits (reqs : list Request) :
  Forall (fun r => valid_type (req_type r)) reqs ->
  forall F H,
    End F < 2 ^ 64 ->
    frontier_after (CurPtr F) reqs <= End F ->
    ascending (fst (fst (AllocateAll reqs F H)))
    /\ Forall (fun r => CurPtr F <= fst r)
              (fst (fst (AllocateAll reqs F H)))
    /\ snd (AllocateAll reqs F H) = H
    /\ CurPtr (snd (fst (AllocateAll reqs F H)))
       = frontier_after (CurPtr F) reqs
    /\ End (snd (fst (AllocateAll reqs F H))) = End F.
Proof.
  induction 1 as [|r rest V VS IH]; intros F H EL Fit.
  - cbn. repeat split; constructor.
  - cbn [AllocateAll frontier_after] in *.
    pose proof (frontier_after_le rest VS) as Mono.
    pose proof (valid_type_alignof _ V) as [A1 _].
    set (a := alignof (req_type r)) in *.
    set (q := (CurPtr F + a - 1) / a * a) in *.
    set (osz := req_count r * sizeof (req_type r)) in *.
    specialize (Mono (q + osz)).
    destruct (Allocate_bump (req_type r) (req_count r) (req_slab r) F H
                V EL ltac:(fold a q osz; lia)) as [EQ W].
    fold a q osz in EQ, W. rewrite EQ, W.
    set (F1 := {| CurPtr := q + osz; End := End F;
                  CurrentSlab := CurrentSlab F; SlabSize := SlabSize F |}).
    specialize (IH F1 H EL Fit).
    destruct (AllocateAll rest F1 H) as [[regions F2] H2].
    cbn [fst snd CurPtr End] in *.
    destruct IH as (Asc & Low & EH & EC & EE).
    pose proof (round_up_bounds (CurPtr F) a ltac:(lia)) as [L _].
    fold q in L.
    repeat split; try assumption.
    + constructor; [|exact Asc].
      eapply Forall_impl; [|exact Low]. cbn. intros; lia.
    + constructor; [cbn; lia|].
      eapply Forall_impl; [|exact Low]. cbn. intros; lia.
Qed.

(** The same when the first call of the sequence takes the slab and the
    rest fits in it. *)
Lemma AllocateAll_in_new_slab (r : Request) (reqs : list Request)
      (F : t) (H : Heap) :
  Allocate_pre (req_type r) (req_count r) (req_slab r) F H ->
  needs_slab (req_type r) (req_count r) F = true ->
  Forall (fun r' => valid_type (req_type r')) reqs ->
  frontier_after (req_slab r + sizeof_Slab
                  + req_count r * sizeof (req_type r)) reqs
  <= req_slab r + sizeof_Slab
     + N.max (SlabSize F * 2) (req_count r * sizeof (req_type r)) ->
  ascending (fst (fst (AllocateAll (r :: reqs) F H))).
Proof.
  intros P NS V Fit. cbn [AllocateAll].
  destruct (Allocate_exact _ _ _ _ _ P) as (_ & _ & EQ & _).
  cbv zeta in EQ. rewrite NS in EQ. rewrite EQ. clear EQ.
  destruct P as (VT & NO & M). destruct (M NS) as (R & _).
  unfold slab_in_range in R.
  pose proof (valid_type_alignof _ VT) as [A1 _].
  rewrite wrap_small by lia.
  match goal with
  | |- context [AllocateAll reqs ?F1 ?H1] =>
      pose proof (AllocateAll_fits reqs V F1 H1) as Q;
      destruct (AllocateAll reqs F1 H1) as [[regions F2] H2]
  end.
  cbn [fst snd CurPtr End] in *.
  destruct (Q ltac:(lia) Fit) as (Asc & Low & _).
  constructor; [|exact Asc].
  eapply Forall_impl; [|exact Low]. cbn. intros; lia.
Qed.

(** Along any run of [Allocate] calls the invariant holds, what was
    handed out stays so, and the regions returned are handed out. *)
Lemma AllocateAll_wf (reqs : list Request) :
  forall F H,
    wf F H -> AllocateAll_pre reqs F H ->
    wf (snd (fst (AllocateAll reqs F H))) (snd (AllocateAll reqs F H))
    /\ (forall r, handed_out F H r ->
                  handed_out (snd (fst (AllocateAll reqs F H)))
                             (snd (AllocateAll reqs F H)) r)
    /\ Forall (fun r => snd r = 0
                        \/ handed_out (snd (fst (AllocateAll reqs F H)))
                                      (snd (AllocateAll reqs F H)) r)
              (fst (fst (AllocateAll reqs F H))).
Proof.
  induction reqs as [|r rest IH]; intros F H W P.
  - cbn. split; [exact W|]. split; [auto|constructor].
  - cbn [AllocateAll AllocateAll_pre] in *. destruct P as [P PS].
    pose proof (Allocate_wf _ _ _ _ _ W P) as W1.
    pose proof (Allocate_result_handed_out _ _ _ _ _ W P) as R1.
    pose proof (fun x => Allocate_keeps_handed_out _ _ _ _ _ x W P) as K1.
    assert (SZ : wrap (req_count r * sizeof (req_type r))
                 = req_count r * sizeof (req_type r)).
    { destruct P as (VT & NO & _).
      pose proof (valid_type_alignof _ VT). apply wrap_small. lia. }
    rewrite SZ.
    destruct (Allocate _ _ _ F H) as [[p F1] H1]. cbn [fst snd] in *.
    specialize (IH F1 H1 W1 PS).
    destruct (AllocateAll rest F1 H1) as [[regions F2] H2].
    cbn [fst snd] in *. destruct IH as (W2 & K2 & R2).
    split; [exact W2|]. split; [auto|].
    constructor; [|exact R2].
    cbn [snd]. destruct R1 as [Z|R1]; [left; exact Z|right; auto].
Qed.

End Sequences.

Section ReallocateFacts.

Lemma Growth_exact (Capacity MinGrowth : N) :
  Capacity * 2 < 2 ^ 64 ->
  Growth Capacity MinGrowth = N.max (N.max MinGrowth 4) (Capacity * 2).
Proof.
  intros L. unfold Growth. rewrite (wrap_small _ L).
  destruct (4 <=? MinGrowth) eqn:E1;
    [apply N.leb_le in E1|apply N.leb_gt in E1];
    match goal with |- context [?a <? ?b] => destruct (a <? b) eqn:E2 end;
    try apply N.ltb_lt in E2; try apply N.ltb_ge in E2; lia.
Qed.

Lemma blocks_ok_In (bs : list (N * N)) (b : N * N) :
  blocks_ok bs -> In b bs -> 0 < fst b /\ fst b + snd b < 2 ^ 64.
Proof.
  induction bs as [|c bs IH]; cbn [blocks_ok In]; [tauto|].
  intros (P & L & _ & B) [->|I]; [split; assumption|exact (IH B I)].
Qed.

(** The array grows where it is: nothing but the frontier changes. *)
Lemma Reallocate_in_place (T : CType) (Objects Capacity MinGrowth newSlab : N)
      (F : t) (H : Heap) :
  0 < sizeof T -> End F < 2 ^ 64 ->
  Objects + Capacity * sizeof T = CurPtr F ->
  CurPtr F + MinGrowth * sizeof T <= End F ->
  Reallocate T Objects Capacity MinGrowth newSlab F H
  = (Objects, Capacity + MinGrowth,
     {| CurPtr := CurPtr F + MinGrowth * sizeof T; End := End F;
        CurrentSlab := CurrentSlab F; SlabSize := SlabSize F |},
     H).
Proof.
  intros S EL E1 E2. rewrite Reallocate_unfold. unfold grows_in_place.
  assert (Capacity <= Capacity * sizeof T) by nia.
  assert (MinGrowth <= MinGrowth * sizeof T) by nia.
  rewrite !(wrap_small (_ * sizeof T)) by lia.
  rewrite !wrap_small by lia.
  rewrite (proj2 (N.eqb_eq _ _) E1), (proj2 (N.leb_le _ _) E2).
  reflexivity.
Qed.

(** Otherwise the array moves to a fresh region. *)
Lemma Reallocate_moves (T : CType) (Objects Capacity MinGrowth newSlab : N)
      (F : t) (H : Heap) :
  wf F H ->
  Reallocate_pre T Objects Capacity MinGrowth newSlab F H ->
  ~ (Objects + Capacity * sizeof T = CurPtr F
     /\ CurPtr F + MinGrowth * sizeof T <= End F) ->
  let G := Growth Capacity MinGrowth in
  let R := Reallocate T Objects Capacity MinGrowth newSlab F H in
  let Objects' := fst (fst (fst R)) in
  let F' := snd (fst R) in
  let H' := snd R in
  MinGrowth <= G /\ 4 <= G /\ Capacity <= G
  /\ snd (fst (fst R)) = Capacity + G
  /\ fst (Allocate T (Capacity + G) newSlab F H) = (Objects', F')
  /\ Objects' <> Objects
  /\ apart (Objects', (Capacity + G) * sizeof T)
           (Objects, Capacity * sizeof T)
  /\ handed_out F' H' (Objects', (Capacity + G) * sizeof T)
  /\ (forall i, i < Capacity * sizeof T ->
                bytes H' (Objects' + i) = bytes H (Objects + i)).
Proof.
  intros W (Old & AP) NC.
  set (Gm := N.max (N.max MinGrowth 4) (Capacity * 2)) in *.
  pose proof AP as (VT & NO & M).
  pose proof (valid_type_alignof T VT) as [A1 A8].
  destruct VT as [S0 VA].
  assert (X1 : Capacity * sizeof T <= (Capacity + Gm) * sizeof T)
    by (apply N.mul_le_mono_r; lia).
  assert (X2 : MinGrowth * sizeof T <= (Capacity + Gm) * sizeof T)
    by (apply N.mul_le_mono_r; lia).
  assert (X3 : Capacity + Gm <= (Capacity + Gm) * sizeof T) by nia.
  assert (X4 : 0 < (Capacity + Gm) * sizeof T) by nia.
  assert (OL : Objects + Capacity * sizeof T < 2 ^ 64).
  { destruct Old as [(-> & ->)|HO]; [lia|].
    destruct (handed_out_in_block _ _ _ W HO) as (b & I & _ & L).
    destruct (blocks_ok_In _ _ (proj1 W) I). cbn [fst snd] in L. lia. }
  rewrite (Growth_exact Capacity MinGrowth) by lia. fold Gm.
  rewrite Reallocate_unfold.
  assert (GP : grows_in_place T Objects Capacity MinGrowth F = false).
  { unfold grows_in_place.
    rewrite !(wrap_small (_ * sizeof T)) by lia.
    rewrite !wrap_small by lia.
    destruct (_ =? _) eqn:E1; [|reflexivity].
    destruct (_ <=? _) eqn:E2; [|reflexivity].
    apply N.eqb_eq in E1. apply N.leb_le in E2. tauto. }
  rewrite GP. rewrite (Growth_exact Capacity MinGrowth) by lia. fold Gm.
  rewrite (wrap_small (Capacity + Gm)) by lia.
  rewrite (wrap_small (Capacity * sizeof T)) by lia.
  cbv zeta. cbn [fst snd].
  pose proof (Allocate_result_handed_out _ _ _ _ _ W AP) as RH.
  pose proof (fun r a => Allocate_bytes_handed_out _ _ _ _ _ r a W AP) as BY.
  destruct (Allocate_exact _ _ _ _ _ AP) as (B1 & B2 & EQ & FIT).
  cbv zeta in B1, B2, EQ, FIT.
  set (A := Allocate T (Capacity + Gm) newSlab F H) in *.
  assert (Sep : (Objects + Capacity * sizeof T <= fst (fst A)
                 /\ Objects < fst (fst A))
                \/ fst (fst A) + (Capacity + Gm) * sizeof T <= Objects).
  { rewrite EQ. destruct (needs_slab T (Capacity + Gm) F) eqn:NS;
      cbn [fst snd].
    - destruct (M eq_refl) as (R & NZ & _ & APT). unfold sizeof_Slab in *.
      destruct Old as [(-> & ->)|HO]; [left; lia|].
      destruct (handed_out_in_block _ _ _ W HO) as (b & I & L1 & L2).
      rewrite Forall_forall in APT. specialize (APT b I).
      unfold apart, sizeof_Slab in *. cbn [fst snd] in *. lia.
    - specialize (FIT eq_refl).
      destruct W as (B & [(C0 & P0 & E0 & BL)|(older & E & K1 & K2 & K3)]);
        [lia|].
      unfold sizeof_Slab in *.
      destruct Old as [(-> & ->)|[(L1 & L2)|(b & I & L1 & L2)]];
        cbn [fst snd] in *.
      + left. lia.
      + left. split; [lia|].
        destruct (N.lt_ge_cases Objects (align (CurPtr F) (alignof T)))
          as [?|GE]; [assumption|].
        exfalso. apply NC. lia.
      + rewrite E in B, I. cbn [tl blocks_ok] in B, I.
        destruct B as (_ & _ & AP' & _).
        rewrite Forall_forall in AP'. specialize (AP' b I).
        unfold apart in AP'. cbn [fst snd] in AP'. lia. }
  repeat split; try lia.
  - destruct A as [[p F1] H1]. reflexivity.
  - unfold apart. cbn [fst snd]. lia.
  - destruct RH as [Z|RH]; [lia|].
    destruct RH as [RH|RH]; [left; exact RH|right; exact RH].
  - intros i Li. cbn [bytes]. unfold memcpy.
    replace ((fst (fst A) <=? fst (fst A) + i)
             && (fst (fst A) + i <? fst (fst A) + Capacity * sizeof T))
      with true.
    + replace (fst (fst A) + i - fst (fst A)) with i by lia.
      destruct Old as [(-> & ->)|HO]; [lia|].
      apply (BY (Objects, Capacity * sizeof T)); [exact HO|].
      cbn [fst snd]. lia.
    + symmetry. apply andb_true_iff. split;
        [apply N.leb_le|apply N.ltb_lt]; lia.
Qed.

End ReallocateFacts.

Section ArenaClaims.

Lemma ascending_apart (regions : list (N * N)) :
  ascending regions -> ForallOrdPairs apart regions.
Proof.
  unfold ascending. induction 1 as [|r rest Hr _ IH]; constructor.
  - eapply Forall_impl; [|exact Hr]. intros r' L. left. exact L.
  - exact IH.
Qed.

Lemma run_app (ops1 ops2 : list Op) (s : t * Heap) :
  run (ops1 ++ ops2) s = run ops2 (run ops1 s).
Proof. unfold run. apply fold_left_app. Qed.

Lemma run_in_range_app (ops1 ops2 : list Op) :
  forall s, run_in_range (ops1 ++ ops2) s ->
            run_in_range ops2 (run ops1 s).
Proof.
  induction ops1 as [|o ops1 IH]; intros s R; [exact R|].
  destruct R as [_ R]. exact (IH _ R).
Qed.

(** C2, with the proviso that no size computation wraps around.  A
    sequence of [Allocate] calls whose total aligned size fits in the
    current slab returns regions that are pairwise disjoint and ordered
    by increasing address (and takes no block from the heap); so does a
    sequence whose first call takes the slab and whose total aligned
    size fits in that slab.  A request that does not fit, made under
    [Allocate_pre] (object size and bump
    within 64 bits, the slab asked from [malloc] in range, fresh and
    aligned), takes a new slab whose capacity is
    [max (2 * SlabSize, ObjectSize)], the region returned being the
    start of its payload.  Along a run of such calls the bytes of every
    region returned earlier are the same before and after a later call,
    also when that call takes a new slab. *)
Theorem Allocate_regions_disjoint_and_stable :
  (forall reqs F H,
      Forall (fun r => valid_type (req_type r)) reqs ->
      End F < 2 ^ 64 ->
      frontier_after (CurPtr F) reqs <= End F ->
      let regions := fst (fst (AllocateAll reqs F H)) in
      ascending regions /\ ForallOrdPairs apart regions
      /\ snd (AllocateAll reqs F H) = H)
  /\ (forall r reqs F H,
         Allocate_pre (req_type r) (req_count r) (req_slab r) F H ->
         does_not_fit (req_type r) (req_count r) F ->
         Forall (fun r' => valid_type (req_type r')) reqs ->
         frontier_after (req_slab r + sizeof_Slab
                         + req_count r * sizeof (req_type r)) reqs
         <= req_slab r + sizeof_Slab
            + N.max (SlabSize F * 2) (req_count r * sizeof (req_type r)) ->
         let regions := fst (fst (AllocateAll (r :: reqs) F H)) in
         ascending regions /\ ForallOrdPairs apart regions)
  /\ (forall T n newSlab F H,
         Allocate_pre T n newSlab F H -> does_not_fit T n F ->
         let A := Allocate T n newSlab F H in
         SlabSize (snd (fst A)) = N.max (2 * SlabSize F) (n * sizeof T)
         /\ fst (fst A) = newSlab + sizeof_Slab
         /\ End (snd (fst A)) = fst (fst A) + SlabSize (snd (fst A))
         /\ blocks (snd A)
            = (newSlab, sizeof_Slab + SlabSize (snd (fst A))) :: blocks H)
  /\ (forall reqs T n newSlab F H,
         wf F H -> AllocateAll_pre reqs F H ->
         let S1 := AllocateAll reqs F H in
         Allocate_pre T n newSlab (snd (fst S1)) (snd S1) ->
         forall r a,
           In r (fst (fst S1)) -> fst r <= a < fst r + snd r ->
           bytes (snd (Allocate T n newSlab (snd (fst S1)) (snd S1))) a
           = bytes (snd S1) a).
Proof.
  split; [|split; [|split]].
  - intros reqs F H V EL Fit regions.
    destruct (AllocateAll_fits reqs V F H EL Fit) as (Asc & _ & EH & _).
    split; [exact Asc|]. split; [apply ascending_apart, Asc|exact EH].
  - intros r reqs F H P NF V Fit regions.
    apply (needs_slab_exact _ _ _ _ _ P) in NF.
    pose proof (AllocateAll_in_new_slab r reqs F H P NF V Fit) as Asc.
    split; [exact Asc|apply ascending_apart, Asc].
  - intros T n newSlab F H P NS A.
    apply (needs_slab_exact _ _ _ _ _ P) in NS.
    destruct (Allocate_exact _ _ _ _ _ P) as (_ & _ & EQ & _).
    cbv zeta in EQ. rewrite NS in EQ. subst A. rewrite EQ.
    cbn [fst snd SlabSize End blocks].
    rewrite (N.mul_comm 2). repeat split; lia.
  - intros reqs T n newSlab F H W PS S1 P r a I A.
    destruct (AllocateAll_wf reqs F H W PS) as (W1 & _ & HO).
    fold S1 in W1, HO. rewrite Forall_forall in HO.
    destruct (HO r I) as [Z|HR]; [lia|].
    exact (Allocate_bytes_handed_out _ _ _ _ _ r a W1 P HR A).
Qed.

(** C3, with the proviso that no size computation wraps around.
    [Reallocate] on an array that ends at the frontier, in a slab with
    room for [MinGrowth] more elements, keeps the address and the heap
    and adds exactly [MinGrowth] to the capacity.  Otherwise, for an
    array that is null and empty or was handed out by the factory and a
    new allocation within range ([Reallocate_pre]), it allocates
    [Capacity + Growth] elements, where the growth is at least
    [MinGrowth], at least 4 and at least the old capacity; the array
    moves to that region, which is at another address and apart from the
    old one, and the old elements' bytes are found there unchanged. *)
Theorem Reallocate_in_place_or_moved :
  (forall T Objects Capacity MinGrowth newSlab F H,
      0 < sizeof T -> End F < 2 ^ 64 ->
      Objects + Capacity * sizeof T = CurPtr F ->
      CurPtr F + MinGrowth * sizeof T <= End F ->
      Reallocate T Objects Capacity MinGrowth newSlab F H
      = (Objects, Capacity + MinGrowth,
         {| CurPtr := CurPtr F + MinGrowth * sizeof T; End := End F;
            CurrentSlab := CurrentSlab F; SlabSize := SlabSize F |},
         H))
  /\ (forall T Objects Capacity MinGrowth newSlab F H,
         wf F H ->
         Reallocate_pre T Objects Capacity MinGrowth newSlab F H ->
         ~ (Objects + Capacity * sizeof T = CurPtr F
            /\ CurPtr F + MinGrowth * sizeof T <= End F) ->
         let G := Growth Capacity MinGrowth in
         let R := Reallocate T Objects Capacity MinGrowth newSlab F H in
         let Objects' := fst (fst (fst R)) in
         let F' := snd (fst R) in
         let H' := snd R in
         MinGrowth <= G /\ 4 <= G /\ Capacity <= G
         /\ snd (fst (fst R)) = Capacity + G
         /\ fst (Allocate T (Capacity + G) newSlab F H) = (Objects', F')
         /\ Objects' <> Objects
         /\ apart (Objects', (Capacity + G) * sizeof T)
                  (Objects, Capacity * sizeof T)
         /\ handed_out F' H' (Objects', (Capacity + G) * sizeof T)
         /\ (forall i, i < Capacity * sizeof T ->
                       bytes H' (Objects' + i) = bytes H (Objects + i))).
Proof.
  split.
  - exact Reallocate_in_place.
  - exact Reallocate_moves.
Qed.

(** C4, with the proviso that the slab requests are in range.
    [SlabSize] never decreases along a run of [Allocate], [Reallocate]
    and [clear] calls in which every slab asked from [malloc] is in
    range (neither [SlabSize * 2] nor the end of the slab wraps
    around): it is the same or larger after any further operations.  A
    call of [Allocate] that takes such a slab sets it to
    [max (2 * SlabSize, ObjectSize)], one that takes none leaves it, and
    [clear] leaves it. *)
Theorem SlabSize_never_decreases :
  (forall ops1 ops2 s,
      run_in_range (ops1 ++ ops2) s ->
      SlabSize (fst (run ops1 s)) <= SlabSize (fst (run (ops1 ++ ops2) s)))
  /\ (forall T n newSlab F H,
         (needs_slab T n F = true ->
          slab_in_range F (wrap (n * sizeof T)) newSlab) ->
         SlabSize (snd (fst (Allocate T n newSlab F H)))
         = if needs_slab T n F
           then N.max (2 * SlabSize F) (wrap (n * sizeof T))
           else SlabSize F)
  /\ (forall F H, SlabSize (fst (clear F H)) = SlabSize F).
Proof.
  split; [|split].
  - intros ops1 ops2 s R. rewrite run_app.
    apply run_SlabSize, run_in_range_app, R.
  - exact Allocate_SlabSize.
  - intros F H. unfold clear. destruct (CurrentSlab F =? 0); reflexivity.
Qed.

(** C5, with the proviso that the slab request is in range.  After
    every call of [Allocate] and of [Reallocate], from any state and
    for all object sizes and growth amounts, [CurPtr <= End], provided
    the slab the call asks for, if it asks for one, is in range (neither
    [SlabSize * 2] nor the end of the slab wraps around). *)
Theorem CurPtr_le_End_after_call (o : Op) (F : t) (H : Heap) :
  o <> OpClear -> request_in_range o F ->
  CurPtr (fst (step o (F, H))) <= End (fst (step o (F, H))).
Proof.
  intros NC. unfold request_in_range, op_request.
  destruct o as [T n p|T Ob Ca Mg p|]; [| |congruence]; cbn [step fst snd].
  - intros R. pose proof (Allocate_frontier T n p F H) as L.
    destruct (Allocate T n p F H) as [[q F'] H']. cbn [fst snd] in *.
    apply L. intros E. rewrite E in R. exact R.
  - intros R. rewrite Reallocate_unfold.
    destruct (grows_in_place T Ob Ca Mg F) eqn:G; cbn [fst snd CurPtr End].
    + unfold grows_in_place in G. apply andb_true_iff in G as [_ G].
      apply N.leb_le in G. exact G.
    + cbv zeta. cbn [fst snd]. apply Allocate_frontier.
      intros E. rewrite E in R. exact R.
Qed.

End ArenaClaims.

Section ArenaExamples.

Lemma valid_T_ptr : valid_type T_ptr.
Proof. split; [reflexivity|]. exists 3. split; [lia|reflexivity]. Qed.

Lemma valid_T_char : valid_type T_char.
Proof. split; [reflexivity|]. exists 0. split; [lia|reflexivity]. Qed.

Example sample_requests_regions :
  fst (fst (AllocateAll sample_requests sample_slab sample_slab_heap))
  = [(4104, 24); (4128, 5); (4136, 16)].
Proof. vm_compute. reflexivity. Qed.

Example first_Allocate_takes_slab :
  fst (Allocate T_ptr 3 4096 sample_factory sample_heap)
  = (4104, {| CurPtr := 4128; End := 12104;
              CurrentSlab := 4096; SlabSize := 8000 |}).
Proof. vm_compute. reflexivity. Qed.

Lemma CurPtr_le_End_after_call_witness :
  CurPtr (fst (step (OpAllocate T_ptr 3 4096) (sample_factory, sample_heap)))
  <= End (fst (step (OpAllocate T_ptr 3 4096) (sample_factory, sample_heap))).
Proof.
  apply (CurPtr_le_End_after_call (OpAllocate T_ptr 3 4096)).
  - discriminate.
  - vm_compute. reflexivity.
Defined.

Lemma wf_sample_after_array : wf sample_after_array sample_slab_heap.
Proof.
  split.
  - cbn. repeat split; try constructor; lia.
  - right. exists []. by_computation.
Qed.

Lemma Allocate_regions_disjoint_and_stable_witness :
  (let regions :=
     fst (fst (AllocateAll sample_requests sample_slab sample_slab_heap)) in
   ascending regions /\ ForallOrdPairs apart regions
   /\ snd (AllocateAll sample_requests sample_slab sample_slab_heap)
      = sample_slab_heap)
  /\ (let regions :=
        fst (fst (AllocateAll (mkRequest T_ptr 3 4096 :: sample_requests)
                              sample_factory sample_heap)) in
      ascending regions /\ ForallOrdPairs apart regions)
  /\ (let A := Allocate T_ptr 3 4096 sample_factory sample_heap in
      SlabSize (snd (fst A)) = N.max (2 * SlabSize sample_factory) (3 * 8)
      /\ fst (fst A) = 4096 + sizeof_Slab
      /\ End (snd (fst A)) = fst (fst A) + SlabSize (snd (fst A))
      /\ blocks (snd A)
         = (4096, sizeof_Slab + SlabSize (snd (fst A))) :: [])
  /\ (let S1 := AllocateAll [mkRequest T_ptr 3 0; mkRequest T_char 5 0]
                            sample_slab sample_slab_heap in
      forall r a,
        In r (fst (fst S1)) -> fst r <= a < fst r + snd r ->
        bytes (snd (Allocate T_ptr 2000 65536 (snd (fst S1)) (snd S1))) a
        = bytes (snd S1) a).
Proof.
  destruct Allocate_regions_disjoint_and_stable as (P1 & P1' & P2 & P3).
  assert (V : Forall (fun r => valid_type (req_type r)) sample_requests).
  { repeat constructor; try (exists 3; split; [lia|reflexivity]);
      exists 0; split; [lia|reflexivity]. }
  split; [|split; [|split]].
  - apply (P1 sample_requests sample_slab sample_slab_heap).
    + exact V.
    + reflexivity.
    + by_computation.
  - apply (P1' (mkRequest T_ptr 3 4096) sample_requests
               sample_factory sample_heap).
    + split; [exact valid_T_ptr|]. split; [by_computation|].
      intros _. repeat split; try constructor; by_computation.
    + by_computation.
    + exact V.
    + by_computation.
  - apply (P2 T_ptr 3 4096 sample_factory sample_heap).
    + split; [exact valid_T_ptr|]. split; [by_computation|].
      intros _. repeat split; try constructor; by_computation.
    + by_computation.
  - intros S1 r a Hin A. subst S1.
    pose proof (P3 [mkRequest T_ptr 3 0; mkRequest T_char 5 0] T_ptr 2000
                   65536 sample_slab sample_slab_heap) as Q.
    cbv zeta in Q.
    assert (W : wf sample_slab sample_slab_heap).
    { split; [cbn; repeat split; try constructor; lia|].
      right. exists []. by_computation. }
    assert (PS : AllocateAll_pre [mkRequest T_ptr 3 0; mkRequest T_char 5 0]
                                 sample_slab sample_slab_heap).
    { split; [|split; [|exact I]].
      - split; [exact valid_T_ptr|]. split; [by_computation|].
        intros E; vm_compute in E; discriminate E.
      - split; [exact valid_T_char|]. split; [by_computation|].
        intros E; vm_compute in E; discriminate E. }
    specialize (Q W PS).
    assert (P : Allocate_pre T_ptr 2000 65536
                  (snd (fst (AllocateAll
                               [mkRequest T_ptr 3 0; mkRequest T_char 5 0]
                               sample_slab sample_slab_heap)))
                  (snd (AllocateAll
                          [mkRequest T_ptr 3 0; mkRequest T_char 5 0]
                          sample_slab sample_slab_heap))).
    { split; [exact valid_T_ptr|]. split; [by_computation|].
      intros _. split; [by_computation|]. split; [reflexivity|].
      split; [reflexivity|]. constructor; [|constructor].
      right. by_computation. }
    exact (Q P r a Hin A).
Defined.

Example later_Allocate_takes_slab :
  let S1 := AllocateAll [mkRequest T_ptr 3 0; mkRequest T_char 5 0]
                        sample_slab sample_slab_heap in
  needs_slab T_ptr 2000 (snd (fst S1)) = true
  /\ fst (fst (Allocate T_ptr 2000 65536 (snd (fst S1)) (snd S1))) = 65544.
Proof. by_computation. Qed.

Lemma Reallocate_in_place_or_moved_witness :
  Reallocate T_ptr 4104 3 1 0 sample_after_array sample_slab_heap
  = (4104, 3 + 1,
     {| CurPtr := 4128 + 1 * 8; End := 12104;
        CurrentSlab := 4096; SlabSize := 8000 |},
     sample_slab_heap)
  /\ (let G := Growth 2 1 in
      let R := Reallocate T_ptr 4104 2 1 0 sample_after_array
                          sample_slab_heap in
      let Objects' := fst (fst (fst R)) in
      1 <= G /\ 4 <= G /\ 2 <= G
      /\ snd (fst (fst R)) = 2 + G
      /\ fst (Allocate T_ptr (2 + G) 0 sample_after_array sample_slab_heap)
         = (Objects', snd (fst R))
      /\ Objects' <> 4104
      /\ apart (Objects', (2 + G) * 8) (4104, 2 * 8)
      /\ handed_out (snd (fst R)) (snd R) (Objects', (2 + G) * 8)
      /\ (forall i, i < 2 * 8 ->
                    bytes (snd R) (Objects' + i)
                    = bytes sample_slab_heap (4104 + i))).
Proof.
  destruct Reallocate_in_place_or_moved as (P1 & P2).
  split.
  - apply (P1 T_ptr 4104 3 1 0 sample_after_array sample_slab_heap);
      by_computation.
  - apply (P2 T_ptr 4104 2 1 0 sample_after_array sample_slab_heap).
    + exact wf_sample_after_array.
    + split.
      * right. left. by_computation.
      * split; [exact valid_T_ptr|]. split; [by_computation|].
        intros E; vm_compute in E; discriminate E.
    + intros [E _]. vm_compute in E. discriminate E.
Defined.

Example Reallocate_moved_array :
  fst (fst (Reallocate T_ptr 4104 2 1 0 sample_after_array sample_slab_heap))
  = (4128, 6).
Proof. reflexivity. Qed.

Lemma SlabSize_never_decreases_witness :
  (let ops1 := [OpAllocate T_ptr 3 4096] in
   let ops2 := [OpClear; OpReallocate T_ptr 4104 3 1 0;
                OpAllocate T_char 9000 65536] in
   SlabSize (fst (run ops1 (sample_factory, sample_heap)))
   <= SlabSize (fst (run (ops1 ++ ops2) (sample_factory, sample_heap))))
  /\ SlabSize (snd (fst (Allocate T_ptr 3 4096 sample_factory sample_heap)))
     = N.max (2 * SlabSize sample_factory) (wrap (3 * 8)).
Proof.
  destruct SlabSize_never_decreases as (P1 & P2 & _).
  split.
  - intros ops1 ops2. apply (P1 ops1 ops2). by_computation.
  - apply (P2 T_ptr 3 4096 sample_factory sample_heap).
    intros _. by_computation.
Defined.

(** C2 does not hold when the bump wraps around: in a slab of 8000
    bytes a request for [2 ^ 64 - 8] characters does not fit, yet
    [Allocate] takes no new slab; it hands out the frontier and moves
    it 8 bytes back. *)
Lemma Allocate_wrapped_request_takes_no_slab :
  does_not_fit T_char (2 ^ 64 - 8) sample_slab
  /\ Allocate T_char (2 ^ 64 - 8) 65536 sample_slab sample_slab_heap
     = (4104,
        {| CurPtr := 4096; End := 12104;
           CurrentSlab := 4096; SlabSize := 8000 |},
        sample_slab_heap)
  /\ SlabSize (snd (fst (Allocate T_char (2 ^ 64 - 8) 65536 sample_slab
                                  sample_slab_heap)))
     <> N.max (2 * SlabSize sample_slab) ((2 ^ 64 - 8) * sizeof T_char).
Proof. by_computation. Qed.

(** C3 does not hold when [MinGrowth * sizeof(T)] wraps around: the
    array of three pointers ends at the frontier and the slab has no
    room for [2 ^ 61] more, yet [Reallocate] takes the in-place branch:
    same address, no allocation, frontier where it was. *)
Lemma Reallocate_wrapped_growth_stays_in_place :
  ~ (CurPtr sample_after_array + 2 ^ 61 * sizeof T_ptr
     <= End sample_after_array)
  /\ Reallocate T_ptr 4104 3 (2 ^ 61) 65536 sample_after_array
                sample_slab_heap
     = (4104, 3 + 2 ^ 61, sample_after_array, sample_slab_heap).
Proof.
  split; [intros L; vm_compute in L; apply L; reflexivity|reflexivity].
Qed.

(** C4 does not hold when the slab size wraps around: after a request
    for [2 ^ 64 - 4] characters, for which [sizeof(Slab) + SlabSize]
    wraps to 4, the next slab allocation doubles [SlabSize] to
    [2 ^ 64 - 8], which is less. *)
Lemma SlabSize_wraps_down :
  let s1 := run [OpAllocate T_char (2 ^ 64 - 4) 4096]
                (sample_factory, sample_heap) in
  let s2 := run [OpAllocate T_char (2 ^ 64 - 4) 4096;
                 OpAllocate T_char 1 8192]
                (sample_factory, sample_heap) in
  SlabSize (fst s1) = 2 ^ 64 - 4
  /\ SlabSize (fst s2) = 2 ^ 64 - 8
  /\ SlabSize (fst s2) < SlabSize (fst s1).
Proof. by_computation. Qed.

(** C5 does not hold when the end of the slab wraps around: after the
    same two calls the slab at 8192 has [End = 8192] and
    [CurPtr = 8201]. *)
Lemma CurPtr_past_End_after_wrap :
  let s2 := run [OpAllocate T_char (2 ^ 64 - 4) 4096;
                 OpAllocate T_char 1 8192]
                (sample_factory, sample_heap) in
  CurPtr (fst s2) = 8201 /\ End (fst s2) = 8192
  /\ End (fst s2) < CurPtr (fst s2).
Proof. by_computation. Qed.

Example SlabSize_along_run :
  map (fun ops => SlabSize (fst (run ops (sample_factory, sample_heap))))
      [[]; [OpAllocate T_ptr 3 4096];
       [OpAllocate T_ptr 3 4096; OpClear];
       [OpAllocate T_ptr 3 4096; OpClear; OpAllocate T_char 9000 65536]]
  = [4000; 8000; 8000; 16000].
Proof. reflexivity. Qed.

End ArenaExamples.

(** * Properties of the demangler primitives *)

Section StringFacts.

Lemma prefix_app (p s : string) :
  String.prefix p s = true <-> exists rest, s = (p ++ rest)%string.
Proof.
  revert s. induction p as [|c p IH]; intros s.
  - split; [intros _; exists s; reflexivity|].
    intros _. destruct s; reflexivity.
  - destruct s as [|c' s]; simpl.
    + split; [discriminate|intros (rest & E); discriminate E].
    + destruct (ascii_dec c c') as [->|NE].
      * rewrite IH. split; intros (rest & E); exists rest; congruence.
      * split; [discriminate|intros (rest & E); congruence].
Qed.

Lemma length_drop (n : nat) :
  forall s, String.length (StringRef.drop n s) = (String.length s - n)%nat.
Proof.
  induction n as [|n IH]; intros [|c s]; cbn [StringRef.drop String.length];
    try reflexivity; try lia.
  apply IH.
Qed.

Lemma length_append (s1 s2 : string) :
  String.length (s1 ++ s2) = (String.length s1 + String.length s2)%nat.
Proof.
  induction s1 as [|c s1 IH]; cbn [String.append String.length];
    [reflexivity|]. rewrite IH. reflexivity.
Qed.

(** Below the size, the text at position [n] starts with the character
    at index [n]. *)
Lemma drop_get (n : nat) :
  forall s, (n < String.length s)%nat ->
            exists c rest, StringRef.drop n s = String c rest
                           /\ String.get n s = Some c.
Proof.
  induction n as [|n IH]; intros [|c s] L; cbn [String.length] in L;
    try lia; cbn [StringRef.drop String.get].
  - exists c, s. split; reflexivity.
  - apply IH. lia.
Qed.

Lemma drop_all (n : nat) :
  forall s, (String.length s <= n)%nat -> StringRef.drop n s = EmptyString.
Proof.
  intros s L. pose proof (length_drop n s) as E.
  destruct (StringRef.drop n s); [reflexivity|cbn [String.length] in E; lia].
Qed.

End StringFacts.


Section CursorFacts.

Context {Node : Type}.
Implicit Types d : Demangler.state (Node := Node).

Lemma substr_inside d :
  Demangler.Pos d < StringRef.size (Demangler.Text d) ->
  exists c rest,
    StringRef.substr (Demangler.Text d) (Demangler.Pos d) = String c rest
    /\ StringRef.get (Demangler.Text d) (Demangler.Pos d) = c.
Proof.
  unfold StringRef.substr, StringRef.size, StringRef.get. intros L.
  rewrite N.min_l by lia.
  destruct (drop_get (N.to_nat (Demangler.Pos d)) (Demangler.Text d)
                     ltac:(lia)) as (c & rest & E1 & E2).
  exists c, rest. rewrite E1, E2. split; reflexivity.
Qed.

Lemma substr_outside d :
  StringRef.size (Demangler.Text d) <= Demangler.Pos d ->
  StringRef.substr (Demangler.Text d) (Demangler.Pos d) = EmptyString.
Proof.
  unfold StringRef.substr, StringRef.size. intros L.
  rewrite N.min_r by lia. apply drop_all. lia.
Qed.

(** A literal found at the cursor ends inside the text, or is empty. *)
Lemma input_starts_with_bound d (str : string) :
  Demangler.input_starts_with d str ->
  Demangler.Pos d + StringRef.size str
  <= N.max (Demangler.Pos d) (StringRef.size (Demangler.Text d)).
Proof.
  intros (rest & E). apply (f_equal String.length) in E.
  rewrite length_append in E. unfold StringRef.substr in E.
  rewrite length_drop in E. unfold StringRef.size in *. lia.
Qed.

Lemma nextIf_spec d (str : string) :
  Demangler.Pos d < 2 ^ 64 ->
  StringRef.size (Demangler.Text d) < 2 ^ 64 ->
  (Demangler.input_starts_with d str ->
   Demangler.nextIf str d
   = (true, Demangler.set_Pos d (Demangler.Pos d + StringRef.size str)))
  /\ (~ Demangler.input_starts_with d str ->
      Demangler.nextIf str d = (false, d)).
Proof.
  intros LP LS. unfold Demangler.nextIf, StringRef.startswith.
  destruct (String.prefix str _) eqn:E; cbn [negb].
  - apply prefix_app in E. split; [intros _|intros NI; destruct (NI E)].
    pose proof (input_starts_with_bound d str E).
    rewrite wrap_small by lia. reflexivity.
  - split; [|reflexivity]. intros I.
    apply prefix_app in I. congruence.
Qed.

Lemma input_starts_with_char d (c : ascii) :
  Demangler.input_starts_with d (String c EmptyString)
  <-> Demangler.Pos d < StringRef.size (Demangler.Text d)
      /\ StringRef.get (Demangler.Text d) (Demangler.Pos d) = c.
Proof.
  unfold Demangler.input_starts_with. cbn [String.append].
  destruct (N.lt_ge_cases (Demangler.Pos d)
                          (StringRef.size (Demangler.Text d))) as [L|G].
  - destruct (substr_inside d L) as (c' & rest & E1 & E2). rewrite E1, E2.
    split.
    + intros (r & E). split; [exact L|congruence].
    + intros (_ & ->). exists rest. reflexivity.
  - rewrite (substr_outside d G). split.
    + intros (r & E). discriminate E.
    + intros (L & _). lia.
Qed.

Lemma nextIf_char_spec d (c : ascii) :
  StringRef.size (Demangler.Text d) < 2 ^ 64 ->
  c <> Ascii.zero \/ Demangler.Pos d < StringRef.size (Demangler.Text d) ->
  (Demangler.input_starts_with d (String c EmptyString) ->
   Demangler.nextIf_char c d
   = (true, Demangler.set_Pos d (Demangler.Pos d + 1)))
  /\ (~ Demangler.input_starts_with d (String c EmptyString) ->
      Demangler.nextIf_char c d = (false, d)).
Proof.
  intros LS Inside. rewrite input_starts_with_char.
  unfold Demangler.nextIf_char, Demangler.peekChar.
  destruct (StringRef.size (Demangler.Text d) <=? Demangler.Pos d) eqn:E.
  - apply N.leb_le in E.
    destruct Inside as [NZ|L]; [|lia].
    replace (Ascii.eqb Ascii.zero c) with false
      by (symmetry; apply Ascii.eqb_neq; congruence).
    split; [intros (L & _); lia|reflexivity].
  - apply N.leb_gt in E.
    destruct (Ascii.eqb _ c) eqn:Q; cbn [negb].
    + apply Ascii.eqb_eq in Q. split; [intros _|tauto].
      rewrite wrap_small by lia. reflexivity.
    + apply Ascii.eqb_neq in Q. split; [tauto|reflexivity].
Qed.

Lemma nextChar_inside d :
  Demangler.Pos d <= StringRef.size (Demangler.Text d) ->
  Demangler.Text (snd (Demangler.nextChar d)) = Demangler.Text d
  /\ Demangler.Pos (snd (Demangler.nextChar d))
     <= StringRef.size (Demangler.Text d).
Proof.
  intros L. unfold Demangler.nextChar.
  destruct (_ <=? _) eqn:E; cbn [snd Demangler.set_Pos Demangler.Text
                                     Demangler.Pos].
  - split; [reflexivity|exact L].
  - apply N.leb_gt in E. split; [reflexivity|].
    pose proof (wrap_le (Demangler.Pos d + 1)). lia.
Qed.

Lemma nextChars_inside (n : nat) :
  forall d,
    Demangler.Pos d <= StringRef.size (Demangler.Text d) ->
    Demangler.Text (Demangler.nextChars n d) = Demangler.Text d
    /\ Demangler.Pos (Demangler.nextChars n d)
       <= StringRef.size (Demangler.Text d).
Proof.
  induction n as [|n IH]; intros d L; cbn [Demangler.nextChars].
  - split; [reflexivity|exact L].
  - destruct (nextChar_inside d L) as [ET LP].
    rewrite <- ET in LP. destruct (IH _ LP) as [ET' LP'].
    rewrite ET' , ET in *. split; [reflexivity|exact LP'].
Qed.

End CursorFacts.

Section CursorClaims.

Context {Node : Type}.
Implicit Types d : Demangler.state (Node := Node).

(** C7, with the single-character overload restricted.  When the text
    at [Pos] starts with [str], [nextIf(str)] returns true and advances
    [Pos] by exactly [str.size()]; otherwise it returns false and the
    demangler is unchanged.  [nextIf(c)] does the same with an advance
    of 1 for every character [c] other than NUL, and for NUL as well
    while [Pos] is inside the text. *)
Theorem nextIf_advances_only_on_match d :
  Demangler.Pos d < 2 ^ 64 ->
  StringRef.size (Demangler.Text d) < 2 ^ 64 ->
  (forall str,
      (Demangler.input_starts_with d str ->
       Demangler.nextIf str d
       = (true, Demangler.set_Pos d (Demangler.Pos d + StringRef.size str)))
      /\ (~ Demangler.input_starts_with d str ->
          Demangler.nextIf str d = (false, d)))
  /\ (forall c,
         c <> Ascii.zero
         \/ Demangler.Pos d < StringRef.size (Demangler.Text d) ->
         (Demangler.input_starts_with d (String c EmptyString) ->
          Demangler.nextIf_char c d
          = (true, Demangler.set_Pos d (Demangler.Pos d + 1)))
         /\ (~ Demangler.input_starts_with d (String c EmptyString) ->
             Demangler.nextIf_char c d = (false, d))).
Proof.
  intros LP LS. split.
  - intros str. apply nextIf_spec; assumption.
  - intros c Inside. apply nextIf_char_spec; assumption.
Qed.

(** C8.  [peekChar] and [nextChar] are total functions.  With [Pos] at
    or beyond the end of the text both return the sentinel 0 and
    [nextChar] leaves the demangler as it is; inside the text they
    return the character at [Pos].  Hence [Pos], once within the length
    of the text, stays within it under any number of [nextChar]
    calls. *)
Theorem peekChar_nextChar_sentinel d :
  (StringRef.size (Demangler.Text d) <= Demangler.Pos d ->
   Demangler.peekChar d = Ascii.zero
   /\ Demangler.nextChar d = (Ascii.zero, d))
  /\ (Demangler.Pos d < StringRef.size (Demangler.Text d) ->
      Demangler.peekChar d = StringRef.get (Demangler.Text d) (Demangler.Pos d)
      /\ Demangler.nextChar d
         = (StringRef.get (Demangler.Text d) (Demangler.Pos d),
            Demangler.set_Pos d (wrap (Demangler.Pos d + 1))))
  /\ (Demangler.Pos d <= StringRef.size (Demangler.Text d) ->
      forall n,
        Demangler.Text (Demangler.nextChars n d) = Demangler.Text d
        /\ Demangler.Pos (Demangler.nextChars n d)
           <= StringRef.size (Demangler.Text d)).
Proof.
  unfold Demangler.peekChar, Demangler.nextChar. split; [|split].
  - intros L. apply N.leb_le in L. rewrite L. split; reflexivity.
  - intros L. apply N.leb_gt in L. rewrite L. split; reflexivity.
  - intros L n. apply nextChars_inside, L.
Qed.

End CursorClaims.

Section StackClaims.

Context {Kind Node : Type}.
Variable Kind_eq_dec : forall a b : Kind, {a = b} + {a <> b}.
Variable getKind : Node -> Kind.
Implicit Types d : Demangler.state (Node := Node).

(** The back of a vector and the vector without it. *)
Lemma back_of_snoc {A : Type} (rest : list A) (e : A) :
  match rest ++ [e] with
  | [] => False
  | e0 :: s => last s e0 = e /\ removelast (e0 :: s) = rest
  end.
Proof.
  destruct rest as [|a r]; cbn [app].
  - split; reflexivity.
  - split.
    + apply last_last.
    + change (a :: r ++ [e]) with ((a :: r) ++ [e]). apply removelast_last.
Qed.

Lemma popNode_snoc d (rest : list Demangler.NodeWithPos)
      (e : Demangler.NodeWithPos) :
  Demangler.NodeStack d = rest ++ [e] ->
  Demangler.popNode d
  = (Demangler.NWP_Node e, Demangler.set_NodeStack d rest).
Proof.
  intros E. unfold Demangler.popNode. rewrite E.
  pose proof (back_of_snoc rest e) as B.
  destruct (rest ++ [e]) as [|e0 s]; [destruct B|].
  destruct B as [-> ->]. reflexivity.
Qed.

(** C6.  On an empty stack [popNode()], [popNode(kind)] and
    [popNode(pred)] return null and leave the demangler as it is.  On a
    stack whose top entry is [e], [popNode()] returns the node of [e]
    and removes only that entry.  When the top node is [nd],
    [popNode(kind)] and [popNode(pred)] do the same if the kind of [nd]
    passes the check, and return null with the demangler unchanged if it
    does not. *)
Theorem popNode_checks_top d :
  (Demangler.NodeStack d = [] ->
   Demangler.popNode d = (None, d)
   /\ (forall kind,
          Demangler.popNode_kind Kind_eq_dec getKind kind d = Some (None, d))
   /\ (forall pred,
          Demangler.popNode_pred getKind pred d = Some (None, d)))
  /\ (forall rest e,
         Demangler.NodeStack d = rest ++ [e] ->
         Demangler.popNode d
         = (Demangler.NWP_Node e, Demangler.set_NodeStack d rest))
  /\ (forall rest nd p,
         Demangler.NodeStack d
         = rest ++ [Demangler.mkNodeWithPos (Some nd) p] ->
         (forall kind,
             Demangler.popNode_kind Kind_eq_dec getKind kind d
             = if Kind_eq_dec (getKind nd) kind
               then Some (Some nd, Demangler.set_NodeStack d rest)
               else Some (None, d))
         /\ (forall pred,
                Demangler.popNode_pred getKind pred d
                = if pred (getKind nd)
                  then Some (Some nd, Demangler.set_NodeStack d rest)
                  else Some (None, d))).
Proof.
  split; [|split].
  - intros E. unfold Demangler.popNode, Demangler.popNode_kind,
      Demangler.popNode_pred. rewrite E. repeat split.
  - intros rest e E. apply popNode_snoc, E.
  - intros rest nd p E.
    pose proof (popNode_snoc d rest _ E) as PN.
    unfold Demangler.popNode_kind, Demangler.popNode_pred.
    rewrite PN. rewrite E.
    pose proof (back_of_snoc rest (Demangler.mkNodeWithPos (Some nd) p)) as B.
    destruct (rest ++ [_]) as [|e0 s]; [destruct B|].
    destruct B as [-> _]. cbn [Demangler.NWP_Node]. split.
    + intros kind. destruct (Kind_eq_dec (getKind nd) kind); reflexivity.
    + intros pred. destruct (pred (getKind nd)); reflexivity.
Qed.

Lemma step_Substitutions (o : Demangler.Primitive) d d' :
  Demangler.exec Kind_eq_dec getKind o d = Some d' ->
  Demangler.Substitutions d' = Demangler.Substitutions d
  \/ exists nd, o = Demangler.OpAddSubstitution (Some nd)
                /\ Demangler.Substitutions d'
                   = Demangler.Substitutions d ++ [Some nd].
Proof.
  destruct o; cbn [Demangler.exec]; intros E;
    try (injection E as <-).
  - left. unfold Demangler.nextIf. destruct (negb _); reflexivity.
  - left. unfold Demangler.nextIf_char. destruct (negb _); reflexivity.
  - left. reflexivity.
  - left. unfold Demangler.nextChar. destruct (_ <=? _); reflexivity.
  - left. reflexivity.
  - left. reflexivity.
  - left. unfold Demangler.popNode.
    destruct (Demangler.NodeStack d); reflexivity.
  - left. unfold Demangler.popNode_kind, Demangler.popNode in E.
    destruct (Demangler.NodeStack d) as [|e s];
      [injection E as <-; reflexivity|].
    destruct (Demangler.NWP_Node _); [|discriminate E].
    destruct (Kind_eq_dec _ _); injection E as <-; reflexivity.
  - left. unfold Demangler.popNode_pred, Demangler.popNode in E.
    destruct (Demangler.NodeStack d) as [|e s];
      [injection E as <-; reflexivity|].
    destruct (Demangler.NWP_Node _); [|discriminate E].
    destruct (negb _); injection E as <-; reflexivity.
  - destruct Nd as [nd|]; [right; exists nd; split; reflexivity|].
    left. reflexivity.
Qed.

Lemma step_Substitutions_ok (o : Demangler.Primitive) d d' :
  Demangler.Substitutions_ok d ->
  Demangler.exec Kind_eq_dec getKind o d = Some d' ->
  Demangler.Substitutions_ok d'.
Proof.
  unfold Demangler.Substitutions_ok. intros OK E.
  destruct (step_Substitutions o d d' E) as [->|(nd & _ & ->)];
    [exact OK|].
  apply Forall_app. split; [exact OK|].
  constructor; [discriminate|constructor].
Qed.

(** C10.  [addSubstitution(Nd)] appends [Nd] to the substitution list
    when [Nd] is not null and changes nothing when it is.  Every
    primitive of the demangler keeps the list free of null entries, so
    the list of a session that starts from a newly constructed demangler
    never holds one. *)
Theorem addSubstitution_keeps_list_null_free :
  (forall nd d,
      Demangler.addSubstitution (Some nd) d
      = Demangler.set_Substitutions d (Demangler.Substitutions d ++ [Some nd]))
  /\ (forall d, Demangler.addSubstitution None d = d)
  /\ (forall o d d',
         Demangler.Substitutions_ok d ->
         Demangler.exec Kind_eq_dec getKind o d = Some d' ->
         Demangler.Substitutions_ok d')
  /\ (forall ops sizeof_Node d',
         Demangler.exec_all Kind_eq_dec getKind ops
                            (Demangler.fresh sizeof_Node)
         = Some d' ->
         Demangler.Substitutions_ok d').
Proof.
  split; [reflexivity|]. split; [reflexivity|].
  split; [exact step_Substitutions_ok|].
  intros ops sizeof_Node.
  assert (G : forall d d',
             Demangler.Substitutions_ok d ->
             Demangler.exec_all Kind_eq_dec getKind ops d = Some d' ->
             Demangler.Substitutions_ok d').
  { induction ops as [|o ops IH]; intros d d' OK E;
      cbn [Demangler.exec_all] in E.
    - injection E as <-. exact OK.
    - destruct (Demangler.exec Kind_eq_dec getKind o d) as [d1|] eqn:S;
        [|discriminate E].
      exact (IH d1 d' (step_Substitutions_ok o d d1 OK S) E). }
  intros d'. apply G. constructor.
Qed.

End StackClaims.

Section WordClaims.

Context {Node : Type}.
Implicit Types d : Demangler.state (Node := Node).

Local Open Scope Z_scope.

Lemma length_array_set {A : Type} (v : list A) :
  forall i x, List.length (Demangler.array_set v i x) = List.length v.
Proof.
  induction v as [|y v IH]; intros [|i] x; cbn; try reflexivity.
  rewrite IH. reflexivity.
Qed.

Lemma nth_error_array_set_same {A : Type} (v : list A) :
  forall i x, (i < List.length v)%nat ->
              nth_error (Demangler.array_set v i x) i = Some x.
Proof.
  induction v as [|y v IH]; intros [|i] x L; cbn in *; try lia.
  - reflexivity.
  - apply IH. lia.
Qed.

Lemma nth_error_array_set_other {A : Type} (v : list A) :
  forall i j x, i <> j ->
                nth_error (Demangler.array_set v i x) j = nth_error v j.
Proof.
  induction v as [|y v IH]; intros [|i] [|j] x NE; cbn; try reflexivity.
  - congruence.
  - apply IH. congruence.
Qed.

Lemma lookupWord_in_range d (i : Z) :
  0 <= i < Demangler.NumWords d -> Demangler.NumWords d <= 26 ->
  Demangler.lookupWord i d = nth_error (Demangler.Words d) (Z.to_nat i).
Proof.
  intros R L. unfold Demangler.lookupWord, Demangler.MaxNumWords.
  replace (0 <=? i) with true by (symmetry; apply Z.leb_le; lia).
  replace (i <? Demangler.NumWords d) with true
    by (symmetry; apply Z.ltb_lt; lia).
  replace (i <? 26) with true by (symmetry; apply Z.ltb_lt; lia).
  reflexivity.
Qed.

Lemma lookupWord_out_of_range d (i : Z) :
  i < 0 \/ Demangler.NumWords d <= i \/ Demangler.MaxNumWords <= i ->
  Demangler.lookupWord i d = None.
Proof.
  intros R. unfold Demangler.lookupWord.
  destruct (0 <=? i) eqn:E1; [|reflexivity].
  destruct (i <? Demangler.NumWords d) eqn:E2; [|reflexivity].
  destruct (i <? Demangler.MaxNumWords) eqn:E3; [|reflexivity].
  apply Z.leb_le in E1. apply Z.ltb_lt in E2. apply Z.ltb_lt in E3. lia.
Qed.

Lemma recordWord_spec d (w : string) :
  Demangler.Words_ok d -> Demangler.NumWords d < 26 ->
  exists d',
    Demangler.recordWord w d = Some d'
    /\ Demangler.Words_ok d'
    /\ Demangler.NumWords d' = Demangler.NumWords d + 1
    /\ Demangler.lookupWord (Demangler.NumWords d) d' = Some w
    /\ (forall i, i < Demangler.NumWords d ->
                  Demangler.lookupWord i d' = Demangler.lookupWord i d).
Proof.
  intros ((L0 & L1) & LEN) Room.
  unfold Demangler.recordWord, Demangler.MaxNumWords in *.
  replace (Demangler.NumWords d <? 26) with true
    by (symmetry; apply Z.ltb_lt; lia).
  eexists. split; [reflexivity|].
  split; [|split; [reflexivity|split]].
  - unfold Demangler.Words_ok, Demangler.MaxNumWords.
    split; cbn [Demangler.NumWords Demangler.Words]; [lia|].
    rewrite length_array_set. exact LEN.
  - rewrite lookupWord_in_range by (cbn [Demangler.NumWords]; lia).
    cbn [Demangler.Words]. apply nth_error_array_set_same. lia.
  - intros i Li. destruct (Z.lt_ge_cases i 0) as [Neg|Pos].
    + rewrite !lookupWord_out_of_range by (left; exact Neg). reflexivity.
    + rewrite !lookupWord_in_range by (cbn [Demangler.NumWords]; lia).
      cbn [Demangler.Words]. apply nth_error_array_set_other. lia.
Qed.

Lemma recordWords_spec (ws : list string) :
  forall d,
    Demangler.Words_ok d ->
    (Demangler.NumWords d + Z.of_nat (List.length ws) <= 26 ->
     exists d',
       Demangler.recordWords ws d = Some d'
       /\ Demangler.Words_ok d'
       /\ Demangler.NumWords d'
          = Demangler.NumWords d + Z.of_nat (List.length ws)
       /\ (forall i, i < Demangler.NumWords d ->
                     Demangler.lookupWord i d' = Demangler.lookupWord i d)
       /\ (forall i w, nth_error ws i = Some w ->
                       Demangler.lookupWord
                         (Demangler.NumWords d + Z.of_nat i) d' = Some w))
    /\ (26 < Demangler.NumWords d + Z.of_nat (List.length ws) ->
        Demangler.recordWords ws d = None).
Proof.
  induction ws as [|w ws IH]; intros d OK; cbn [Demangler.recordWords].
  - split.
    + intros _. exists d. split; [reflexivity|]. split; [exact OK|].
      split; [cbn; lia|]. split; [reflexivity|].
      intros [|i] w E; discriminate E.
    + intros L. cbn [List.length] in L.
      destruct OK as ((_ & L1) & _). unfold Demangler.MaxNumWords in L1. lia.
  - cbn [List.length]. rewrite Nat2Z.inj_succ.
    destruct (Z.lt_ge_cases (Demangler.NumWords d) 26) as [Room|Full].
    + destruct (recordWord_spec d w OK Room)
        as (d1 & E1 & OK1 & N1 & Lk1 & Old1).
      rewrite E1. destruct (IH d1 OK1) as [Fit Over]. split.
      * intros L. destruct (Fit ltac:(lia))
          as (d' & E' & OK' & N' & Old' & New').
        exists d'. split; [exact E'|]. split; [exact OK'|].
        split; [lia|]. split.
        -- intros i Li. rewrite Old' by lia. apply Old1, Li.
        -- intros [|i] x E.
           ++ injection E as <-. rewrite Z.add_0_r.
              rewrite Old' by lia. exact Lk1.
           ++ cbn [nth_error] in E. specialize (New' i x E).
              rewrite <- New'. f_equal. lia.
      * intros L. apply Over. lia.
    + split; [intros L; lia|]. intros _.
      unfold Demangler.recordWord, Demangler.MaxNumWords.
      replace (Demangler.NumWords d <? 26) with false
        by (symmetry; apply Z.ltb_ge; lia).
      reflexivity.
Qed.

(** C9.  The word list never holds more than 26 words.  While there is
    room a recorded word becomes the entry at the old count and earlier
    entries stay; recording with 26 words present fails.  A word index
    resolves exactly when [0 <= i < NumWords]; an index, or a letter
    code, at or beyond the count or the capacity fails.  Hence recording
    up to 26 words in a new demangler makes the i-th of them the answer
    for index i, and recording a 27th fails. *)
Theorem word_list_holds_26 d :
  Demangler.Words_ok d ->
  Demangler.NumWords d <= 26
  /\ (forall w,
         (Demangler.NumWords d < 26 ->
          exists d',
            Demangler.recordWord w d = Some d'
            /\ Demangler.Words_ok d'
            /\ Demangler.NumWords d' = Demangler.NumWords d + 1
            /\ Demangler.lookupWord (Demangler.NumWords d) d' = Some w
            /\ (forall i, i < Demangler.NumWords d ->
                          Demangler.lookupWord i d'
                          = Demangler.lookupWord i d))
         /\ (Demangler.NumWords d = 26 -> Demangler.recordWord w d = None))
  /\ (forall i, 0 <= i < Demangler.NumWords d <->
                Demangler.lookupWord i d <> None)
  /\ (forall c,
         Demangler.NumWords d <= Z.of_N (N_of_ascii c) - 65
         \/ 26 <= Z.of_N (N_of_ascii c) - 65 ->
         Demangler.resolveWordCode c d = None)
  /\ (forall ws,
         (Demangler.NumWords d + Z.of_nat (List.length ws) <= 26 ->
          exists d',
            Demangler.recordWords ws d = Some d'
            /\ Demangler.NumWords d'
               = Demangler.NumWords d + Z.of_nat (List.length ws)
            /\ (forall i w, nth_error ws i = Some w ->
                            Demangler.lookupWord
                              (Demangler.NumWords d + Z.of_nat i) d'
                            = Some w))
         /\ (26 < Demangler.NumWords d + Z.of_nat (List.length ws) ->
             Demangler.recordWords ws d = None)).
Proof.
  intros OK. pose proof OK as ((L0 & L1) & LEN).
  unfold Demangler.MaxNumWords in L1, LEN.
  split; [exact L1|]. split; [|split; [|split]].
  - intros w. split; [apply recordWord_spec, OK|].
    intros Full. unfold Demangler.recordWord, Demangler.MaxNumWords.
    rewrite Full. reflexivity.
  - intros i. split.
    + intros R. rewrite lookupWord_in_range by lia.
      apply nth_error_Some. lia.
    + intros NN.
      destruct (Z.lt_ge_cases i 0) as [Neg|Pos];
        [rewrite lookupWord_out_of_range in NN by (left; exact Neg);
         congruence|].
      destruct (Z.lt_ge_cases i (Demangler.NumWords d)) as [In|Out];
        [lia|].
      rewrite lookupWord_out_of_range in NN by (right; left; exact Out).
      congruence.
  - intros c R. unfold Demangler.resolveWordCode.
    apply lookupWord_out_of_range. unfold Demangler.MaxNumWords.
    change (Z.of_N (N_of_ascii "A")) with 65. lia.
  - intros ws. destruct (recordWords_spec ws d OK) as [Fit Over].
    split; [|exact Over].
    intros L. destruct (Fit L) as (d' & E' & _ & N' & _ & New').
    exists d'. repeat split; assumption.
Qed.

End WordClaims.

Section EntryPointClaims.

Context {Node : Type}.
Implicit Types d : Demangler.state (Node := Node).

Variable demangleOperator :
  Demangler.state (Node := Node)
  -> Demangler.NodePointer (Node := Node) * Demangler.state (Node := Node).

(** Every production that succeeds consumes input and leaves the text
    alone. *)
Hypothesis demangleOperator_consumes :
  forall d nd d1,
    StringRef.size (Demangler.Text d) < 2 ^ 64 ->
    Demangler.Pos d < StringRef.size (Demangler.Text d) ->
    demangleOperator d = (Some nd, d1) ->
    Demangler.Text d1 = Demangler.Text d
    /\ Demangler.Pos d < Demangler.Pos d1.

Lemma parseAndPushNodes_parses (fuel : nat) :
  forall d ok d',
    Demangler.parseAndPushNodes demangleOperator fuel d = Some (ok, d') ->
    Demangler.parses demangleOperator d ok d'.
Proof.
  induction fuel as [|fuel IH]; intros d ok d' E;
    cbn [Demangler.parseAndPushNodes] in E; [discriminate E|].
  destruct (_ <=? _) eqn:L.
  - injection E as <- <-. apply Demangler.parses_done, N.leb_le, L.
  - apply N.leb_gt in L.
    destruct (demangleOperator d) as [[nd|] d1] eqn:O.
    + eapply Demangler.parses_push; [exact L|exact O|apply IH, E].
    + injection E as <- <-. apply Demangler.parses_null; assumption.
Qed.

Lemma parses_functional d ok1 d1 :
  Demangler.parses demangleOperator d ok1 d1 ->
  forall ok2 d2,
    Demangler.parses demangleOperator d ok2 d2 -> ok1 = ok2 /\ d1 = d2.
Proof.
  induction 1 as [d L|d d1 L O|d nd d1 ok d2 L O _ IH];
    intros ok2 d2' P2; inversion P2; subst; try lia; try congruence.
  - split; reflexivity.
  - split; congruence.
  - apply IH. congruence.
Qed.

Lemma parseAndPushNodes_terminates (fuel : nat) :
  forall d,
    StringRef.size (Demangler.Text d) < 2 ^ 64 ->
    (N.to_nat (StringRef.size (Demangler.Text d) - Demangler.Pos d)
     < fuel)%nat ->
    exists r, Demangler.parseAndPushNodes demangleOperator fuel d = Some r.
Proof.
  induction fuel as [|fuel IH]; intros d LS M; [lia|].
  cbn [Demangler.parseAndPushNodes].
  destruct (_ <=? _) eqn:L; [eexists; reflexivity|].
  apply N.leb_gt in L.
  destruct (demangleOperator d) as [[nd|] d1] eqn:O;
    [|eexists; reflexivity].
  destruct (demangleOperator_consumes d nd d1 LS L O) as [ET LP].
  apply IH; cbn [Demangler.pushNode Demangler.set_NodeStack Demangler.Text
                 Demangler.Pos]; rewrite ET; [exact LS|lia].
Qed.

Lemma topLevelResult_success (ok : bool) d (nd : Node) :
  fst (Demangler.topLevelResult (ok, d)) = Some nd <->
  ok = true
  /\ exists p, Demangler.NodeStack d = [Demangler.mkNodeWithPos (Some nd) p].
Proof.
  unfold Demangler.topLevelResult. cbn [fst snd].
  destruct ok; [|split; [discriminate|intros [E _]; discriminate E]].
  destruct (Demangler.NodeStack d) as [|[Nd p] [|e2 s]]; cbn [fst].
  - split; [discriminate|intros [_ (p & E)]; discriminate E].
  - cbn [Demangler.NWP_Node]. split.
    + intros ->. split; [reflexivity|]. exists p. reflexivity.
    + intros [_ (p' & E)]. congruence.
  - split; [discriminate|intros [_ (p' & E)]; discriminate E].
Qed.

Lemma topLevelResult_state (r : bool * Demangler.state (Node := Node)) :
  snd (Demangler.topLevelResult r) = snd r.
Proof.
  unfold Demangler.topLevelResult. destruct (fst r); [|reflexivity].
  destruct (Demangler.NodeStack (snd r)) as [|e [|e2 s]]; reflexivity.
Qed.

(** C1, on the entry points as the spec describes them.  For every text
    [demangleSymbol] and [demangleType] return: as many rounds of the
    top-level loop as the text has characters, plus one, are enough.
    Whatever they return is a node exactly when the loop ran to the end
    of the input with every production succeeding and left exactly one
    entry on the stack, which holds that node (for [demangleSymbol],
    after the prefix was found); in every other case the result is
    null. *)
Theorem demangle_all_or_nothing (MangledName : string) d :
  StringRef.size MangledName < 2 ^ 64 ->
  let d0 := Demangler.init MangledName d in
  let pre := Demangler.nextIf Demangler.MANGLING_PREFIX d0 in
  (exists r,
      Demangler.demangleSymbol demangleOperator
                               (S (String.length MangledName)) MangledName d
      = Some r)
  /\ (exists r,
         Demangler.demangleType demangleOperator
                                (S (String.length MangledName)) MangledName d
         = Some r)
  /\ (forall fuel r d',
         Demangler.demangleSymbol demangleOperator fuel MangledName d
         = Some (r, d') ->
         forall nd,
           r = Some nd <->
           fst pre = true
           /\ Demangler.parses demangleOperator (snd pre) true d'
           /\ exists p,
               Demangler.NodeStack d'
               = [Demangler.mkNodeWithPos (Some nd) p])
  /\ (forall fuel r d',
         Demangler.demangleType demangleOperator fuel MangledName d
         = Some (r, d') ->
         forall nd,
           r = Some nd <->
           Demangler.parses demangleOperator d0 true d'
           /\ exists p,
               Demangler.NodeStack d'
               = [Demangler.mkNodeWithPos (Some nd) p]).
Proof.
  intros LS d0 pre.
  assert (Loop : forall fuel d1 r d',
             option_map Demangler.topLevelResult
               (Demangler.parseAndPushNodes demangleOperator fuel d1)
             = Some (r, d') ->
             forall nd,
               r = Some nd <->
               Demangler.parses demangleOperator d1 true d'
               /\ exists p,
                   Demangler.NodeStack d'
                   = [Demangler.mkNodeWithPos (Some nd) p]).
  { intros fuel d1 r d' E nd.
    destruct (Demangler.parseAndPushNodes demangleOperator fuel d1)
      as [[ok d2]|] eqn:PA; [|discriminate E].
    cbn [option_map] in E. injection E as E.
    pose proof (f_equal snd E) as ES. rewrite topLevelResult_state in ES.
    cbn [snd] in ES. subst d2.
    pose proof (f_equal fst E) as EF. cbn [fst] in EF. rewrite <- EF.
    rewrite topLevelResult_success.
    apply parseAndPushNodes_parses in PA. split.
    - intros [-> S1]. split; assumption.
    - intros [P S1]. split; [|exact S1].
      destruct (parses_functional _ _ _ PA _ _ P) as [-> _]. reflexivity. }
  assert (ST : forall d1, Demangler.Text d1 = MangledName ->
                          exists r,
                            Demangler.parseAndPushNodes
                              demangleOperator
                              (S (String.length MangledName)) d1 = Some r).
  { intros d1 ET. apply parseAndPushNodes_terminates.
    - rewrite ET. exact LS.
    - rewrite ET. unfold StringRef.size. lia. }
  split; [|split; [|split]].
  - unfold Demangler.demangleSymbol. fold d0. fold pre.
    destruct (fst pre) eqn:EP; [|eexists; reflexivity].
    destruct (ST (snd pre)) as (r & ->); [|eexists; reflexivity].
    subst pre. unfold Demangler.nextIf.
    destruct (negb _); reflexivity.
  - unfold Demangler.demangleType. fold d0.
    destruct (ST d0) as (r & ->); [reflexivity|eexists; reflexivity].
  - intros fuel r d' E nd. unfold Demangler.demangleSymbol in E.
    fold d0 in E. fold pre in E.
    destruct (fst pre) eqn:EP.
    + rewrite (Loop fuel (snd pre) r d' E nd). tauto.
    + injection E as <- _. split; [discriminate|intros [X _]; discriminate X].
  - intros fuel r d' E nd. exact (Loop fuel d0 r d' E nd).
Qed.

End EntryPointClaims.

Section DemanglerExamples.

Local Open Scope string_scope.

Lemma sample_operator_consumes (d : Demangler.state (Node := SampleNode))
      (nd : SampleNode) (d1 : Demangler.state) :
  StringRef.size (Demangler.Text d) < 2 ^ 64 ->
  Demangler.Pos d < StringRef.size (Demangler.Text d) ->
  sample_operator d = (Some nd, d1) ->
  Demangler.Text d1 = Demangler.Text d
  /\ Demangler.Pos d < Demangler.Pos d1.
Proof.
  intros LS LP. unfold sample_operator, Demangler.nextChar.
  apply N.leb_gt in LP as LP'. rewrite LP'. cbn [fst snd].
  destruct (Ascii.eqb _ _); [|discriminate].
  intros E. injection E as _ <-.
  cbn [Demangler.set_Pos Demangler.Text Demangler.Pos].
  rewrite wrap_small by lia. split; [reflexivity|lia].
Qed.

Example demangleSymbol_one_node :
  option_map fst (Demangler.demangleSymbol sample_operator 5 "_T0i"
                                           sample_demangler)
  = Some (Some (mkSampleNode 1 "i")).
Proof. reflexivity. Qed.

Example demangleSymbol_two_nodes :
  option_map fst (Demangler.demangleSymbol sample_operator 6 "_T0ii"
                                           sample_demangler)
  = Some None.
Proof. reflexivity. Qed.

Example demangleSymbol_null_production :
  option_map fst (Demangler.demangleSymbol sample_operator 6 "_T0ix"
                                           sample_demangler)
  = Some None.
Proof. reflexivity. Qed.

Example demangleType_empty_text :
  option_map fst (Demangler.demangleType sample_operator 1 ""
                                         sample_demangler)
  = Some None.
Proof. reflexivity. Qed.

Lemma demangle_all_or_nothing_witness :
  let d0 := Demangler.init "_T0i" sample_demangler in
  let pre := Demangler.nextIf Demangler.MANGLING_PREFIX d0 in
  (exists r,
      Demangler.demangleSymbol sample_operator (S (String.length "_T0i"))
                               "_T0i" sample_demangler
      = Some r)
  /\ (exists r,
         Demangler.demangleType sample_operator (S (String.length "_T0i"))
                                "_T0i" sample_demangler
         = Some r)
  /\ (forall fuel r d',
         Demangler.demangleSymbol sample_operator fuel "_T0i" sample_demangler
         = Some (r, d') ->
         forall nd,
           r = Some nd <->
           fst pre = true
           /\ Demangler.parses sample_operator (snd pre) true d'
           /\ exists p,
               Demangler.NodeStack d'
               = [Demangler.mkNodeWithPos (Some nd) p])
  /\ (forall fuel r d',
         Demangler.demangleType sample_operator fuel "_T0i" sample_demangler
         = Some (r, d') ->
         forall nd,
           r = Some nd <->
           Demangler.parses sample_operator d0 true d'
           /\ exists p,
               Demangler.NodeStack d'
               = [Demangler.mkNodeWithPos (Some nd) p]).
Proof.
  apply (demangle_all_or_nothing sample_operator sample_operator_consumes
                                 "_T0i" sample_demangler).
  reflexivity.
Defined.

Lemma popNode_checks_top_witness :
  (Demangler.popNode sample_session = (None, sample_session)
   /\ (forall kind,
          Demangler.popNode_kind N.eq_dec sample_kind kind sample_session
          = Some (None, sample_session))
   /\ (forall pred,
          Demangler.popNode_pred sample_kind pred sample_session
          = Some (None, sample_session)))
  /\ Demangler.popNode sample_stacked
     = (Some (mkSampleNode 1 "i"),
        Demangler.set_NodeStack sample_stacked [])
  /\ (forall kind,
         Demangler.popNode_kind N.eq_dec sample_kind kind sample_stacked
         = if N.eq_dec 1 kind
           then Some (Some (mkSampleNode 1 "i"),
                      Demangler.set_NodeStack sample_stacked [])
           else Some (None, sample_stacked)).
Proof.
  destruct (popNode_checks_top N.eq_dec sample_kind sample_session)
    as (P1 & _ & _).
  destruct (popNode_checks_top N.eq_dec sample_kind sample_stacked)
    as (_ & P2 & P3).
  split; [apply P1; reflexivity|]. split.
  - apply (P2 [] (Demangler.mkNodeWithPos (Some (mkSampleNode 1 "i")) 0)).
    reflexivity.
  - apply (P3 [] (mkSampleNode 1 "i") 0). reflexivity.
Defined.

Lemma nextIf_advances_only_on_match_witness :
  Demangler.nextIf "_T0" sample_session
  = (true, Demangler.set_Pos sample_session (0 + StringRef.size "_T0"))
  /\ Demangler.nextIf "_Tt" sample_session = (false, sample_session)
  /\ Demangler.nextIf_char "_" sample_session
     = (true, Demangler.set_Pos sample_session (0 + 1))
  /\ Demangler.nextIf_char "T" sample_session = (false, sample_session).
Proof.
  destruct (nextIf_advances_only_on_match sample_session)
    as (PS & PC); [reflexivity|reflexivity|].
  split; [|split; [|split]].
  - apply (PS "_T0"). exists "i"%string. reflexivity.
  - apply (PS "_Tt"). intros (rest & E). vm_compute in E. discriminate E.
  - apply (PC "_"%char); [left; discriminate|].
    exists "T0i"%string. reflexivity.
  - apply (PC "T"%char); [left; discriminate|].
    intros (rest & E). vm_compute in E. discriminate E.
Defined.

(** C7 does not hold for the single-character overload with the NUL
    character at the end of the input: the text at [Pos] does not start
    with it, yet [nextIf] returns true and moves [Pos] past the end. *)
Lemma nextIf_char_NUL_at_end :
  ~ Demangler.input_starts_with sample_demangler (String Ascii.zero "")
  /\ Demangler.nextIf_char Ascii.zero sample_demangler
     = (true, Demangler.set_Pos sample_demangler 1)
  /\ Demangler.nextIf_char Ascii.zero sample_demangler
     <> (false, sample_demangler).
Proof.
  split; [|split].
  - intros (rest & E). vm_compute in E. discriminate E.
  - reflexivity.
  - discriminate.
Qed.

Lemma peekChar_nextChar_sentinel_witness :
  (Demangler.peekChar (Demangler.nextChars 4 sample_session) = Ascii.zero
   /\ Demangler.nextChar (Demangler.nextChars 4 sample_session)
      = (Ascii.zero, Demangler.nextChars 4 sample_session))
  /\ (Demangler.peekChar sample_session = "_"%char
      /\ Demangler.nextChar sample_session
         = ("_"%char, Demangler.set_Pos sample_session (wrap (0 + 1))))
  /\ (forall n,
         Demangler.Text (Demangler.nextChars n sample_session) = "_T0i"%string
         /\ Demangler.Pos (Demangler.nextChars n sample_session) <= 4).
Proof.
  destruct (peekChar_nextChar_sentinel (Demangler.nextChars 4 sample_session))
    as (P1 & _ & _).
  destruct (peekChar_nextChar_sentinel sample_session) as (_ & P2 & P3).
  split; [apply P1; by_computation|].
  split; [apply P2; reflexivity|].
  apply P3. by_computation.
Defined.

Lemma word_list_holds_26_witness :
  (Demangler.NumWords sample_demangler <= 26)%Z
  /\ (Demangler.NumWords sample_demangler < 26 ->
      exists d',
        Demangler.recordWord "Array" sample_demangler = Some d'
        /\ Demangler.lookupWord 0 d' = Some "Array"%string)%Z
  /\ Demangler.resolveWordCode "A" sample_demangler = None
  /\ Demangler.recordWords (repeat "w"%string 27) sample_demangler = None.
Proof.
  destruct (word_list_holds_26 sample_demangler)
    as (P1 & P2 & _ & P4 & P5).
  { split; [split; discriminate|reflexivity]. }
  split; [exact P1|]. split; [|split].
  - intros Room. destruct (proj1 (P2 "Array"%string) Room)
      as (d' & E & _ & _ & L & _).
    exists d'. split; [exact E|exact L].
  - apply P4. left. discriminate.
  - apply (proj2 (P5 (repeat "w"%string 27))). reflexivity.
Defined.

Example record_then_resolve :
  option_map (Demangler.resolveWordCode "B")
             (Demangler.recordWords ["Array"; "Index"; "Value"]%string
                                    sample_demangler)
  = Some (Some "Index"%string).
Proof. reflexivity. Qed.

Lemma addSubstitution_keeps_list_null_free_witness :
  exists d',
    Demangler.exec_all N.eq_dec sample_kind
                  [Demangler.OpAddSubstitution None;
                   Demangler.OpPushNode (Some (mkSampleNode 1 "i"));
                   Demangler.OpAddSubstitution (Some (mkSampleNode 1 "i"));
                   Demangler.OpPopNodeKind 1]
                  (Demangler.fresh 40)
    = Some d'
    /\ Demangler.Substitutions d' = [Some (mkSampleNode 1 "i")]
    /\ Demangler.Substitutions_ok d'.
Proof.
  eexists. split; [reflexivity|]. split; [reflexivity|].
  destruct (addSubstitution_keeps_list_null_free N.eq_dec sample_kind)
    as (_ & _ & _ & P4).
  apply (P4 [Demangler.OpAddSubstitution None;
             Demangler.OpPushNode (Some (mkSampleNode 1 "i"));
             Demangler.OpAddSubstitution (Some (mkSampleNode 1 "i"));
             Demangler.OpPopNodeKind 1] 40).
  reflexivity.
Defined.

End DemanglerExamples.

(** * Further properties of the node factory *)

Section AlignFacts.

Lemma align_pow2 (p k : N) :
  p + 2 ^ k <= 2 ^ 64 ->
  align p (2 ^ k) = (p + 2 ^ k - 1) / 2 ^ k * 2 ^ k.
Proof.
  intros Hp. unfold align.
  assert (0 < 2 ^ k) by (apply N.neq_0_lt_0, N.pow_nonzero; discriminate).
  rewrite wrap_small by lia. apply mask_low_bits. lia.
Qed.

Lemma round_up_multiple (p a : N) :
  0 < a -> ((p + a - 1) / a * a) mod a = 0.
Proof. intros _. apply N.Div0.mod_mul. Qed.

Lemma round_up_least (p a q : N) :
  0 < a -> p <= q -> q mod a = 0 -> (p + a - 1) / a * a <= q.
Proof.
  intros Ha L M.
  pose proof (N.div_mod q a ltac:(lia)) as D. rewrite M, N.add_0_r in D.
  assert (E : (q + a - 1) / a = q / a).
  { rewrite D at 1. replace (a * (q / a) + a - 1) with (a - 1 + q / a * a)
      by lia.
    rewrite N.div_add by lia. rewrite N.div_small by lia. reflexivity. }
  assert (M1 : (p + a - 1) / a <= q / a)
    by (rewrite <- E; apply N.Div0.div_le_mono; lia).
  rewrite (N.mul_comm a) in D. rewrite D.
  apply N.mul_le_mono_r, M1.
Qed.

Lemma round_up_fixed (p a : N) :
  0 < a -> p mod a = 0 -> (p + a - 1) / a * a = p.
Proof.
  intros Ha M. apply N.le_antisymm.
  - apply round_up_least; [exact Ha|lia|exact M].
  - apply round_up_bounds, Ha.
Qed.

Lemma align_properties (p k : N) :
  p + 2 ^ k <= 2 ^ 64 ->
  align p (2 ^ k) mod 2 ^ k = 0
  /\ p <= align p (2 ^ k) < p + 2 ^ k
  /\ (forall q, p <= q -> q mod 2 ^ k = 0 -> align p (2 ^ k) <= q)
  /\ (p mod 2 ^ k = 0 -> align p (2 ^ k) = p)
  /\ align (align p (2 ^ k)) (2 ^ k) = align p (2 ^ k).
Proof.
  intros Hp.
  assert (Ha : 0 < 2 ^ k)
    by (apply N.neq_0_lt_0, N.pow_nonzero; discriminate).
  pose proof (round_up_bounds p (2 ^ k) Ha) as [B1 B2].
  pose proof (round_up_multiple p (2 ^ k) Ha) as M.
  rewrite (align_pow2 p k Hp).
  set (r := (p + 2 ^ k - 1) / 2 ^ k * 2 ^ k) in *.
  split; [exact M|]. split; [lia|].
  split; [intros q L Q; apply round_up_least; assumption|].
  split; [apply round_up_fixed, Ha|].
  assert (K : k <= 64).
  { apply (N.pow_le_mono_r_iff 2); [reflexivity|lia]. }
  assert (E : 2 ^ 64 = 2 ^ (64 - k) * 2 ^ k)
    by (rewrite <- N.pow_add_r; f_equal; lia).
  assert (R : r + 2 ^ k <= 2 ^ 64).
  { subst r. set (q := (p + 2 ^ k - 1) / 2 ^ k) in *.
    assert (L : q * 2 ^ k < 2 ^ (64 - k) * 2 ^ k) by lia.
    apply N.mul_lt_mono_pos_r in L; [|exact Ha].
    rewrite E. nia. }
  rewrite (align_pow2 r k R). apply round_up_fixed; assumption.
Qed.

(** X1.  For an alignment that is a power of two and a pointer that
    leaves room for it below [2 ^ 64], [align] returns the least
    multiple of the alignment that is not below the pointer: it is a
    multiple, lies in [Ptr, Ptr + Alignment), is below every other such
    multiple, leaves an aligned pointer as it is, and aligning twice is
    aligning once. *)
Theorem align_least_multiple (p k : N) :
  p + 2 ^ k <= 2 ^ 64 ->
  align p (2 ^ k) mod 2 ^ k = 0
  /\ p <= align p (2 ^ k) < p + 2 ^ k
  /\ (forall q, p <= q -> q mod 2 ^ k = 0 -> align p (2 ^ k) <= q)
  /\ (p mod 2 ^ k = 0 -> align p (2 ^ k) = p)
  /\ align (align p (2 ^ k)) (2 ^ k) = align p (2 ^ k).
Proof. exact (align_properties p k). Qed.

Lemma align_least_multiple_witness :
  align 4133 (2 ^ 3) mod 2 ^ 3 = 0
  /\ 4133 <= align 4133 (2 ^ 3) < 4133 + 2 ^ 3
  /\ (forall q, 4133 <= q -> q mod 2 ^ 3 = 0 -> align 4133 (2 ^ 3) <= q)
  /\ (4133 mod 2 ^ 3 = 0 -> align 4133 (2 ^ 3) = 4133)
  /\ align (align 4133 (2 ^ 3)) (2 ^ 3) = align 4133 (2 ^ 3).
Proof. apply (align_least_multiple 4133 3). by_computation. Defined.

End AlignFacts.

Section RegionFacts.

(** [wf] and [handed_out] look at the factory and the block list only. *)
Lemma wf_blocks (F : t) (H H' : Heap) :
  blocks H' = blocks H -> wf F H -> wf F H'.
Proof. unfold wf. intros ->. tauto. Qed.

Lemma handed_out_blocks (F : t) (H H' : Heap) (r : N * N) :
  blocks H' = blocks H -> handed_out F H r -> handed_out F H' r.
Proof. unfold handed_out. intros ->. tauto. Qed.

(** The region [Allocate] returns is the null region or handed out. *)
Lemma Allocate_result_null_or_handed_out (T : CType) (n newSlab : N)
      (F : t) (H : Heap) :
  wf F H -> Allocate_pre T n newSlab F H ->
  null_or_handed_out (snd (fst (Allocate T n newSlab F H)))
                     (snd (Allocate T n newSlab F H))
                     (fst (fst (Allocate T n newSlab F H)), n * sizeof T).
Proof.
  intros W P.
  destruct (Allocate_exact _ _ _ _ _ P) as (B1 & B2 & EQ & FIT).
  cbv zeta in *. rewrite EQ. clear EQ.
  destruct (needs_slab T n F) eqn:NS; cbn [fst snd].
  - right. left. cbn [fst snd CurPtr CurrentSlab]. lia.
  - specialize (FIT eq_refl).
    destruct W as (B & [(C0 & P0 & E0 & BL)|(older & E & L1 & L2 & L3)]).
    + left. f_equal; lia.
    + right. left. cbn [fst snd CurPtr CurrentSlab]. lia.
Qed.

(** The region [Allocate] returns is apart from everything handed out
    before. *)
Lemma Allocate_result_apart (T : CType) (n newSlab : N) (F : t) (H : Heap)
      (r : N * N) :
  wf F H -> Allocate_pre T n newSlab F H -> handed_out F H r ->
  apart r (fst (fst (Allocate T n newSlab F H)), n * sizeof T).
Proof.
  intros W P HO.
  destruct (Allocate_exact _ _ _ _ _ P) as (B1 & B2 & EQ & FIT).
  cbv zeta in *. rewrite EQ. clear EQ.
  destruct (handed_out_in_block F H r W HO) as (b & I & K1 & K2).
  unfold apart, sizeof_Slab in *.
  destruct (needs_slab T n F) eqn:NS; cbn [fst snd].
  - destruct P as (_ & _ & M). destruct (M NS) as (R & _ & _ & AP).
    rewrite Forall_forall in AP. specialize (AP b I).
    unfold apart, slab_in_range, sizeof_Slab in *. cbn [fst snd] in AP. lia.
  - specialize (FIT eq_refl).
    destruct W as (B & [(C0 & P0 & E0 & BL)|(older & E & L1 & L2 & L3)]).
    + rewrite BL in I. destruct I.
    + destruct HO as [(M1 & M2)|(b' & I' & M1 & M2)]; [lia|].
      rewrite E in B, I'. cbn [tl blocks_ok] in B, I'.
      destruct B as (_ & _ & AP & _).
      rewrite Forall_forall in AP. specialize (AP b' I').
      unfold apart, sizeof_Slab in *. cbn [fst snd] in AP. lia.
Qed.

Lemma null_or_handed_out_apart (T : CType) (n newSlab : N) (F : t)
      (H : Heap) (r : N * N) :
  wf F H -> Allocate_pre T n newSlab F H -> null_or_handed_out F H r ->
  apart r (fst (fst (Allocate T n newSlab F H)), n * sizeof T).
Proof.
  intros W P [->|HO]; [left; cbn; lia|].
  apply Allocate_result_apart; assumption.
Qed.

Lemma Allocate_keeps_null_or_handed_out (T : CType) (n newSlab : N)
      (F : t) (H : Heap) (r : N * N) :
  wf F H -> Allocate_pre T n newSlab F H -> null_or_handed_out F H r ->
  null_or_handed_out (snd (fst (Allocate T n newSlab F H)))
                     (snd (Allocate T n newSlab F H)) r.
Proof.
  intros W P [->|HO]; [left; reflexivity|right].
  apply Allocate_keeps_handed_out; assumption.
Qed.

(** The regions of a run are apart from each other and from everything
    handed out before the run. *)
Lemma AllocateAll_apart (reqs : list Request) :
  forall F H,
    wf F H -> AllocateAll_pre reqs F H ->
    ForallOrdPairs apart (fst (fst (AllocateAll reqs F H)))
    /\ (forall r0, null_or_handed_out F H r0 ->
                   Forall (apart r0) (fst (fst (AllocateAll reqs F H)))).
Proof.
  induction reqs as [|r rest IH]; intros F H W P.
  - cbn. split; [constructor|intros; constructor].
  - cbn [AllocateAll AllocateAll_pre] in *. destruct P as [P PS].
    pose proof (Allocate_wf _ _ _ _ _ W P) as W1.
    pose proof (Allocate_result_null_or_handed_out _ _ _ _ _ W P) as R1.
    pose proof (fun x => null_or_handed_out_apart _ _ _ _ _ x W P) as A1.
    pose proof (fun x => Allocate_keeps_null_or_handed_out _ _ _ _ _ x W P)
      as K1.
    assert (SZ : wrap (req_count r * sizeof (req_type r))
                 = req_count r * sizeof (req_type r)).
    { destruct P as (VT & NO & _).
      pose proof (valid_type_alignof _ VT). apply wrap_small. lia. }
    rewrite SZ.
    destruct (Allocate _ _ _ F H) as [[p F1] H1]. cbn [fst snd] in *.
    specialize (IH F1 H1 W1 PS).
    destruct (AllocateAll rest F1 H1) as [[regions F2] H2].
    cbn [fst snd] in *. destruct IH as (OP & AP).
    split.
    + constructor; [apply AP, R1|exact OP].
    + intros r0 N0. constructor; [apply A1, N0|apply AP, K1, N0].
Qed.

(** Under [Reallocate_pre] the moving branch computes with exact
    arithmetic. *)
Lemma Reallocate_moving_exact (T : CType)
      (Objects Capacity MinGrowth newSlab : N) (F : t) (H : Heap) :
  wf F H ->
  Reallocate_pre T Objects Capacity MinGrowth newSlab F H ->
  grows_in_place T Objects Capacity MinGrowth F = false ->
  let G := N.max (N.max MinGrowth 4) (Capacity * 2) in
  let A := Allocate T (Capacity + G) newSlab F H in
  Reallocate T Objects Capacity MinGrowth newSlab F H
  = (fst (fst A), Capacity + G, snd (fst A),
     {| bytes := memcpy (bytes (snd A)) (fst (fst A)) Objects
                        (Capacity * sizeof T);
        blocks := blocks (snd A) |})
  /\ Capacity * sizeof T <= (Capacity + G) * sizeof T.
Proof.
  intros W (Old & AP) GP G A. subst A.
  pose proof AP as (VT & NO & M).
  pose proof (valid_type_alignof T VT) as [A1 A8].
  destruct VT as [S0 VA]. fold G in NO.
  assert (X1 : Capacity * sizeof T <= (Capacity + G) * sizeof T)
    by (apply N.mul_le_mono_r; lia).
  assert (X3 : Capacity + G <= (Capacity + G) * sizeof T) by nia.
  split; [|exact X1].
  rewrite Reallocate_unfold, GP.
  rewrite (Growth_exact Capacity MinGrowth) by (subst G; lia). fold G.
  rewrite (wrap_small (Capacity + G)) by lia.
  rewrite (wrap_small (Capacity * sizeof T)) by lia.
  reflexivity.
Qed.

(** [Reallocate] keeps the representation invariant. *)
Lemma Reallocate_wf (T : CType) (Objects Capacity MinGrowth newSlab : N)
      (F : t) (H : Heap) :
  wf F H ->
  Reallocate_ok T Objects Capacity MinGrowth newSlab F H ->
  wf (snd (fst (Reallocate T Objects Capacity MinGrowth newSlab F H)))
     (snd (Reallocate T Objects Capacity MinGrowth newSlab F H)).
Proof.
  intros W OK. unfold Reallocate_ok in OK.
  destruct (grows_in_place T Objects Capacity MinGrowth F) eqn:GP.
  - rewrite Reallocate_unfold, GP. cbn [fst snd].
    destruct OK as (S0 & NW).
    unfold grows_in_place in GP. apply andb_true_iff in GP as [_ GP].
    apply N.leb_le in GP.
    assert (MinGrowth * sizeof T < 2 ^ 64) by lia.
    rewrite (wrap_small (MinGrowth * sizeof T)) in * by lia.
    rewrite wrap_small in * by lia.
    destruct W as (B & [(C0 & P0 & E0 & BL)|(older & E & L1 & L2 & L3)]).
    + split; [exact B|]. left. cbn [CurPtr End CurrentSlab].
      repeat split; try assumption. lia.
    + split; [exact B|]. right. exists older.
      cbn [CurPtr End CurrentSlab SlabSize].
      repeat split; try assumption; lia.
  - destruct (Reallocate_moving_exact _ _ _ _ _ _ _ W OK GP) as [EQ _].
    cbv zeta in EQ. rewrite EQ. cbn [fst snd].
    eapply wf_blocks; [|apply Allocate_wf; [exact W|apply OK]].
    reflexivity.
Qed.

(** [Reallocate] changes no byte of a region handed out before. *)
Lemma Reallocate_bytes_handed_out (T : CType)
      (Objects Capacity MinGrowth newSlab : N) (F : t) (H : Heap)
      (r : N * N) (a : N) :
  wf F H ->
  Reallocate_ok T Objects Capacity MinGrowth newSlab F H ->
  handed_out F H r -> fst r <= a < fst r + snd r ->
  bytes (snd (Reallocate T Objects Capacity MinGrowth newSlab F H)) a
  = bytes H a.
Proof.
  intros W OK HO A. unfold Reallocate_ok in OK.
  destruct (grows_in_place T Objects Capacity MinGrowth F) eqn:GP.
  - rewrite Reallocate_unfold, GP. reflexivity.
  - destruct (Reallocate_moving_exact _ _ _ _ _ _ _ W OK GP) as [EQ LE].
    cbv zeta in EQ, LE. rewrite EQ. cbn [snd bytes].
    destruct OK as (_ & AP).
    pose proof (Allocate_result_apart _ _ _ _ _ r W AP HO) as AR.
    unfold memcpy, apart in *. cbn [fst snd] in AR.
    match goal with
    | |- (if ?c then _ else _) = _ => destruct c eqn:C
    end.
    + apply andb_true_iff in C as [C1 C2].
      apply N.leb_le in C1. apply N.ltb_lt in C2. lia.
    + apply (Allocate_bytes_handed_out _ _ _ _ _ r a W AP HO A).
Qed.

End RegionFacts.

Section RegionProperties.

Lemma new_slab_payload_aligned (newSlab k : N) :
  newSlab mod 16 = 0 -> k <= 3 -> (newSlab + sizeof_Slab) mod 2 ^ k = 0.
Proof.
  intros AL Hk. unfold sizeof_Slab.
  pose proof (N.div_mod newSlab 16 ltac:(discriminate)) as DM.
  rewrite AL in DM.
  replace (newSlab + 8) with ((newSlab / 16 * 2 + 1) * 2 ^ (3 - k) * 2 ^ k).
  - apply N.Div0.mod_mul.
  - rewrite <- N.mul_assoc, <- N.pow_add_r.
    replace (3 - k + k) with 3 by lia. change (2 ^ 3) with 8. lia.
Qed.

Lemma Allocate_aligned (T : CType) (n newSlab : N) (F : t) (H : Heap) :
  Allocate_pre T n newSlab F H ->
  fst (fst (Allocate T n newSlab F H)) mod alignof T = 0.
Proof.
  intros P.
  destruct (Allocate_exact _ _ _ _ _ P) as (_ & _ & EQ & _).
  cbv zeta in EQ. rewrite EQ. clear EQ.
  destruct P as ((S0 & k & Hk & EA) & NO & M).
  destruct (needs_slab T n F) eqn:NS; cbn [fst].
  - destruct (M eq_refl) as (_ & _ & AL & _). rewrite EA.
    apply new_slab_payload_aligned; assumption.
  - rewrite EA in *.
    apply (align_properties (CurPtr F) k). lia.
Qed.

(** X2.  The address [Allocate] returns is a multiple of [alignof(T)],
    whether it comes from the current slab or from a new one; when a
    slab is taken, the assertions of the source hold: the payload of
    the slab needs no alignment, and [End] is the end of the block
    [malloc] returned. *)
Theorem Allocate_returns_aligned (T : CType) (n newSlab : N)
        (F : t) (H : Heap) :
  Allocate_pre T n newSlab F H ->
  let A := Allocate T n newSlab F H in
  fst (fst A) mod alignof T = 0
  /\ (needs_slab T n F = true ->
      align (fst (fst A)) (alignof T) = fst (fst A)
      /\ exists AllocSize,
          hd (0, 0) (blocks (snd A)) = (newSlab, AllocSize)
          /\ End (snd (fst A)) = newSlab + AllocSize).
Proof.
  intros P A. split.
  - apply Allocate_aligned, P.
  - intros NS. apply Allocate_assertions; assumption.
Qed.

Lemma sample_Allocate_pre :
  Allocate_pre T_ptr 3 4096 sample_factory sample_heap.
Proof.
  split; [exact valid_T_ptr|]. split; [by_computation|].
  intros _. repeat split; try constructor; by_computation.
Qed.

Lemma Allocate_returns_aligned_witness :
  let A := Allocate T_ptr 3 4096 sample_factory sample_heap in
  fst (fst A) mod alignof T_ptr = 0
  /\ (needs_slab T_ptr 3 sample_factory = true ->
      align (fst (fst A)) (alignof T_ptr) = fst (fst A)
      /\ exists AllocSize,
          hd (0, 0) (blocks (snd A)) = (4096, AllocSize)
          /\ End (snd (fst A)) = 4096 + AllocSize).
Proof.
  apply (Allocate_returns_aligned T_ptr 3 4096 sample_factory sample_heap).
  exact sample_Allocate_pre.
Defined.

(** X3.  The representation invariant [wf] (the live blocks are
    disjoint and inside the address space; the current slab is the
    newest block and [CurPtr] lies between its payload and [End], or
    there is no slab and all pointers are null) holds for a new
    factory and is kept by [Allocate] and by [Reallocate]. *)
Theorem factory_invariant_kept :
  (forall sizeof_Node m,
      wf (create sizeof_Node) {| bytes := m; blocks := [] |})
  /\ (forall T n newSlab F H,
         wf F H -> Allocate_pre T n newSlab F H ->
         wf (snd (fst (Allocate T n newSlab F H)))
            (snd (Allocate T n newSlab F H)))
  /\ (forall T Objects Capacity MinGrowth newSlab F H,
         wf F H ->
         Reallocate_ok T Objects Capacity MinGrowth newSlab F H ->
         wf (snd (fst (Reallocate T Objects Capacity MinGrowth newSlab
                                  F H)))
            (snd (Reallocate T Objects Capacity MinGrowth newSlab F H))).
Proof.
  split; [exact wf_create|]. split; [exact Allocate_wf|exact Reallocate_wf].
Qed.

Lemma sample_Reallocate_pre :
  Reallocate_pre T_ptr 4104 2 1 0 sample_after_array sample_slab_heap.
Proof.
  split.
  - right. left. by_computation.
  - split; [exact valid_T_ptr|]. split; [by_computation|].
    intros E; vm_compute in E; discriminate E.
Qed.

Lemma sample_Reallocate_ok :
  Reallocate_ok T_ptr 4104 2 1 0 sample_after_array sample_slab_heap.
Proof.
  unfold Reallocate_ok.
  assert (E : grows_in_place T_ptr 4104 2 1 sample_after_array = false)
    by reflexivity.
  rewrite E. exact sample_Reallocate_pre.
Qed.

Lemma factory_invariant_kept_witness :
  wf (snd (fst (Allocate T_ptr 3 4096 sample_factory sample_heap)))
     (snd (Allocate T_ptr 3 4096 sample_factory sample_heap))
  /\ wf (snd (fst (Reallocate T_ptr 4104 2 1 0 sample_after_array
                              sample_slab_heap)))
        (snd (Reallocate T_ptr 4104 2 1 0 sample_after_array
                         sample_slab_heap)).
Proof.
  destruct factory_invariant_kept as (P0 & P1 & P2).
  split.
  - apply (P1 T_ptr 3 4096 sample_factory sample_heap).
    + apply (P0 40).
    + exact sample_Allocate_pre.
  - apply (P2 T_ptr 4104 2 1 0 sample_after_array sample_slab_heap).
    + exact wf_sample_after_array.
    + exact sample_Reallocate_ok.
Defined.

(** X4.  The regions returned by any run of [Allocate] calls that
    starts from a well-formed factory, each call made under
    [Allocate_pre], are pairwise disjoint, also when the run goes
    through several slabs, and each is disjoint from every region that
    was handed out before the run. *)
Theorem Allocate_regions_never_overlap (reqs : list Request)
        (F : t) (H : Heap) :
  wf F H -> AllocateAll_pre reqs F H ->
  ForallOrdPairs apart (fst (fst (AllocateAll reqs F H)))
  /\ (forall r0, handed_out F H r0 ->
                 Forall (apart r0) (fst (fst (AllocateAll reqs F H)))).
Proof.
  intros W P. destruct (AllocateAll_apart reqs F H W P) as [OP AP].
  split; [exact OP|]. intros r0 HO. apply AP. right. exact HO.
Qed.

Lemma Allocate_regions_never_overlap_witness :
  let reqs := [mkRequest T_ptr 3 0; mkRequest T_char 5 0;
               mkRequest T_ptr 2000 65536] in
  ForallOrdPairs apart
    (fst (fst (AllocateAll reqs sample_slab sample_slab_heap)))
  /\ (forall r0, handed_out sample_slab sample_slab_heap r0 ->
                 Forall (apart r0)
                   (fst (fst (AllocateAll reqs sample_slab
                                          sample_slab_heap)))).
Proof.
  intros reqs.
  apply (Allocate_regions_never_overlap reqs sample_slab sample_slab_heap).
  - split; [cbn; repeat split; try constructor; lia|].
    right. exists []. by_computation.
  - split; [|split; [|split; [|exact I]]].
    + split; [exact valid_T_ptr|]. split; [by_computation|].
      intros E; vm_compute in E; discriminate E.
    + split; [exact valid_T_char|]. split; [by_computation|].
      intros E; vm_compute in E; discriminate E.
    + split; [exact valid_T_ptr|]. split; [by_computation|].
      intros _. split; [by_computation|]. split; [reflexivity|].
      split; [reflexivity|]. constructor; [|constructor].
      right. by_computation.
Defined.

Example regions_across_two_slabs :
  fst (fst (AllocateAll [mkRequest T_ptr 3 0; mkRequest T_char 5 0;
                         mkRequest T_ptr 2000 65536]
                        sample_slab sample_slab_heap))
  = [(4104, 24); (4128, 5); (65544, 16000)].
Proof. reflexivity. Qed.

(** X5.  [Reallocate] changes no byte of any region the factory handed
    out before the call, in either branch: other arrays, and the old
    array itself, read the same afterwards. *)
Theorem Reallocate_leaves_other_regions (T : CType)
        (Objects Capacity MinGrowth newSlab : N) (F : t) (H : Heap) :
  wf F H ->
  Reallocate_ok T Objects Capacity MinGrowth newSlab F H ->
  forall r a,
    handed_out F H r -> fst r <= a < fst r + snd r ->
    bytes (snd (Reallocate T Objects Capacity MinGrowth newSlab F H)) a
    = bytes H a.
Proof.
  intros W OK r a HO A.
  apply (Reallocate_bytes_handed_out _ _ _ _ _ _ _ r a W OK HO A).
Qed.

Lemma Reallocate_leaves_other_regions_witness :
  bytes (snd (Reallocate T_ptr 4104 2 1 0 sample_after_array
                         sample_slab_heap)) 4110
  = bytes sample_slab_heap 4110.
Proof.
  apply (Reallocate_leaves_other_regions
           T_ptr 4104 2 1 0 sample_after_array sample_slab_heap
           wf_sample_after_array sample_Reallocate_ok (4104, 24) 4110).
  - left. by_computation.
  - by_computation.
Defined.

(** X6.  Growing the array that was allocated last is the same as
    having allocated the larger array at once: when [n + m] objects fit
    behind the aligned frontier, [Allocate(n)] followed by
    [Reallocate] of that array by [m] keeps its address, reports the
    capacity [n + m], and leaves the factory and the heap as
    [Allocate(n + m)] does. *)
Theorem Allocate_then_grow_in_place (T : CType) (n m s1 s2 s3 : N)
        (F : t) (H : Heap) :
  valid_type T -> End F < 2 ^ 64 ->
  (CurPtr F + alignof T - 1) / alignof T * alignof T + (n + m) * sizeof T
  <= End F ->
  let A1 := Allocate T n s1 F H in
  let A2 := Allocate T (n + m) s3 F H in
  Reallocate T (fst (fst A1)) n m s2 (snd (fst A1)) (snd A1)
  = (fst (fst A2), n + m, snd (fst A2), snd A2)
  /\ fst (fst A2) = fst (fst A1).
Proof.
  intros VT EL Fit A1 A2.
  assert (Fit1 : (CurPtr F + alignof T - 1) / alignof T * alignof T
                 + n * sizeof T <= End F) by nia.
  destruct (Allocate_bump T n s1 F H VT EL Fit1) as [E1 _].
  destruct (Allocate_bump T (n + m) s3 F H VT EL Fit) as [E2 _].
  subst A1 A2. rewrite E1, E2. cbn [fst snd]. split; [|reflexivity].
  rewrite Reallocate_in_place; cbn [CurPtr End]; try lia;
    [|apply VT].
  cbn [CurrentSlab SlabSize].
  rewrite <- N.add_assoc, <- N.mul_add_distr_r. reflexivity.
Qed.

Lemma Allocate_then_grow_in_place_witness :
  let A1 := Allocate T_ptr 3 0 sample_slab sample_slab_heap in
  let A2 := Allocate T_ptr (3 + 2) 0 sample_slab sample_slab_heap in
  Reallocate T_ptr (fst (fst A1)) 3 2 0 (snd (fst A1)) (snd A1)
  = (fst (fst A2), 3 + 2, snd (fst A2), snd A2)
  /\ fst (fst A2) = fst (fst A1).
Proof.
  apply (Allocate_then_grow_in_place T_ptr 3 2 0 0 0 sample_slab
                                     sample_slab_heap).
  - exact valid_T_ptr.
  - reflexivity.
  - by_computation.
Defined.

End RegionProperties.

Section FreshFactory.

Lemma align_null (a : N) : a <= 2 ^ 64 -> align 0 a = 0.
Proof.
  intros La. unfold align, not64. rewrite N.add_0_l.
  rewrite wrap_small by lia.
  apply N.land_lnot_diag_low.
  destruct (N.eq_dec (a - 1) 0) as [->|NZ]; [reflexivity|].
  apply N.log2_lt_pow2; lia.
Qed.

(** X7.  A new factory owns no memory.  A request of zero bytes to it
    returns the null pointer and leaves the factory and the heap as
    they are; any other request calls [malloc]: the new block becomes
    the current slab, its payload is returned, and [SlabSize] becomes
    the larger of twice the initial size and the object size. *)
Theorem new_factory_first_request (sizeof_Node : N) (T : CType)
        (n newSlab : N) (H : Heap) :
  alignof T <= 2 ^ 64 ->
  let F := create sizeof_Node in
  let osz := wrap (n * sizeof T) in
  let A := Allocate T n newSlab F H in
  (osz = 0 -> A = (0, F, H))
  /\ (osz <> 0 ->
      fst (fst A) = wrap (newSlab + sizeof_Slab)
      /\ CurrentSlab (snd (fst A)) = newSlab
      /\ SlabSize (snd (fst A)) = N.max (wrap (SlabSize F * 2)) osz
      /\ blocks (snd A)
         = (newSlab, wrap (sizeof_Slab + SlabSize (snd (fst A))))
             :: blocks H).
Proof.
  intros La F osz A. subst A. unfold Allocate.
  cbn [create CurPtr End CurrentSlab SlabSize F].
  rewrite (align_null _ La), N.add_0_l. fold osz.
  assert (W : wrap osz = osz) by (apply N.Div0.mod_mod).
  rewrite W. split.
  - intros Z. rewrite Z. reflexivity.
  - intros NZ. replace (0 <? osz) with true
      by (symmetry; apply N.ltb_lt; lia).
    cbn [fst snd CurrentSlab SlabSize blocks]. repeat split.
Qed.

Lemma new_factory_first_request_witness :
  let F := create 40 in
  let osz := wrap (3 * sizeof T_ptr) in
  let A := Allocate T_ptr 3 4096 F sample_heap in
  (osz = 0 -> A = (0, F, sample_heap))
  /\ (osz <> 0 ->
      fst (fst A) = wrap (4096 + sizeof_Slab)
      /\ CurrentSlab (snd (fst A)) = 4096
      /\ SlabSize (snd (fst A)) = N.max (wrap (SlabSize F * 2)) osz
      /\ blocks (snd A)
         = (4096, wrap (sizeof_Slab + SlabSize (snd (fst A))))
             :: blocks sample_heap).
Proof.
  apply (new_factory_first_request 40 T_ptr 3 4096 sample_heap).
  by_computation.
Defined.

Example empty_request_to_new_factory :
  Allocate T_ptr 0 4096 sample_factory sample_heap
  = (0, sample_factory, sample_heap).
Proof. reflexivity. Qed.

End FreshFactory.

Section SlabDoubling.

Lemma step_takes_slab_or_not (o : Op) (s : t * Heap) :
  o <> OpClear -> request_in_range o (fst s) ->
  (blocks (snd (step o s)) = blocks (snd s)
   /\ SlabSize (fst (step o s)) = SlabSize (fst s))
  \/ (exists b, blocks (snd (step o s)) = b :: blocks (snd s))
     /\ SlabSize (fst s) * 2 <= SlabSize (fst (step o s)).
Proof.
  destruct s as [F H]. intros NC.
  assert (A : forall T n p,
             (needs_slab T n F = true ->
              slab_in_range F (wrap (n * sizeof T)) p) ->
             (blocks (snd (Allocate T n p F H)) = blocks H
              /\ SlabSize (snd (fst (Allocate T n p F H))) = SlabSize F)
             \/ (exists b, blocks (snd (Allocate T n p F H)) = b :: blocks H)
                /\ SlabSize F * 2
                   <= SlabSize (snd (fst (Allocate T n p F H)))).
  { intros T n p R. rewrite (Allocate_SlabSize T n p F H R).
    unfold Allocate, needs_slab in *.
    destruct (End F <? _) eqn:E; cbn [fst snd blocks].
    - right. split; [eexists; reflexivity|lia].
    - left. split; reflexivity. }
  destruct o as [T n p|T Ob Ca Mg p|]; [| |congruence];
    unfold request_in_range, op_request; cbn [fst snd step]; intros R.
  - specialize (A T n p).
    destruct (Allocate T n p F H) as [[q F'] H']. cbn [fst snd] in *.
    apply A. intros E. rewrite E in R. exact R.
  - rewrite Reallocate_unfold.
    destruct (grows_in_place T Ob Ca Mg F); cbn [fst snd blocks SlabSize].
    + left. split; reflexivity.
    + cbv zeta. cbn [fst snd blocks]. apply A.
      intros E. rewrite E in R. exact R.
Qed.

Lemma run_slab_doubling (ops : list Op) :
  forall s,
    Forall (fun o => o <> OpClear) ops -> run_in_range ops s ->
    exists k,
      List.length (blocks (snd (run ops s)))
      = (List.length (blocks (snd s)) + k)%nat
      /\ SlabSize (fst s) * 2 ^ N.of_nat k <= SlabSize (fst (run ops s)).
Proof.
  induction ops as [|o ops IH]; intros s NC R; cbn [run fold_left].
  - exists 0%nat. split; [lia|]. cbn. lia.
  - inversion NC as [|? ? NC1 NC2]; subst. destruct R as [R1 R2].
    destruct (IH (step o s) NC2 R2) as (k & L & G).
    fold (run ops (step o s)).
    destruct (step_takes_slab_or_not o s NC1 R1)
      as [(EB & ES)|((b & EB) & ES)].
    + exists k. rewrite EB, ES in *. split; assumption.
    + exists (S k). rewrite EB in L. cbn [List.length] in L.
      split; [lia|].
      rewrite Nat2N.inj_succ, N.pow_succ_r'.
      eapply N.le_trans; [|exact G].
      rewrite N.mul_assoc. apply N.mul_le_mono_r. lia.
Qed.

(** X8.  [Allocate] and [Reallocate] never give a slab back, and every
    slab they take at least doubles [SlabSize]: along a run of them
    whose slab requests are in range, after [k] more slabs [SlabSize]
    is at least [2 ^ k] times what it was. *)
Theorem SlabSize_doubles_per_slab (ops : list Op) (s : t * Heap) :
  Forall (fun o => o <> OpClear) ops -> run_in_range ops s ->
  exists k,
    List.length (blocks (snd (run ops s)))
    = (List.length (blocks (snd s)) + k)%nat
    /\ SlabSize (fst s) * 2 ^ N.of_nat k <= SlabSize (fst (run ops s)).
Proof. exact (run_slab_doubling ops s). Qed.

Lemma SlabSize_doubles_per_slab_witness :
  let ops := [OpAllocate T_ptr 3 4096; OpReallocate T_ptr 4104 3 1 0;
              OpAllocate T_char 9000 65536] in
  exists k,
    List.length (blocks (snd (run ops (sample_factory, sample_heap))))
    = (List.length (blocks (snd (sample_factory, sample_heap))) + k)%nat
    /\ SlabSize (fst (sample_factory, sample_heap)) * 2 ^ N.of_nat k
       <= SlabSize (fst (run ops (sample_factory, sample_heap))).
Proof.
  intros ops.
  apply (SlabSize_doubles_per_slab ops (sample_factory, sample_heap)).
  - repeat constructor; discriminate.
  - by_computation.
Defined.

End SlabDoubling.

Section SlabList.

Lemma load_le_ext (m m' : N -> N) (n : nat) :
  forall p,
    (forall a, p <= a < p + N.of_nat n -> m' a = m a) ->
    load_le m' p n = load_le m p n.
Proof.
  induction n as [|n IH]; intros p E; cbn [load_le]; [reflexivity|].
  rewrite (E p) by lia. rewrite (IH (p + 1)); [reflexivity|].
  intros a A. apply E. lia.
Qed.

Lemma load_le_store_ptr (m : N -> N) (p v : N) (n : nat) :
  forall i : nat,
    (i + n <= 8)%nat ->
    load_le (store_ptr m p v) (p + N.of_nat i) n
    = (v / 2 ^ (8 * N.of_nat i)) mod 2 ^ (8 * N.of_nat n).
Proof.
  induction n as [|n IH]; intros i L; cbn [load_le].
  - cbn. rewrite N.mod_1_r. reflexivity.
  - replace (p + N.of_nat i + 1) with (p + N.of_nat (S i)) by lia.
    rewrite (IH (S i)) by lia.
    unfold store_ptr at 1.
    replace ((p <=? p + N.of_nat i) && (p + N.of_nat i <? p + 8)) with true
      by (symmetry; apply andb_true_iff; split;
          [apply N.leb_le|apply N.ltb_lt]; lia).
    replace (p + N.of_nat i - p) with (N.of_nat i) by lia.
    replace (8 * N.of_nat (S n)) with (8 + 8 * N.of_nat n) by lia.
    replace (8 * N.of_nat (S i)) with (8 * N.of_nat i + 8) by lia.
    rewrite !N.pow_add_r. change (2 ^ 8) with 256.
    rewrite N.Div0.mod_mul_r, N.Div0.div_div. reflexivity.
Qed.

(** A stored pointer is read back. *)
Lemma load_store_ptr (m : N -> N) (p v : N) :
  v < 2 ^ 64 -> load_ptr (store_ptr m p v) p = v.
Proof.
  intros L. unfold load_ptr.
  pose proof (load_le_store_ptr m p v 8 0 ltac:(lia)) as E.
  cbn [N.of_nat] in E. rewrite N.add_0_r, N.mul_0_r in E.
  rewrite E. change (2 ^ 0) with 1. rewrite N.div_1_r.
  apply N.mod_small. exact L.
Qed.

Lemma load_ptr_ext (m m' : N -> N) (p : N) :
  (forall a, p <= a < p + 8 -> m' a = m a) -> load_ptr m' p = load_ptr m p.
Proof. intros E. apply load_le_ext. exact E. Qed.

(** A write that misses every header keeps the chain. *)
Lemma slab_chain_ext (m m' : N -> N) (bs : list (N * N)) :
  (forall b a, In b bs -> sizeof_Slab <= snd b ->
               fst b <= a < fst b + sizeof_Slab -> m' a = m a) ->
  forall slab, slab_chain m bs slab -> slab_chain m' bs slab.
Proof.
  induction bs as [|b bs IH]; intros E slab C; cbn [slab_chain] in *;
    [exact C|].
  destruct C as (-> & S8 & C). split; [reflexivity|]. split; [exact S8|].
  rewrite (load_ptr_ext m m' (fst b)).
  - apply IH; [|exact C]. intros b' a I. apply E. right. exact I.
  - intros a A. apply (E b a); [left; reflexivity|exact S8|exact A].
Qed.

Lemma blocks_ok_pairwise (bs : list (N * N)) :
  blocks_ok bs ->
  forall b b', In b bs -> In b' bs -> b = b' \/ apart b b'.
Proof.
  induction bs as [|c bs IH]; cbn [blocks_ok In]; [tauto|].
  intros (_ & _ & AP & B) b b' [->|I] [->|I'].
  - left. reflexivity.
  - right. rewrite Forall_forall in AP. apply AP, I'.
  - right. rewrite Forall_forall in AP. specialize (AP b I).
    unfold apart in *. tauto.
  - apply IH; assumption.
Qed.

Lemma wf_CurrentSlab_lt (F : t) (H : Heap) :
  wf F H -> CurrentSlab F < 2 ^ 64.
Proof.
  intros (B & [(-> & _)|(older & E & _)]); [reflexivity|].
  rewrite E in B. cbn [blocks_ok fst snd] in B. lia.
Qed.

Lemma Allocate_slab_chain (T : CType) (n newSlab : N) (F : t) (H : Heap) :
  wf F H -> Allocate_pre T n newSlab F H ->
  slab_chain (bytes H) (blocks H) (CurrentSlab F) ->
  slab_chain (bytes (snd (Allocate T n newSlab F H)))
             (blocks (snd (Allocate T n newSlab F H)))
             (CurrentSlab (snd (fst (Allocate T n newSlab F H)))).
Proof.
  intros W P C.
  destruct (Allocate_exact _ _ _ _ _ P) as (_ & _ & EQ & _).
  cbv zeta in EQ. rewrite EQ. clear EQ.
  destruct (needs_slab T n F) eqn:NS; cbn [fst snd]; [|exact C].
  cbn [bytes blocks CurrentSlab slab_chain fst snd].
  split; [reflexivity|]. split; [lia|].
  rewrite (load_store_ptr _ _ _ (wf_CurrentSlab_lt F H W)).
  apply (slab_chain_ext (bytes H)); [|exact C].
  intros b a I S8 A. unfold store_ptr.
  destruct P as (_ & _ & M). destruct (M NS) as (_ & _ & _ & AP).
  rewrite Forall_forall in AP. specialize (AP b I).
  unfold apart, sizeof_Slab in *. cbn [fst snd] in AP.
  destruct ((newSlab <=? a) && (a <? newSlab + 8)) eqn:E; [|reflexivity].
  apply andb_true_iff in E as [E1 E2].
  apply N.leb_le in E1. apply N.ltb_lt in E2. lia.
Qed.

Lemma Reallocate_slab_chain (T : CType)
      (Objects Capacity MinGrowth newSlab : N) (F : t) (H : Heap) :
  wf F H ->
  Reallocate_ok T Objects Capacity MinGrowth newSlab F H ->
  slab_chain (bytes H) (blocks H) (CurrentSlab F) ->
  let R := Reallocate T Objects Capacity MinGrowth newSlab F H in
  slab_chain (bytes (snd R)) (blocks (snd R)) (CurrentSlab (snd (fst R))).
Proof.
  intros W OK C R. subst R. unfold Reallocate_ok in OK.
  destruct (grows_in_place T Objects Capacity MinGrowth F) eqn:GP.
  - rewrite Reallocate_unfold, GP. exact C.
  - destruct (Reallocate_moving_exact _ _ _ _ _ _ _ W OK GP) as [EQ LE].
    cbv zeta in EQ, LE. rewrite EQ. cbn [fst snd bytes blocks].
    destruct OK as (_ & AP).
    pose proof (Allocate_slab_chain _ _ _ _ _ W AP C) as C1.
    pose proof (Allocate_wf _ _ _ _ _ W AP) as W1.
    pose proof (Allocate_result_null_or_handed_out _ _ _ _ _ W AP) as R1.
    set (A := Allocate T (Capacity + N.max (N.max MinGrowth 4) (Capacity * 2))
                       newSlab F H) in *.
    apply (slab_chain_ext (bytes (snd A))); [|exact C1].
    intros b a I S8 Ain. unfold memcpy.
    match goal with
    | |- (if ?c then _ else _) = _ => destruct c eqn:E
    end; [|reflexivity].
    apply andb_true_iff in E as [E1 E2].
    apply N.leb_le in E1. apply N.ltb_lt in E2.
    destruct R1 as [Z|HO].
    + injection Z as Z1 Z2. lia.
    + destruct (handed_out_in_block _ _ _ W1 HO) as (b0 & I0 & K1 & K2).
      cbn [fst snd] in K1, K2.
      destruct (blocks_ok_pairwise _ (proj1 W1) b b0 I I0) as [->|AB];
        unfold apart, sizeof_Slab in *; lia.
Qed.

(** X9.  The [Previous] links that [Allocate] stores in the slab
    headers always form the list of slabs: followed from [CurrentSlab]
    they visit the live blocks, newest first, and end in null.  This
    holds for a new factory and is kept by [Allocate] and by
    [Reallocate], whose copy never writes into a header. *)
Theorem slab_list_kept_in_memory :
  (forall sizeof_Node m,
      slab_chain m [] (CurrentSlab (create sizeof_Node)))
  /\ (forall T n newSlab F H,
         wf F H -> Allocate_pre T n newSlab F H ->
         slab_chain (bytes H) (blocks H) (CurrentSlab F) ->
         slab_chain (bytes (snd (Allocate T n newSlab F H)))
                    (blocks (snd (Allocate T n newSlab F H)))
                    (CurrentSlab (snd (fst (Allocate T n newSlab F H)))))
  /\ (forall T Objects Capacity MinGrowth newSlab F H,
         wf F H ->
         Reallocate_ok T Objects Capacity MinGrowth newSlab F H ->
         slab_chain (bytes H) (blocks H) (CurrentSlab F) ->
         let R := Reallocate T Objects Capacity MinGrowth newSlab F H in
         slab_chain (bytes (snd R)) (blocks (snd R))
                    (CurrentSlab (snd (fst R)))).
Proof.
  split; [reflexivity|].
  split; [exact Allocate_slab_chain|exact Reallocate_slab_chain].
Qed.

Lemma slab_list_kept_in_memory_witness :
  let A := Allocate T_ptr 3 4096 sample_factory sample_heap in
  let B := Allocate T_char 9000 65536 (snd (fst A)) (snd A) in
  slab_chain (bytes (snd B)) (blocks (snd B)) (CurrentSlab (snd (fst B)))
  /\ load_ptr (bytes (snd B)) 65536 = 4096
  /\ load_ptr (bytes (snd B)) 4096 = 0.
Proof.
  intros A B.
  destruct slab_list_kept_in_memory as (P0 & P1 & _).
  assert (WA : wf (snd (fst A)) (snd A)).
  { apply Allocate_wf; [apply (wf_create 40)|exact sample_Allocate_pre]. }
  assert (CA : slab_chain (bytes (snd A)) (blocks (snd A))
                          (CurrentSlab (snd (fst A)))).
  { apply (P1 T_ptr 3 4096 sample_factory sample_heap).
    - apply (wf_create 40).
    - exact sample_Allocate_pre.
    - apply (P0 40). }
  assert (CB : slab_chain (bytes (snd B)) (blocks (snd B))
                          (CurrentSlab (snd (fst B)))).
  { apply (P1 T_char 9000 65536 (snd (fst A)) (snd A) WA); [|exact CA].
    split; [exact valid_T_char|]. split; [by_computation|].
    intros _. split; [by_computation|]. split; [reflexivity|].
    split; [reflexivity|]. constructor; [|constructor].
    right. by_computation. }
  split; [exact CB|]. split; reflexivity.
Defined.

End SlabList.

(** * Further properties of the demangler primitives *)

Section CursorProperties.

Context {Node : Type}.
Implicit Types d : Demangler.state (Node := Node).

Lemma set_Pos_same d : Demangler.set_Pos d (Demangler.Pos d) = d.
Proof. destruct d. reflexivity. Qed.

Lemma set_Pos_twice d (a b : N) :
  Demangler.set_Pos (Demangler.set_Pos d a) b = Demangler.set_Pos d b.
Proof. reflexivity. Qed.

Lemma wrap_pred (p : N) :
  0 < p -> p < 2 ^ 64 -> wrap (p + (2 ^ 64 - 1)) = p - 1.
Proof.
  intros L0 L. unfold wrap.
  replace (p + (2 ^ 64 - 1)) with (p - 1 + 1 * 2 ^ 64) by lia.
  rewrite N.Div0.mod_add. apply N.mod_small. lia.
Qed.

Lemma pushBack_nextChar d :
  StringRef.size (Demangler.Text d) < 2 ^ 64 ->
  Demangler.Pos d < StringRef.size (Demangler.Text d) ->
  Demangler.pushBack (snd (Demangler.nextChar d)) = d.
Proof.
  intros LS L. unfold Demangler.nextChar, Demangler.pushBack.
  apply N.leb_gt in L as L'. rewrite L'.
  cbn [snd Demangler.set_Pos Demangler.Pos]. rewrite set_Pos_twice.
  rewrite (wrap_small (Demangler.Pos d + 1)) by lia.
  rewrite wrap_pred by lia.
  replace (Demangler.Pos d + 1 - 1) with (Demangler.Pos d) by lia.
  apply set_Pos_same.
Qed.

(** X10.  [pushBack] undoes a [nextChar], and a successful
    [nextIf(char)], made inside the text: the demangler is as before.
    At the end of the text [nextChar] consumes nothing, so a [pushBack]
    after it steps back over a character that was not read; and at
    [Pos = 0], where the source's assertion fails, [Pos] wraps around
    to [2 ^ 64 - 1]. *)
Theorem pushBack_undoes_nextChar d :
  StringRef.size (Demangler.Text d) < 2 ^ 64 ->
  (Demangler.Pos d < StringRef.size (Demangler.Text d) ->
   Demangler.pushBack (snd (Demangler.nextChar d)) = d
   /\ (forall c, fst (Demangler.nextIf_char c d) = true ->
                 Demangler.pushBack (snd (Demangler.nextIf_char c d)) = d))
  /\ (StringRef.size (Demangler.Text d) <= Demangler.Pos d ->
      0 < Demangler.Pos d < 2 ^ 64 ->
      Demangler.pushBack (snd (Demangler.nextChar d))
      = Demangler.set_Pos d (Demangler.Pos d - 1))
  /\ (Demangler.Pos d = 0 ->
      Demangler.Pos (Demangler.pushBack d) = 2 ^ 64 - 1).
Proof.
  intros LS. split; [|split].
  - intros L. split; [apply pushBack_nextChar; assumption|].
    intros c. pose proof (pushBack_nextChar d LS L) as PB.
    unfold Demangler.nextIf_char, Demangler.nextChar in *.
    apply N.leb_gt in L as L'. rewrite L' in PB.
    destruct (negb _); cbn [fst snd] in *; [discriminate|].
    intros _. exact PB.
  - intros L [L0 L1]. unfold Demangler.nextChar, Demangler.pushBack.
    apply N.leb_le in L as L'. rewrite L'. cbn [snd].
    rewrite wrap_pred by lia. reflexivity.
  - intros Z. unfold Demangler.pushBack.
    cbn [Demangler.set_Pos Demangler.Pos]. rewrite Z. reflexivity.
Qed.

Lemma drop_succ (n : nat) :
  forall s c rest,
    StringRef.drop n s = String c rest -> StringRef.drop (S n) s = rest.
Proof.
  induction n as [|n IH]; intros [|c' s] c rest E;
    cbn [StringRef.drop] in *; try discriminate.
  - injection E as _ ->. reflexivity.
  - apply (IH s c rest E).
Qed.

Lemma substr_next d (c : ascii) (rest : string) :
  Demangler.Pos d < StringRef.size (Demangler.Text d) ->
  StringRef.substr (Demangler.Text d) (Demangler.Pos d) = String c rest ->
  StringRef.substr (Demangler.Text d) (Demangler.Pos d + 1) = rest.
Proof.
  unfold StringRef.substr, StringRef.size. intros L E.
  rewrite N.min_l in * by lia.
  replace (N.to_nat (Demangler.Pos d + 1))
    with (S (N.to_nat (Demangler.Pos d))) by lia.
  apply (drop_succ _ _ c rest E).
Qed.

Lemma readChars_spec (n : nat) :
  forall d,
    StringRef.size (Demangler.Text d) < 2 ^ 64 ->
    Demangler.Pos d <= StringRef.size (Demangler.Text d) ->
    let chars :=
      list_ascii_of_string
        (StringRef.substr (Demangler.Text d) (Demangler.Pos d)) in
    fst (Demangler.readChars n d)
    = firstn n chars ++ repeat Ascii.zero (n - List.length chars)
    /\ snd (Demangler.readChars n d)
       = Demangler.set_Pos d
           (N.min (Demangler.Pos d + N.of_nat n)
                  (StringRef.size (Demangler.Text d))).
Proof.
  induction n as [|n IH]; intros d LS L chars; subst chars;
    cbn [Demangler.readChars fst snd].
  - split; [reflexivity|].
    rewrite N.add_0_r, N.min_l by exact L. symmetry. apply set_Pos_same.
  - unfold Demangler.nextChar.
    destruct (_ <=? _) eqn:E; cbn [fst snd].
    + apply N.leb_le in E.
      destruct (IH d LS L) as [I1 I2]. rewrite I1, I2.
      rewrite (substr_outside d E). cbn [list_ascii_of_string List.length].
      rewrite !firstn_nil, !Nat.sub_0_r. cbn [app repeat].
      split; [reflexivity|]. f_equal. lia.
    + apply N.leb_gt in E.
      destruct (substr_inside d E) as (c & rest & E1 & E2).
      set (d1 := Demangler.set_Pos d (wrap (Demangler.Pos d + 1))).
      assert (W : wrap (Demangler.Pos d + 1) = Demangler.Pos d + 1)
        by (apply wrap_small; lia).
      destruct (IH d1) as [I1 I2];
        [exact LS
        |subst d1; cbn [Demangler.set_Pos Demangler.Pos Demangler.Text];
         rewrite W; lia|].
      rewrite I1, I2. subst d1.
      cbn [Demangler.set_Pos Demangler.Pos Demangler.Text]. rewrite W.
      rewrite (substr_next d c rest E E1), E1, E2.
      cbn [list_ascii_of_string List.length firstn app Nat.sub].
      split; [reflexivity|]. rewrite set_Pos_twice. f_equal. lia.
Qed.

Lemma length_list_ascii (s : string) :
  List.length (list_ascii_of_string s) = String.length s.
Proof.
  induction s as [|c s IH]; cbn; [reflexivity|]. f_equal. exact IH.
Qed.

(** X11.  Reading with [nextChar] returns the text: [n] calls made at a
    position inside the text return its next [n] characters, followed
    by the sentinel 0 once the text is used up, and leave [Pos] advanced
    by [n] but not past the end.  From [Pos = 0], as many calls as the
    text has characters return the whole text. *)
Theorem nextChar_reads_the_text d :
  StringRef.size (Demangler.Text d) < 2 ^ 64 ->
  Demangler.Pos d <= StringRef.size (Demangler.Text d) ->
  (forall n,
      let chars :=
        list_ascii_of_string
          (StringRef.substr (Demangler.Text d) (Demangler.Pos d)) in
      fst (Demangler.readChars n d)
      = firstn n chars ++ repeat Ascii.zero (n - List.length chars)
      /\ snd (Demangler.readChars n d)
         = Demangler.set_Pos d
             (N.min (Demangler.Pos d + N.of_nat n)
                    (StringRef.size (Demangler.Text d))))
  /\ (Demangler.Pos d = 0 ->
      fst (Demangler.readChars (String.length (Demangler.Text d)) d)
      = list_ascii_of_string (Demangler.Text d)).
Proof.
  intros LS L. split.
  - intros n. apply readChars_spec; assumption.
  - intros Z.
    destruct (readChars_spec (String.length (Demangler.Text d)) d LS L)
      as [E _].
    rewrite E, Z. unfold StringRef.substr. rewrite N.min_0_l.
    cbn [N.to_nat StringRef.drop].
    rewrite <- (length_list_ascii (Demangler.Text d)).
    rewrite firstn_all, Nat.sub_diag. apply app_nil_r.
Qed.

(** X12.  No cursor primitive but [pushBack] moves [Pos] backwards, and
    with [Pos] within the text, [nextIf(str)], [nextChar] and
    [nextIf(c)] for a character other than NUL leave it within the
    text. *)
Theorem cursor_stays_in_text d :
  StringRef.size (Demangler.Text d) < 2 ^ 64 ->
  Demangler.Pos d <= StringRef.size (Demangler.Text d) ->
  (forall str,
      Demangler.Pos d <= Demangler.Pos (snd (Demangler.nextIf str d))
      /\ Demangler.Pos (snd (Demangler.nextIf str d))
         <= StringRef.size (Demangler.Text d))
  /\ (Demangler.Pos d <= Demangler.Pos (snd (Demangler.nextChar d))
      /\ Demangler.Pos (snd (Demangler.nextChar d))
         <= StringRef.size (Demangler.Text d))
  /\ (forall c,
         c <> Ascii.zero ->
         Demangler.Pos d <= Demangler.Pos (snd (Demangler.nextIf_char c d))
         /\ Demangler.Pos (snd (Demangler.nextIf_char c d))
            <= StringRef.size (Demangler.Text d)).
Proof.
  intros LS L. split; [|split].
  - intros str. unfold Demangler.nextIf, StringRef.startswith.
    destruct (String.prefix str _) eqn:E; cbn [negb snd]; [|lia].
    apply prefix_app in E.
    pose proof (input_starts_with_bound d str E).
    cbn [Demangler.set_Pos Demangler.Pos]. rewrite wrap_small by lia. lia.
  - unfold Demangler.nextChar.
    destruct (_ <=? _) eqn:E; cbn [snd]; [lia|].
    apply N.leb_gt in E. cbn [Demangler.set_Pos Demangler.Pos].
    rewrite wrap_small by lia. lia.
  - intros c NZ. unfold Demangler.nextIf_char, Demangler.peekChar.
    destruct (_ <=? _) eqn:E.
    + replace (Ascii.eqb Ascii.zero c) with false
        by (symmetry; apply Ascii.eqb_neq; congruence).
      cbn [negb snd]. lia.
    + apply N.leb_gt in E.
      destruct (negb _); cbn [snd]; [lia|].
      cbn [Demangler.set_Pos Demangler.Pos].
      rewrite wrap_small by lia. lia.
Qed.

End CursorProperties.

Lemma pushBack_undoes_nextChar_witness :
  (Demangler.pushBack (snd (Demangler.nextChar sample_session))
   = sample_session
   /\ (forall c, fst (Demangler.nextIf_char c sample_session) = true ->
                 Demangler.pushBack
                   (snd (Demangler.nextIf_char c sample_session))
                 = sample_session))
  /\ Demangler.pushBack
       (snd (Demangler.nextChar (Demangler.nextChars 4 sample_session)))
     = Demangler.set_Pos (Demangler.nextChars 4 sample_session) (4 - 1)
  /\ Demangler.Pos (Demangler.pushBack sample_session) = 2 ^ 64 - 1.
Proof.
  destruct (pushBack_undoes_nextChar sample_session) as (P1 & _ & P3);
    [reflexivity|].
  destruct (pushBack_undoes_nextChar (Demangler.nextChars 4 sample_session))
    as (_ & P2 & _); [reflexivity|].
  split; [apply P1; reflexivity|].
  split; [apply P2; by_computation|apply P3; reflexivity].
Defined.

Lemma nextChar_reads_the_text_witness :
  (forall n,
      let chars :=
        list_ascii_of_string
          (StringRef.substr (Demangler.Text sample_session)
                            (Demangler.Pos sample_session)) in
      fst (Demangler.readChars n sample_session)
      = firstn n chars ++ repeat Ascii.zero (n - List.length chars)
      /\ snd (Demangler.readChars n sample_session)
         = Demangler.set_Pos sample_session
             (N.min (Demangler.Pos sample_session + N.of_nat n)
                    (StringRef.size (Demangler.Text sample_session))))
  /\ (Demangler.Pos sample_session = 0 ->
      fst (Demangler.readChars
             (String.length (Demangler.Text sample_session)) sample_session)
      = list_ascii_of_string (Demangler.Text sample_session)).
Proof.
  apply (nextChar_reads_the_text sample_session).
  - reflexivity.
  - by_computation.
Defined.

Example read_past_the_end :
  fst (Demangler.readChars 6 sample_session)
  = ["_"; "T"; "0"; "i"; Ascii.zero; Ascii.zero]%char.
Proof. reflexivity. Qed.

Lemma cursor_stays_in_text_witness :
  (forall str,
      0 <= Demangler.Pos (snd (Demangler.nextIf str sample_session))
      /\ Demangler.Pos (snd (Demangler.nextIf str sample_session)) <= 4)
  /\ (0 <= Demangler.Pos (snd (Demangler.nextChar sample_session))
      /\ Demangler.Pos (snd (Demangler.nextChar sample_session)) <= 4)
  /\ (forall c,
         c <> Ascii.zero ->
         0 <= Demangler.Pos (snd (Demangler.nextIf_char c sample_session))
         /\ Demangler.Pos (snd (Demangler.nextIf_char c sample_session))
            <= 4).
Proof.
  apply (cursor_stays_in_text sample_session).
  - reflexivity.
  - by_computation.
Defined.


Section MatchProperties.

Context {Node : Type}.
Implicit Types d : Demangler.state (Node := Node).

Lemma append_assoc_string (s1 s2 s3 : string) :
  ((s1 ++ s2) ++ s3 = s1 ++ (s2 ++ s3))%string.
Proof.
  induction s1 as [|c s1 IH]; cbn; [reflexivity|]. f_equal. exact IH.
Qed.

Lemma append_cancel_l (s r1 r2 : string) :
  (s ++ r1 = s ++ r2)%string -> r1 = r2.
Proof.
  induction s as [|c s IH]; cbn; intros E; [exact E|].
  injection E as E. exact (IH E).
Qed.

Lemma drop_nil (n : nat) : StringRef.drop n EmptyString = EmptyString.
Proof. destruct n; reflexivity. Qed.

Lemma drop_add (a b : nat) :
  forall s, StringRef.drop (a + b) s = StringRef.drop b (StringRef.drop a s).
Proof.
  induction a as [|a IH]; intros [|c s]; cbn [Nat.add StringRef.drop];
    try reflexivity.
  - rewrite drop_nil. destruct (a + b)%nat; reflexivity.
  - apply IH.
Qed.

Lemma drop_append (s1 rest : string) :
  StringRef.drop (String.length s1) (s1 ++ rest) = rest.
Proof. induction s1 as [|c s1 IH]; cbn; [reflexivity|exact IH]. Qed.

Lemma substr_advance d (s1 rest : string) :
  StringRef.substr (Demangler.Text d) (Demangler.Pos d)
  = (s1 ++ rest)%string ->
  StringRef.substr (Demangler.Text d) (Demangler.Pos d + StringRef.size s1)
  = rest.
Proof.
  intros E.
  destruct (N.le_gt_cases (Demangler.Pos d)
                          (StringRef.size (Demangler.Text d))) as [L|L].
  - pose proof (f_equal String.length E) as LE.
    unfold StringRef.substr, StringRef.size in *.
    rewrite N.min_l in E, LE by exact L.
    rewrite length_drop, length_append in LE.
    rewrite N.min_l by lia.
    replace (N.to_nat (Demangler.Pos d + N.of_nat (String.length s1)))
      with (N.to_nat (Demangler.Pos d) + String.length s1)%nat by lia.
    rewrite drop_add, E. apply drop_append.
  - rewrite substr_outside in E by lia.
    destruct s1; [|discriminate E]. cbn in E. subst rest.
    unfold StringRef.substr, StringRef.size in *.
    apply drop_all. lia.
Qed.

Lemma input_starts_with_append d (s1 s2 : string) :
  Demangler.input_starts_with d (s1 ++ s2)
  <-> Demangler.input_starts_with d s1
      /\ Demangler.input_starts_with
           (Demangler.set_Pos d (Demangler.Pos d + StringRef.size s1)) s2.
Proof.
  unfold Demangler.input_starts_with.
  cbn [Demangler.set_Pos Demangler.Text Demangler.Pos]. split.
  - intros [rest E]. rewrite append_assoc_string in E.
    split; [exists (s2 ++ rest)%string; exact E|].
    exists rest. apply (substr_advance d s1 _ E).
  - intros [[r1 E1] [r2 E2]]. exists r2.
    rewrite (substr_advance d s1 r1 E1) in E2. subst r1.
    rewrite append_assoc_string. exact E1.
Qed.

Lemma input_starts_with_dec d (str : string) :
  Demangler.input_starts_with d str \/ ~ Demangler.input_starts_with d str.
Proof.
  unfold Demangler.input_starts_with.
  destruct (String.prefix str
              (StringRef.substr (Demangler.Text d) (Demangler.Pos d))) eqn:E.
  - left. apply prefix_app. exact E.
  - right. intros X. apply prefix_app in X. congruence.
Qed.

Lemma nextIf_append d (s1 s2 : string) :
  Demangler.Pos d < 2 ^ 64 ->
  StringRef.size (Demangler.Text d) < 2 ^ 64 ->
  let first := Demangler.nextIf s1 d in
  let second := Demangler.nextIf s2 (snd first) in
  let both := Demangler.nextIf (s1 ++ s2) d in
  fst both = (fst first && fst second)%bool
  /\ (fst both = true -> snd both = snd second)
  /\ (fst first = true -> fst second = false ->
      snd both = d
      /\ Demangler.Pos (snd second) = Demangler.Pos d + StringRef.size s1).
Proof.
  intros LP LS.
  destruct (nextIf_spec d s1 LP LS) as [A1 B1].
  destruct (nextIf_spec d (s1 ++ s2) LP LS) as [A B].
  pose proof (input_starts_with_append d s1 s2) as IA.
  destruct (input_starts_with_dec d s1) as [H1|H1].
  - rewrite (A1 H1). cbn [fst snd andb].
    set (d1 := Demangler.set_Pos d (Demangler.Pos d + StringRef.size s1))
      in *.
    pose proof (input_starts_with_bound d s1 H1) as BD.
    destruct (nextIf_spec d1 s2) as [A2 B2];
      [subst d1; cbn [Demangler.set_Pos Demangler.Pos]; lia
      |exact LS|].
    destruct (input_starts_with_dec d1 s2) as [H2|H2].
    + rewrite (A2 H2), (A (proj2 IA (conj H1 H2))). cbn [fst snd].
      split; [reflexivity|]. split; [|discriminate].
      intros _. subst d1. rewrite set_Pos_twice.
      cbn [Demangler.set_Pos Demangler.Pos]. f_equal.
      unfold StringRef.size. rewrite length_append. lia.
    + rewrite (B2 H2). rewrite B by (intros X; apply IA in X; tauto).
      cbn [fst snd]. split; [reflexivity|]. split; [discriminate|].
      intros _ _. split; reflexivity.
  - rewrite (B1 H1). rewrite B by (intros X; apply IA in X; tauto).
    cbn [fst snd andb]. split; [reflexivity|].
    split; discriminate.
Qed.

(** X13.  Matching a text in two steps: [nextIf(s1 + s2)] succeeds
    exactly when [nextIf(s1)] and then [nextIf(s2)] succeed, and leaves
    the same demangler.  When the first step succeeds and the second
    fails, the two-step match has consumed [s1] where the single call
    has consumed nothing. *)
Theorem nextIf_of_concatenation d (s1 s2 : string) :
  Demangler.Pos d < 2 ^ 64 ->
  StringRef.size (Demangler.Text d) < 2 ^ 64 ->
  let first := Demangler.nextIf s1 d in
  let second := Demangler.nextIf s2 (snd first) in
  let both := Demangler.nextIf (s1 ++ s2) d in
  fst both = (fst first && fst second)%bool
  /\ (fst both = true -> snd both = snd second)
  /\ (fst first = true -> fst second = false ->
      snd both = d
      /\ Demangler.Pos (snd second) = Demangler.Pos d + StringRef.size s1).
Proof. apply nextIf_append. Qed.

Lemma nextIf_char_as_string d (c : ascii) :
  Demangler.Pos d < 2 ^ 64 ->
  StringRef.size (Demangler.Text d) < 2 ^ 64 ->
  c <> Ascii.zero \/ Demangler.Pos d < StringRef.size (Demangler.Text d) ->
  Demangler.nextIf_char c d = Demangler.nextIf (String c EmptyString) d.
Proof.
  intros LP LS H.
  destruct (nextIf_spec d (String c EmptyString) LP LS) as [A B].
  destruct (nextIf_char_spec d c LS H) as [A' B'].
  destruct (input_starts_with_dec d (String c EmptyString)) as [I|I].
  - rewrite (A I), (A' I). reflexivity.
  - rewrite (B I), (B' I). reflexivity.
Qed.

(** X14.  [nextIf(c)] is [nextIf] of the one-character text [c], for
    every character but NUL and everywhere inside the text.  At or past
    the end of the text the two differ for NUL: [nextIf(char)] matches
    the sentinel and advances [Pos], [nextIf(StringRef)] fails. *)
Theorem nextIf_char_is_nextIf_of_one_char d (c : ascii) :
  Demangler.Pos d < 2 ^ 64 ->
  StringRef.size (Demangler.Text d) < 2 ^ 64 ->
  (c <> Ascii.zero \/ Demangler.Pos d < StringRef.size (Demangler.Text d) ->
   Demangler.nextIf_char c d = Demangler.nextIf (String c EmptyString) d)
  /\ (StringRef.size (Demangler.Text d) <= Demangler.Pos d ->
      Demangler.nextIf_char Ascii.zero d
      = (true, Demangler.set_Pos d (wrap (Demangler.Pos d + 1)))
      /\ Demangler.nextIf (String Ascii.zero EmptyString) d = (false, d)).
Proof.
  intros LP LS. split; [apply nextIf_char_as_string; assumption|].
  intros L. split.
  - unfold Demangler.nextIf_char, Demangler.peekChar.
    apply N.leb_le in L. rewrite L. reflexivity.
  - unfold Demangler.nextIf. rewrite (substr_outside d L). reflexivity.
Qed.

End MatchProperties.

Lemma nextIf_of_concatenation_witness :
  let first := Demangler.nextIf "_T" sample_session in
  let second := Demangler.nextIf "0" (snd first) in
  let both := Demangler.nextIf ("_T" ++ "0") sample_session in
  fst both = (fst first && fst second)%bool
  /\ (fst both = true -> snd both = snd second)
  /\ (fst first = true -> fst second = false ->
      snd both = sample_session
      /\ Demangler.Pos (snd second)
         = Demangler.Pos sample_session + StringRef.size "_T").
Proof.
  apply (nextIf_of_concatenation sample_session "_T" "0");
    by_computation.
Defined.

Example nextIf_second_step_fails :
  Demangler.nextIf ("_T" ++ "t") sample_session = (false, sample_session)
  /\ Demangler.Pos
       (snd (Demangler.nextIf "t" (snd (Demangler.nextIf "_T" sample_session))))
     = 2.
Proof. by_computation. Qed.

Lemma nextIf_char_is_nextIf_of_one_char_witness :
  (forall c : ascii,
      c <> Ascii.zero
      \/ Demangler.Pos sample_session
         < StringRef.size (Demangler.Text sample_session) ->
      Demangler.nextIf_char c sample_session
      = Demangler.nextIf (String c EmptyString) sample_session)
  /\ (let e := Demangler.nextChars 4 sample_session in
      Demangler.nextIf_char Ascii.zero e
      = (true, Demangler.set_Pos e (wrap (Demangler.Pos e + 1)))
      /\ Demangler.nextIf (String Ascii.zero EmptyString) e = (false, e)).
Proof.
  split.
  - intros c.
    apply (nextIf_char_is_nextIf_of_one_char sample_session c);
      by_computation.
  - apply (nextIf_char_is_nextIf_of_one_char
             (Demangler.nextChars 4 sample_session) Ascii.zero);
      by_computation.
Defined.

Section StackProperties.

Context {Kind Node : Type}.
Variable Kind_eq_dec : forall a b : Kind, {a = b} + {a <> b}.
Variable getKind : Node -> Kind.
Implicit Types d : Demangler.state (Node := Node).
Implicit Types Nd : Demangler.NodePointer (Node := Node).

Lemma set_NodeStack_same d :
  Demangler.set_NodeStack d (Demangler.NodeStack d) = d.
Proof. destruct d. reflexivity. Qed.

Lemma popNode_pushNode Nd d :
  Demangler.popNode (Demangler.pushNode Nd d) = (Nd, d).
Proof.
  rewrite (popNode_snoc (Demangler.pushNode Nd d) (Demangler.NodeStack d)
             (Demangler.mkNodeWithPos Nd (Demangler.Pos d)) eq_refl).
  cbn [Demangler.NWP_Node]. f_equal.
  exact (set_NodeStack_same d).
Qed.

Lemma top_of_pushNode Nd d :
  exists e s,
    Demangler.NodeStack (Demangler.pushNode Nd d) = e :: s
    /\ Demangler.NWP_Node (last s e) = Nd.
Proof.
  cbn [Demangler.pushNode Demangler.set_NodeStack Demangler.NodeStack].
  pose proof (back_of_snoc (Demangler.NodeStack d)
                (Demangler.mkNodeWithPos Nd (Demangler.Pos d))) as B.
  destruct (Demangler.NodeStack d ++ _) as [|e s]; [contradiction|].
  exists e, s. split; [reflexivity|]. rewrite (proj1 B). reflexivity.
Qed.

(** X15.  The node stack is last in, first out: [popNode] after
    [pushNode] returns the pushed pointer and leaves the demangler as it
    was before the push, two pushed pointers come back in reverse order,
    and the entry pushed carries the position of the push.
    [popNode(kind)] after the push of a node returns it when its kind
    is [kind] and otherwise null with the node still on the stack; after
    the push of a null pointer it reads the kind through that pointer. *)
Theorem node_stack_is_LIFO d :
  (forall Nd, Demangler.popNode (Demangler.pushNode Nd d) = (Nd, d))
  /\ (forall a b,
         let d2 := Demangler.pushNode b (Demangler.pushNode a d) in
         fst (Demangler.popNode d2) = b
         /\ Demangler.popNode (snd (Demangler.popNode d2)) = (a, d))
  /\ (forall Nd,
         Demangler.NodeStack (Demangler.pushNode Nd d)
         = Demangler.NodeStack d
           ++ [Demangler.mkNodeWithPos Nd (Demangler.Pos d)])
  /\ (forall nd kind,
         Demangler.popNode_kind Kind_eq_dec getKind kind
           (Demangler.pushNode (Some nd) d)
         = Some (if Kind_eq_dec (getKind nd) kind then (Some nd, d)
                 else (None, Demangler.pushNode (Some nd) d)))
  /\ (forall kind,
         Demangler.popNode_kind Kind_eq_dec getKind kind
           (Demangler.pushNode None d) = None).
Proof.
  split; [intros Nd; apply popNode_pushNode|].
  split; [intros a b d2; subst d2; rewrite !popNode_pushNode;
          cbn [fst snd]; split; [reflexivity|apply popNode_pushNode]|].
  split; [reflexivity|]. split.
  - intros nd kind. unfold Demangler.popNode_kind.
    destruct (top_of_pushNode (Some nd) d) as (e & s & E & T).
    rewrite E, T.
    destruct (Kind_eq_dec (getKind nd) kind); [|reflexivity].
    rewrite popNode_pushNode. reflexivity.
  - intros kind. unfold Demangler.popNode_kind.
    destruct (top_of_pushNode None d) as (e & s & E & T).
    rewrite E, T. reflexivity.
Qed.

Lemma pop_back_val_snoc (v : list (Demangler.NodePointer (Node := Node)))
      (x : Demangler.NodePointer) :
  Demangler.pop_back_val (v ++ [x]) = (x, v).
Proof.
  unfold Demangler.pop_back_val. pose proof (back_of_snoc v x) as B.
  destruct (v ++ [x]) as [|e s]; [contradiction|].
  destruct B as [B1 B2]. rewrite B1, B2. reflexivity.
Qed.

(** X16.  [pop_back_val] takes the last pointer off a vector and returns
    it; on an empty vector it returns null and leaves the vector empty,
    so that a null result does not tell an empty vector from a null
    last element.  On the pointers of the node stack it does what
    [popNode] does. *)
Theorem pop_back_val_takes_last :
  Demangler.pop_back_val ([] : list (Demangler.NodePointer (Node := Node)))
  = (None, [])
  /\ (forall (v : list (Demangler.NodePointer (Node := Node))) x,
         Demangler.pop_back_val (v ++ [x]) = (x, v))
  /\ (forall v : list (Demangler.NodePointer (Node := Node)),
         fst (Demangler.pop_back_val v) = None
         <-> v = [] \/ exists v', v = v' ++ [None])
  /\ (forall d,
         let r := Demangler.pop_back_val
                    (map Demangler.NWP_Node (Demangler.NodeStack d)) in
         fst (Demangler.popNode d) = fst r
         /\ map Demangler.NWP_Node
                (Demangler.NodeStack (snd (Demangler.popNode d)))
            = snd r).
Proof.
  split; [reflexivity|]. split; [apply pop_back_val_snoc|]. split.
  - intros v. destruct v as [|x v _] using rev_ind.
    + split; [intros _; left; reflexivity|reflexivity].
    + rewrite pop_back_val_snoc. cbn [fst]. split.
      * intros ->. right. exists v. reflexivity.
      * intros [E|[v' E]].
        -- destruct v; discriminate E.
        -- apply app_inj_tail in E. exact (proj2 E).
  - intros d r. subst r.
    destruct (Demangler.NodeStack d) as [|e s _] eqn:NS using rev_ind.
    + unfold Demangler.popNode. rewrite NS. cbn [fst snd map].
      split; [reflexivity|]. rewrite NS. reflexivity.
    + rewrite (popNode_snoc d s e NS), map_app. cbn [map].
      rewrite pop_back_val_snoc. split; reflexivity.
Qed.

Lemma popNode_frame d :
  let d' := snd (Demangler.popNode d) in
  Demangler.Factory d' = Demangler.Factory d
  /\ Demangler.Text d' = Demangler.Text d
  /\ Demangler.Pos d' = Demangler.Pos d
  /\ Demangler.Substitutions d' = Demangler.Substitutions d
  /\ Demangler.PendingSubstitutions d' = Demangler.PendingSubstitutions d
  /\ Demangler.Words d' = Demangler.Words d
  /\ Demangler.NumWords d' = Demangler.NumWords d.
Proof.
  unfold Demangler.popNode. destruct (Demangler.NodeStack d);
    cbn [snd]; repeat split.
Qed.

Lemma popNode_kind_frame kind d r :
  Demangler.popNode_kind Kind_eq_dec getKind kind d = Some r ->
  snd r = d \/ snd r = snd (Demangler.popNode d).
Proof.
  unfold Demangler.popNode_kind.
  destruct (Demangler.NodeStack d) as [|e s];
    [intros [= <-]; left; reflexivity|].
  destruct (Demangler.NWP_Node (last s e)); [|discriminate].
  destruct (Kind_eq_dec _ _); intros [= <-];
    [right|left]; reflexivity.
Qed.

Lemma popNode_pred_frame pred d r :
  Demangler.popNode_pred getKind pred d = Some r ->
  snd r = d \/ snd r = snd (Demangler.popNode d).
Proof.
  unfold Demangler.popNode_pred.
  destruct (Demangler.NodeStack d) as [|e s];
    [intros [= <-]; left; reflexivity|].
  destruct (Demangler.NWP_Node (last s e)); [|discriminate].
  destruct (negb _); intros [= <-]; [left|right]; reflexivity.
Qed.

Lemma cursor_frame d (p : N) :
  let d' := Demangler.set_Pos d p in
  Demangler.Factory d' = Demangler.Factory d
  /\ Demangler.Text d' = Demangler.Text d
  /\ Demangler.NodeStack d' = Demangler.NodeStack d
  /\ Demangler.Substitutions d' = Demangler.Substitutions d
  /\ Demangler.PendingSubstitutions d' = Demangler.PendingSubstitutions d
  /\ Demangler.Words d' = Demangler.Words d
  /\ Demangler.NumWords d' = Demangler.NumWords d.
Proof. repeat split. Qed.

Lemma exec_cases (o : Demangler.Primitive) d d' :
  Demangler.exec Kind_eq_dec getKind o d = Some d' ->
  d' = d
  \/ (exists p, d' = Demangler.set_Pos d p
                /\ match o with
                   | Demangler.OpNextIf _ | Demangler.OpNextIfChar _
                   | Demangler.OpNextChar | Demangler.OpPushBack => True
                   | _ => False
                   end)
  \/ (exists Nd, d' = Demangler.pushNode Nd d
                 /\ o = Demangler.OpPushNode Nd)
  \/ (d' = snd (Demangler.popNode d)
      /\ match o with
         | Demangler.OpPopNode | Demangler.OpPopNodeKind _
         | Demangler.OpPopNodePred _ => True
         | _ => False
         end)
  \/ (exists nd, d' = Demangler.addSubstitution (Some nd) d
                 /\ o = Demangler.OpAddSubstitution (Some nd)).
Proof.
  destruct o as [str|c| | | |Nd| |kind|pred|Nd]; cbn [Demangler.exec].
  - intros [= <-]. unfold Demangler.nextIf.
    destruct (negb _); cbn [snd]; [left; reflexivity|].
    right; left. eexists. split; [reflexivity|exact I].
  - intros [= <-]. unfold Demangler.nextIf_char.
    destruct (negb _); cbn [snd]; [left; reflexivity|].
    right; left. eexists. split; [reflexivity|exact I].
  - intros [= <-]. left; reflexivity.
  - intros [= <-]. unfold Demangler.nextChar.
    destruct (_ <=? _); cbn [snd]; [left; reflexivity|].
    right; left. eexists. split; [reflexivity|exact I].
  - intros [= <-]. right; left. eexists. split; [reflexivity|exact I].
  - intros [= <-]. right; right; left. exists Nd. split; reflexivity.
  - intros [= <-]. right; right; right; left. split; [reflexivity|exact I].
  - destruct (Demangler.popNode_kind _ _ _ _) as [r|] eqn:E;
      [|discriminate].
    cbn [option_map]. intros [= <-].
    destruct (popNode_kind_frame kind d r E) as [->| ->];
      [left; reflexivity|].
    right; right; right; left. split; [reflexivity|exact I].
  - destruct (Demangler.popNode_pred _ _ _) as [r|] eqn:E;
      [|discriminate].
    cbn [option_map]. intros [= <-].
    destruct (popNode_pred_frame pred d r E) as [->| ->];
      [left; reflexivity|].
    right; right; right; left. split; [reflexivity|exact I].
  - intros [= <-]. destruct Nd as [nd|]; [|left; reflexivity].
    right; right; right; right. exists nd. split; reflexivity.
Qed.

Lemma exec_frame (o : Demangler.Primitive) d d' :
  Demangler.exec Kind_eq_dec getKind o d = Some d' ->
  (Demangler.Factory d' = Demangler.Factory d
   /\ Demangler.Text d' = Demangler.Text d
   /\ Demangler.PendingSubstitutions d' = Demangler.PendingSubstitutions d
   /\ Demangler.Words d' = Demangler.Words d
   /\ Demangler.NumWords d' = Demangler.NumWords d)
  /\ match o with
     | Demangler.OpNextIf _ | Demangler.OpNextIfChar _
     | Demangler.OpPeekChar | Demangler.OpNextChar | Demangler.OpPushBack =>
         Demangler.NodeStack d' = Demangler.NodeStack d
         /\ Demangler.Substitutions d' = Demangler.Substitutions d
     | Demangler.OpAddSubstitution _ =>
         Demangler.Pos d' = Demangler.Pos d
         /\ Demangler.NodeStack d' = Demangler.NodeStack d
     | _ =>
         Demangler.Pos d' = Demangler.Pos d
         /\ Demangler.Substitutions d' = Demangler.Substitutions d
     end.
Proof.
  intros E.
  destruct (exec_cases o d d' E)
    as [->|[(p & -> & M)|[(Nd & -> & ->)|[(-> & M)|(nd & -> & ->)]]]].
  - split; [repeat split|]. destruct o; split; reflexivity.
  - split; [repeat split|]. destruct o; try contradiction;
      split; reflexivity.
  - split; [repeat split|]. split; reflexivity.
  - destruct (popNode_frame d) as (F1 & F2 & F3 & F4 & F5 & F6 & F7).
    split; [repeat split; assumption|].
    destruct o; try contradiction; split; assumption.
  - split; [repeat split|]. split; reflexivity.
Qed.

(** X17.  What the primitives leave alone.  No primitive of the header
    changes the text, the word list and its count, the pending
    substitutions or the node factory, over any run.  The cursor
    primitives change neither the node stack nor the substitutions;
    [pushNode] and the three [popNode] change neither [Pos] nor the
    substitutions; [addSubstitution] changes neither [Pos] nor the node
    stack. *)
Theorem primitives_leave_the_rest (ops : list Demangler.Primitive) d d' :
  Demangler.exec_all Kind_eq_dec getKind ops d = Some d' ->
  (Demangler.Factory d' = Demangler.Factory d
   /\ Demangler.Text d' = Demangler.Text d
   /\ Demangler.PendingSubstitutions d' = Demangler.PendingSubstitutions d
   /\ Demangler.Words d' = Demangler.Words d
   /\ Demangler.NumWords d' = Demangler.NumWords d)
  /\ (forall o,
         ops = [o] ->
         match o with
         | Demangler.OpNextIf _ | Demangler.OpNextIfChar _
         | Demangler.OpPeekChar | Demangler.OpNextChar
         | Demangler.OpPushBack =>
             Demangler.NodeStack d' = Demangler.NodeStack d
             /\ Demangler.Substitutions d' = Demangler.Substitutions d
         | Demangler.OpAddSubstitution _ =>
             Demangler.Pos d' = Demangler.Pos d
             /\ Demangler.NodeStack d' = Demangler.NodeStack d
         | _ =>
             Demangler.Pos d' = Demangler.Pos d
             /\ Demangler.Substitutions d' = Demangler.Substitutions d
         end).
Proof.
  intros E. split.
  - revert d E. induction ops as [|o ops IH]; intros d E;
      cbn [Demangler.exec_all] in E.
    + injection E as <-. repeat split.
    + destruct (Demangler.exec _ _ o d) as [d1|] eqn:E1; [|discriminate].
      destruct (exec_frame o d d1 E1) as [(F1 & F2 & F3 & F4 & F5) _].
      destruct (IH d1 E) as (G1 & G2 & G3 & G4 & G5).
      repeat split; congruence.
  - intros o ->. cbn [Demangler.exec_all] in E.
    destruct (Demangler.exec _ _ o d) as [d1|] eqn:E1; [|discriminate].
    injection E as <-. apply (exec_frame o d d1 E1).
Qed.

Lemma exec_added (o : Demangler.Primitive) d d' :
  Demangler.exec Kind_eq_dec getKind o d = Some d' ->
  Demangler.Substitutions d'
  = Demangler.Substitutions d ++ Demangler.added_substitutions [o].
Proof.
  intros E.
  destruct (exec_cases o d d' E)
    as [->|[(p & -> & M)|[(Nd & -> & ->)|[(-> & M)|(nd & -> & ->)]]]].
  - destruct o as [| | | | | | | | |[nd|]];
      cbn [Demangler.added_substitutions]; try (symmetry; apply app_nil_r).
    cbn [Demangler.exec Demangler.addSubstitution] in E.
    injection E as E. apply (f_equal Demangler.Substitutions) in E.
    cbn [Demangler.set_Substitutions Demangler.Substitutions] in E.
    exact (eq_sym E).
  - destruct o; try contradiction; symmetry; apply app_nil_r.
  - symmetry; apply app_nil_r.
  - destruct (popNode_frame d) as (_ & _ & _ & F4 & _).
    rewrite F4. destruct o; try contradiction; symmetry; apply app_nil_r.
  - reflexivity.
Qed.

Lemma added_substitutions_cons (o : Demangler.Primitive (Kind := Kind)
                                                      (Node := Node))
      (ops : list Demangler.Primitive) :
  Demangler.added_substitutions (o :: ops)
  = Demangler.added_substitutions [o] ++ Demangler.added_substitutions ops.
Proof. destruct o as [| | | | | | | | |[nd|]]; reflexivity. Qed.

Lemma exec_all_added (ops : list Demangler.Primitive) :
  forall d d',
    Demangler.exec_all Kind_eq_dec getKind ops d = Some d' ->
    Demangler.Substitutions d'
    = Demangler.Substitutions d ++ Demangler.added_substitutions ops.
Proof.
  induction ops as [|o ops IH]; intros d d' E;
    cbn [Demangler.exec_all] in E.
  - injection E as <-. symmetry. apply app_nil_r.
  - destruct (Demangler.exec _ _ o d) as [d1|] eqn:E1; [|discriminate].
    rewrite (added_substitutions_cons o ops).
    rewrite (IH d1 d' E), (exec_added o d d1 E1).
    symmetry. apply app_assoc.
Qed.

(** X18.  The substitution list only grows at its end: after any run of
    primitives it is the list before the run followed by the non-null
    pointers handed to [addSubstitution], in the order of the calls.
    Hence a substitution keeps its index for the rest of the run. *)
Theorem Substitutions_only_appended (ops : list Demangler.Primitive) d d' :
  Demangler.exec_all Kind_eq_dec getKind ops d = Some d' ->
  Demangler.Substitutions d'
  = Demangler.Substitutions d ++ Demangler.added_substitutions ops
  /\ (forall i Nd,
         nth_error (Demangler.Substitutions d) i = Some Nd ->
         nth_error (Demangler.Substitutions d') i = Some Nd).
Proof.
  intros E. pose proof (exec_all_added ops d d' E) as A.
  split; [exact A|]. intros i Nd H. rewrite A.
  rewrite nth_error_app1; [exact H|].
  apply nth_error_Some. congruence.
Qed.

End StackProperties.

Lemma primitives_leave_the_rest_witness :
  let ops := [Demangler.OpNextIf "_T0"%string;
              Demangler.OpPushNode (Some (mkSampleNode 1 "i"));
              Demangler.OpAddSubstitution (Some (mkSampleNode 1 "i"));
              Demangler.OpPopNodeKind 1] in
  exists d',
    Demangler.exec_all N.eq_dec sample_kind ops sample_session = Some d'
    /\ Demangler.Factory d' = Demangler.Factory sample_session
    /\ Demangler.Text d' = Demangler.Text sample_session
    /\ Demangler.PendingSubstitutions d'
       = Demangler.PendingSubstitutions sample_session
    /\ Demangler.Words d' = Demangler.Words sample_session
    /\ Demangler.NumWords d' = Demangler.NumWords sample_session.
Proof.
  intros ops. eexists. split; [reflexivity|].
  apply (primitives_leave_the_rest N.eq_dec sample_kind ops sample_session).
  reflexivity.
Defined.

Lemma Substitutions_only_appended_witness :
  let ops := [Demangler.OpAddSubstitution (Some (mkSampleNode 1 "i"));
              Demangler.OpAddSubstitution None;
              Demangler.OpNextChar;
              Demangler.OpAddSubstitution (Some (mkSampleNode 2 "d"))] in
  exists d',
    Demangler.exec_all N.eq_dec sample_kind ops sample_session = Some d'
    /\ Demangler.Substitutions d'
       = Demangler.Substitutions sample_session
         ++ [Some (mkSampleNode 1 "i"); Some (mkSampleNode 2 "d")].
Proof.
  intros ops. eexists. split; [reflexivity|].
  apply (Substitutions_only_appended N.eq_dec sample_kind ops
           sample_session).
  reflexivity.
Defined.
